(** * Dom.js: CSS-selector queries over a page, and the [Elements] container

    A shallow embedding of [src/Addons/Dom.js]: the selector pattern of
    [Element.getElements], the query methods [getElements], [getElementById],
    [getElement], [getElementsBySelector], the global functions [$E] and
    [$ES], and the methods of class [Elements] ([action], [filterById],
    [filterByClassName], [filterByTagName], [filterByAttribute]).

    Arrays of elements are mutable JavaScript objects: they live in a store
    and are handled through references, so that "a new array is built" and
    "the receiver is not touched" are statements about the store.  The page
    itself is a tree that no function of this file changes. *)

From Stdlib Require Import Ascii Arith Lia.
From stdpp Require Import base list strings gmap.

Local Open Scope string_scope.
Local Open Scope list_scope.

(** ** Characters and strings *)

Module Chars.

Definition code (c : ascii) : nat := nat_of_ascii c.

Definition between (lo hi : nat) (c : ascii) : bool :=
  Nat.leb lo (code c) && Nat.leb (code c) hi.

Definition is_digit : ascii -> bool := between 48 57.
Definition is_upper : ascii -> bool := between 65 90.
Definition is_lower : ascii -> bool := between 97 122.

Definition one (a : ascii) (c : ascii) : bool := Ascii.eqb a c.

(** The class of word characters: letters, digits and the underscore. *)
Definition word (c : ascii) : bool :=
  is_lower c || is_upper c || is_digit c || one "_" c.

(** A word character or the dash. *)
Definition word_dash (c : ascii) : bool := word c || one "-" c.

(** A double quote (code 34) or a single quote (code 39). *)
Definition quote (c : ascii) : bool := Nat.eqb (code c) 34 || Nat.eqb (code c) 39.

(** A star, a hat or a dollar. *)
Definition star_hat_dollar (c : ascii) : bool :=
  one "*" c || one "^" c || one "$" c.

(** Whitespace, on the ASCII range: space, tab, line feed, vertical tab, form
    feed, carriage return. *)
Definition space (c : ascii) : bool :=
  one " " c || between 9 13 c.

Definition lower (c : ascii) : ascii :=
  if is_upper c then ascii_of_nat (code c + 32) else c.

End Chars.

(** [String.prototype.toLowerCase], on the ASCII range. *)
Fixpoint toLowerCase (s : string) : string :=
  match s with
  | EmptyString => EmptyString
  | String c s' => String (Chars.lower c) (toLowerCase s')
  end.

(** [s.split(sep)] for a one-character separator: the pieces between the
    separators, in order; a string without separator is its only piece, the
    empty string included. *)
Fixpoint split (sep : ascii) (s : string) : list string :=
  match s with
  | EmptyString => [EmptyString]
  | String c s' =>
      if Ascii.eqb c sep then EmptyString :: split sep s'
      else match split sep s' with
           | w :: ws => String c w :: ws
           | [] => [String c EmptyString]
           end
  end.

Fixpoint collapse (after_space : bool) (s : string) : string :=
  match s with
  | EmptyString => EmptyString
  | String c s' =>
      if Chars.space c
      then (if after_space then collapse true s'
            else String " " (collapse true s'))
      else String c (collapse false s')
  end.

Fixpoint drop_last_space (s : string) : string :=
  match s with
  | EmptyString => EmptyString
  | String c EmptyString => if Chars.one " " c then EmptyString else s
  | String c s' => String c (drop_last_space s')
  end.

(** Modelled from the spec: [String.clean] (String.js) is not under src/.
    The spec has it "trim/collapse whitespace": every run of whitespace
    becomes one space and the string loses its leading and trailing
    whitespace. *)
Definition clean (s : string) : string := drop_last_space (collapse true s).

(** ** Regular expressions

    The patterns of this file use literal characters, character classes,
    sequence, alternation, the greedy option, the greedy repetitions "any
    number of" and "one or more of" on a character class, capturing groups,
    and the anchors of the start and of the end of the input.  [exec] is the
    backtracking matcher of ECMAScript on that fragment, in
    continuation-passing style: the continuation is the rest of the pattern,
    and a [None] from it makes the matcher try its next choice. *)

Inductive regex : Type :=
| Eps
| Chr (cls : ascii -> bool)
| Cat (r1 r2 : regex)
| Alt (r1 r2 : regex)
| Opt (r : regex)
| Star (cls : ascii -> bool)
| Plus (cls : ascii -> bool)
| Grp (n : nat) (r : regex)
| Bol
| Eol.

Declare Scope regex_scope.
Delimit Scope regex_scope with re.
Bind Scope regex_scope with regex.
Infix "·" := Cat (at level 41, right associativity) : regex_scope.

(** The literal pattern that spells [s]. *)
Fixpoint Lit (s : string) : regex :=
  match s with
  | EmptyString => Eps
  | String c s' => Cat (Chr (Chars.one c)) (Lit s')
  end.

(** A matcher state: the index reached in the input, what is left of the
    input from there, and the groups captured so far as (group, text),
    latest first. *)
Record mstate : Type := MState {
  pos : nat;
  rest : string;
  caps : list (nat * string)
}.

Definition start_at (i : nat) (s : string) : mstate :=
  {| pos := i; rest := s; caps := [] |}.

Definition advance (st : mstate) (s' : string) : mstate :=
  {| pos := S (pos st); rest := s'; caps := caps st |}.

(** The text consumed between two states of one run. *)
Definition consumed (st st' : mstate) : string :=
  String.substring 0 (pos st' - pos st) (rest st).

Definition capture (n : nat) (st st' : mstate) : mstate :=
  {| pos := pos st'; rest := rest st'; caps := (n, consumed st st') :: caps st' |}.

Definition or_else {A : Type} (x : option A) (y : option A) : option A :=
  match x with
  | Some _ => x
  | None => y
  end.

(** Greedy repetition of a class: as many characters as possible first,
    one fewer each time the continuation fails. *)
Fixpoint star (cls : ascii -> bool) (i : nat) (s : string) (cs : list (nat * string))
    (k : mstate -> option mstate) : option mstate :=
  match s with
  | String c s' =>
      if cls c
      then or_else (star cls (S i) s' cs k) (k (MState i s cs))
      else k (MState i s cs)
  | EmptyString => k (MState i s cs)
  end.

Fixpoint exec (r : regex) (st : mstate) (k : mstate -> option mstate) : option mstate :=
  match r with
  | Eps => k st
  | Chr cls =>
      match rest st with
      | String c s' => if cls c then k (advance st s') else None
      | EmptyString => None
      end
  | Cat r1 r2 => exec r1 st (fun st' => exec r2 st' k)
  | Alt r1 r2 => or_else (exec r1 st k) (exec r2 st k)
  | Opt r1 => or_else (exec r1 st k) (k st)
  | Star cls => star cls (pos st) (rest st) (caps st) k
  | Plus cls =>
      match rest st with
      | String c s' =>
          if cls c then star cls (S (pos st)) s' (caps st) k else None
      | EmptyString => None
      end
  | Grp n r1 => exec r1 st (fun st' => k (capture n st st'))
  | Bol => if Nat.eqb (pos st) 0 then k st else None
  | Eol => match rest st with EmptyString => k st | _ => None end
  end.

(** The leftmost match: the pattern is tried at index [i], then at each
    later index, the end of the input included. *)
Fixpoint search (r : regex) (i : nat) (s : string) : option (mstate * mstate) :=
  match exec r (start_at i s) Some with
  | Some st' => Some (start_at i s, st')
  | None =>
      match s with
      | String _ s' => search r (S i) s'
      | EmptyString => None
      end
  end.

(** The value of group [n] after a match: its latest capture, or
    [undefined] ([None]) when the group took no part in the match. *)
Fixpoint group (n : nat) (cs : list (nat * string)) : option string :=
  match cs with
  | [] => None
  | (m, t) :: cs' => if Nat.eqb m n then Some t else group n cs'
  end.

(** Modelled from the spec: [String.test] (String.js) is not under src/.
    The spec has it a pattern search ("pattern-search semantics", "a
    contains/matches test") that gives the parts of the match or none: the
    host's [s.match(new RegExp(regex))], which is [null] ([None]) when the
    pattern matches nowhere and else the array of the whole match followed
    by groups 1 to [ngroups]. *)
Definition test (s : string) (r : regex) (ngroups : nat) : option (list (option string)) :=
  match search r 0 s with
  | None => None
  | Some (st, st') =>
      Some (Some (consumed st st') :: map (fun n => group n (caps st')) (seq 1 ngroups))
  end.

(** ** The patterns of Dom.js *)

Module Pattern.
Import Chars.
Local Open Scope regex_scope.

(** Line 119, the pattern of one simple selector.  In the source it reads,
    with [w] for the class of word characters, [q] for the class of the two
    quote characters and the escapes of the string literal removed:
    - start of input, group 1: [w] any number of times, or a star;
    - optionally: [#] and group 2, or a dot and group 3, both groups one
      or more of [w], underscore, dash;
    - optionally: an opening bracket, [q?], group 4 = [w+], [q?],
      optionally (group 5 = an optional star, hat or dollar and then [=];
      [q?]; group 6 = [w] any number of times; [q?]), a closing bracket;
    - end of input. *)
Definition selector : regex :=
  Bol ·
  Grp 1 (Alt (Star word) (Chr (one "*"))) ·
  Opt (Alt (Chr (one "#") · Grp 2 (Plus word_dash))
           (Chr (one ".") · Grp 3 (Plus word_dash))) ·
  Opt (Chr (one "[") · Opt (Chr quote) · Grp 4 (Plus word) · Opt (Chr quote) ·
       Opt (Grp 5 (Opt (Chr star_hat_dollar) · Chr (one "=")) ·
            Opt (Chr quote) · Grp 6 (Star word) · Opt (Chr quote)) ·
       Chr (one "]")) ·
  Eol.

(** Line 246: start of input, [on], one or more word characters. *)
Definition on_key : regex := Bol · Lit "on" · Plus word.

(** Line 247: group 1 = one or more of word character or dash, then
    [event], then end of input. *)
Definition event_key : regex := Grp 1 (Plus word_dash) · Lit "event" · Eol.

(** Lines 286, 288 and 289: the clause value as a pattern, alone, after
    a hat and before a dollar.  A value taken from a selector is made of
    word characters (group 6 of [selector]), and such a pattern source
    denotes the literal text; the statements below about the operators
    are for such values. *)
Definition contains (value : string) : regex := Lit value.
Definition starts (value : string) : regex := Bol · Lit value.
Definition ends (value : string) : regex := Lit value · Eol.

End Pattern.

(** ** JavaScript values of this file *)

(** A string or [undefined]: what a capturing group, [getAttribute] and the
    fields of a selector clause hold. *)
Abbreviation jsval := (option string).

(** [if (v)] : [undefined], [null] and the empty string are falsy. *)
Definition truthy (v : jsval) : bool :=
  match v with
  | Some s => negb (String.eqb s "")
  | None => false
  end.

(** [bits[i]] : [undefined] out of range. *)
Definition item (bits : list jsval) (i : nat) : jsval := mjoin (bits !! i).

(** String concatenation turns [undefined] into its name. *)
Definition to_str (v : jsval) : string := default "undefined" v.

(** [new RegExp(undefined)] is the empty pattern. *)
Definition to_source (v : jsval) : string := default "" v.

(** An array returned by [test] is truthy, [null] is not. *)
Definition matched (bits : option (list jsval)) : bool :=
  match bits with
  | Some _ => true
  | None => false
  end.

(** ** The page

    An element has a tag name, attributes and child elements.  An element
    of the page is referred to by its path from the root element: the
    indexes of the children taken, innermost first, so that the path of the
    parent is the tail.  Two references are the same element exactly when
    the paths are equal. *)

#[warnings="-register-all"]
Inductive dom : Type :=
| Tag (tagName : string) (attributes : list (string * string)) (childNodes : list dom).

Definition tagName (d : dom) : string := let 'Tag t _ _ := d in t.
Definition attributes (d : dom) : list (string * string) := let 'Tag _ a _ := d in a.
Definition childNodes (d : dom) : list dom := let 'Tag _ _ c := d in c.

Definition element : Type := list nat.

(** [this] of a query method: the document or one of its elements. *)
Inductive scope : Type :=
| Document
| Element (e : element).

Fixpoint descend (d : dom) (steps : list nat) : option dom :=
  match steps with
  | [] => Some d
  | i :: steps' =>
      match childNodes d !! i with
      | Some c => descend c steps'
      | None => None
      end
  end.

(** Document order: an element, then the subtrees of its children from
    first to last. *)
Fixpoint walk (p : element) (d : dom) : list (element * dom) :=
  (p, d) ::
  (fix walk_from (i : nat) (cs : list dom) : list (element * dom) :=
     match cs with
     | [] => []
     | c :: cs' => walk (i :: p) c ++ walk_from (S i) cs'
     end) 0 (childNodes d).

Fixpoint walk_children (p : element) (i : nat) (cs : list dom) : list (element * dom) :=
  match cs with
  | [] => []
  | c :: cs' => walk (i :: p) c ++ walk_children p (S i) cs'
  end.

Fixpoint assoc (name : string) (l : list (string * string)) : jsval :=
  match l with
  | [] => None
  | (k, v) :: l' => if String.eqb k name then Some v else assoc name l'
  end.

(** [getElementsByTagName] takes every element for the name [*], and the
    elements whose tag name is the given one otherwise; names are compared
    as the page stores them. *)
Definition tag_matches (tag : string) (d : dom) : bool :=
  String.eqb tag "*" || String.eqb (tagName d) tag.

Section Page.

(** The root element of the document. *)
Variable doc : dom.

Definition node (e : element) : option dom := descend doc (rev e).

(** *** Host primitives

    The browser's own methods, which Dom.js calls and does not define. *)

(** [el.getAttribute(name)], [null] when the element has no such
    attribute. *)
Definition getAttribute (e : element) (name : string) : jsval :=
  d ← node e; assoc name (attributes d).

(** [el.id] and [el.className]: the attribute, or the empty string. *)
Definition id_of (e : element) : string := default "" (getAttribute e "id").
Definition className_of (e : element) : string := default "" (getAttribute e "class").

(** [el.parentNode]: the parent element, the document for the root
    element, [null] for the document. *)
Definition parentNode (n : scope) : option scope :=
  match n with
  | Document => None
  | Element [] => Some Document
  | Element (_ :: p) => Some (Element p)
  end.

(** [n.getElementsByTagName(tag)]: the elements below [n] with that tag
    name, in document order; [n] itself is not among them. *)
Definition getElementsByTagName (n : scope) (tag : string) : list element :=
  match n with
  | Document => (filter (fun x => tag_matches tag x.2) (walk [] doc)).*1
  | Element e =>
      match node e with
      | Some d => (filter (fun x => tag_matches tag x.2) (walk_children e 0 (childNodes d))).*1
      | None => []
      end
  end.

(** [document.getElementById(id)]: the first element, in document order,
    whose [id] attribute is [id]; an empty [id] attribute names no
    element. *)
Definition document_getElementById (id : string) : option element :=
  if String.eqb id "" then None
  else head (filter (fun x => bool_decide (assoc "id" (attributes x.2) = Some id))
                    (walk [] doc)).*1.

(** *** Element.js

    Modelled from the spec: [Element.getTag] and [Element.hasClass]
    (Element.js) are not under src/.  The tag of an element is its tag
    name in lower case; an element carries a class when the name is one
    of the space-separated names of its class list ("exact token match
    among space-separated class list"). *)
Definition getTag (e : element) : string :=
  toLowerCase (default "" (tagName <$> node e)).

Definition hasClass (e : element) (className : string) : bool :=
  bool_decide (className ∈ split " " (className_of e)).

End Page.

(** ** The store

    Arrays of elements are objects: [arrays] holds the element sequence of
    every array created so far, and a reference is an index into it.  The
    rest of the store is what [Elements.action] writes on elements: the
    properties assigned ([el[key] = fn]), the listeners registered with
    [addEvent], oldest first, and the trace of handler calls. *)

(** A function value of the caller, known by its identity only. *)
Definition fn : Type := nat.

Definition ref : Type := nat.

Record world : Type := World {
  arrays : list (list element);
  props : gmap (element * string) fn;
  listeners : list (element * string * fn);
  calls : list (fn * element)
}.

Definition M (A : Type) : Type := world -> A * world.

#[global] Instance M_ret : MRet M := fun A x w => (x, w).
#[global] Instance M_bind : MBind M :=
  fun A B f m w => let (x, w') := m w in f x w'.
#[global] Instance M_fmap : FMap M :=
  fun A B f m w => let (x, w') := m w in (f x, w').

Definition with_arrays (f : list (list element) -> list (list element)) (w : world) : world :=
  {| arrays := f (arrays w); props := props w; listeners := listeners w; calls := calls w |}.

(** [[]], [[el]], [$A(list)]: a new array with the given elements. *)
Definition array_new (l : list element) : M ref :=
  fun w => (length (arrays w), with_arrays (fun h => h ++ [l]) w).

(** The element sequence of an array. *)
Definition array_items (r : ref) : M (list element) :=
  fun w => (default [] (arrays w !! r), w).

(** [r.push(el)] *)
Definition array_push (r : ref) (el : element) : M unit :=
  fun w => (tt, with_arrays (alter (fun l => l ++ [el]) r) w).

Fixpoint for_each {A : Type} (f : A -> M unit) (l : list A) : M unit :=
  match l with
  | [] => mret tt
  | x :: l' => f x;; for_each f l'
  end.

(** Modelled from the spec: [Array.each] and [Array.extend] (Array.js) are
    not under src/.  [each] calls the function on every item in order;
    [extend] pushes every item of the other array, in order and "without
    deduplication".  No callback of this file pushes to the array it
    iterates over, so the items are read once. *)
Definition each (this : ref) (f : element -> M unit) : M unit :=
  l ← array_items this; for_each f l.

Definition extend (this : ref) (other : ref) : M unit :=
  l ← array_items other; for_each (array_push this) l.

(** [el[key] = f] *)
Definition set_prop (el : element) (key : string) (f : fn) : M unit :=
  fun w => (tt, {| arrays := arrays w; props := <[(el, key) := f]> (props w);
                   listeners := listeners w; calls := calls w |}).

(** Modelled from the spec: [Element.addEvent] (Element.js) is not under
    src/; it registers "an additional event listener" that "accumulates,
    does not overwrite". *)
Definition addEvent (el : element) (type : string) (f : fn) : M unit :=
  fun w => (tt, {| arrays := arrays w; props := props w;
                   listeners := listeners w ++ [(el, type, f)]; calls := calls w |}).

(** [f.apply(el)]: the call is recorded; the body of [f] is the caller's. *)
Definition apply (f : fn) (el : element) : M unit :=
  fun w => (tt, {| arrays := arrays w; props := props w;
                   listeners := listeners w; calls := calls w ++ [(f, el)] |}).

(** ** Class Elements (lines 213 to 296) *)

Module Elements.

(** An actions object: its keys in insertion order, each with its
    function. *)
Abbreviation actions_t := (list (string * fn)).

Section Methods.

Variable doc : dom.

Fixpoint property (key : string) (actions : actions_t) : option fn :=
  match actions with
  | [] => None
  | (k, f) :: actions' => if String.eqb k key then Some f else property key actions'
  end.

(** Lines 244 to 248, the body of the loop over the keys. *)
Definition bind_key (el : element) (kf : string * fn) : M unit :=
  let (key, f) := kf in
  if matched (test key Pattern.on_key 0) then set_prop el key f
  else match test key Pattern.event_key 1 with
       | Some evt => addEvent el (to_str (item evt 1)) f
       | None => mret tt
       end.

(** Lines 240 to 250.  [$(el)] of line 242 is the element itself. *)
Definition action (this : ref) (actions : actions_t) : M unit :=
  each this (fun el =>
    match property "initialize" actions with
    | Some f => apply f el
    | None => mret tt
    end;;
    for_each (bind_key el) actions).

(** Lines 254 to 260. *)
Definition filterById (this : ref) (id : string) : M ref :=
  found ← array_new [];
  each this (fun el =>
    if String.eqb (id_of doc el) id then array_push found el else mret tt);;
  mret found.

(** Lines 262 to 268. *)
Definition filterByClassName (this : ref) (className : string) : M ref :=
  found ← array_new [];
  each this (fun el =>
    if hasClass doc el className then array_push found el else mret tt);;
  mret found.

(** Lines 270 to 276.  [$A] copies the host's node list into an array of
    its own. *)
Definition filterByTagName (this : ref) (tagName : string) : M ref :=
  found ← array_new [];
  each this (fun el =>
    copy ← array_new (getElementsByTagName doc (Element el) tagName);
    extend found copy);;
  mret found.

(** Lines 281 to 290, the test of one element: [true] when the element is
    pushed. *)
Definition attribute_passes (el : element) (name : string) (value operator : jsval) : bool :=
  let att := getAttribute doc el name in
  if negb (truthy att) then false
  else if negb (truthy operator) then true
  else
    let att := to_str att in
    let operator := to_str operator in
    if String.eqb operator "*=" then matched (test att (Pattern.contains (to_source value)) 0)
    else if String.eqb operator "=" then bool_decide (Some att = value)
    else if String.eqb operator "^=" then matched (test att (Pattern.starts (to_str value)) 0)
    else if String.eqb operator "$=" then matched (test att (Pattern.ends (to_str value)) 0)
    else false.

(** Lines 278 to 294. *)
Definition filterByAttribute (this : ref) (name : string) (value operator : jsval) : M ref :=
  found ← array_new [];
  each this (fun el =>
    if attribute_passes el name value operator then array_push found el else mret tt);;
  mret found.

End Methods.
End Elements.

(** ** The clause of a simple selector *)

Module Param.

(** [param] of line 122: the six groups of the selector pattern by name. *)
Record t : Type := Make {
  tag : jsval;
  id : jsval;
  class : jsval;
  attribute : jsval;
  operator : jsval;
  value : jsval
}.

(** Modelled from the spec: [Array.remove] and [Array.associate]
    (Array.js) are not under src/.  [bits.remove(bits[0])] leaves the six
    groups, without the whole match that came first, and [associate]
    names them in order: "tag, id, class, attribute, operator, value", the
    fields of the spec's Simple Selector Clause. *)
Definition associate (groups : list jsval) : t :=
  {| tag := item groups 0; id := item groups 1; class := item groups 2;
     attribute := item groups 3; operator := item groups 4; value := item groups 5 |}.

(** Lines 121 and 122. *)
Definition of_bits (bits : list jsval) : t :=
  let bits := if truthy (item bits 1) then bits else <[1 := Some "*"]> bits in
  associate (tail bits).

End Param.

(** ** The query methods of Element and document (lines 100 to 206) *)

Section Query.

Variable doc : dom.

(** Lines 156 to 159, entered with [parent = el.parentNode], which is the
    tail of the path of [el]: [true] when the loop ends on [parent == this],
    [false] when it runs out of parents, the document being the parent of
    the root element and having none itself. *)
Fixpoint below (this : element) (el : element) : bool :=
  match el with
  | [] => false
  | _ :: parent => if decide (parent = this) then true else below this parent
  end.

(** Lines 153 to 160, [Element.getElementById]. *)
Definition Element_getElementById (this : element) (id : string) : option element :=
  match document_getElementById doc id with
  | None => None
  | Some el => if below this el then Some el else None
  end.

(** [this.getElementById(id)] of line 125: the method above on an
    element, the browser's own on the document, which Dom.js "does not
    overwrite". *)
Definition getElementById (this : scope) (id : string) : option element :=
  match this with
  | Document => document_getElementById doc id
  | Element e => Element_getElementById e id
  end.

(** Lines 123 to 134: the candidates after the tag and the id of the
    clause, or [None] for the [return] of line 126. *)
Definition candidates (this : scope) (param : Param.t) (i : nat) (filters : ref)
    : M (option ref) :=
  if Nat.eqb i 0 then
    if truthy (Param.id param) then
      match getElementById this (to_str (Param.id param)) with
      | None => mret None
      | Some el =>
          if negb (bool_decide (Param.tag param = Some "*"))
             && negb (bool_decide (Some (getTag doc el) = Param.tag param))
          then mret None
          else Some <$> array_new [el]
      end
    else Some <$> array_new (getElementsByTagName doc this (to_str (Param.tag param)))
  else
    filters ← Elements.filterByTagName doc filters (to_str (Param.tag param));
    if truthy (Param.id param)
    then Some <$> Elements.filterById doc filters (to_str (Param.id param))
    else mret (Some filters).

(** Lines 118 to 138, the function called on each token [sel] with its
    index [i]; it returns the new value of the variable [filters]. *)
Definition select (this : scope) (sel : string) (i : nat) (filters : ref) : M ref :=
  match test sel Pattern.selector 6 with
  | None => mret filters
  | Some bits =>
      let param := Param.of_bits bits in
      found ← candidates this param i filters;
      match found with
      | None => mret filters
      | Some filters =>
          filters ← (if truthy (Param.class param)
                     then Elements.filterByClassName doc filters (to_str (Param.class param))
                     else mret filters);
          if truthy (Param.attribute param)
          then Elements.filterByAttribute doc filters (to_str (Param.attribute param))
                 (Param.value param) (Param.operator param)
          else mret filters
      end
  end.

Fixpoint each_token (f : string -> nat -> ref -> M ref) (tokens : list string)
    (i : nat) (filters : ref) : M ref :=
  match tokens with
  | [] => mret filters
  | sel :: tokens' => filters' ← f sel i filters; each_token f tokens' (S i) filters'
  end.

(** Lines 116 to 143.  Lines 139 to 142 give the elements and the array
    their methods and leave the sequence as it is. *)
Definition getElements (this : scope) (selector : string) : M ref :=
  filters ← array_new [];
  each_token (select this) (split " " (clean selector)) 0 filters.

(** Lines 178 to 184. *)
Definition getElementsBySelector (this : scope) (selector : string) : M ref :=
  els ← array_new [];
  for_each (fun sel => found ← getElements this sel; extend els found)
           (split "," selector);;
  mret els.

(** Lines 168 to 170: index 0 of the array, [undefined] when it is empty. *)
Definition getElement (this : scope) (selector : string) : M (option element) :=
  els ← getElementsBySelector this selector;
  l ← array_items els;
  mret (l !! 0).

(** *** The global functions (lines 66 to 89) *)

(** What a caller passes as [filter]: nothing, an id, or a node. *)
Inductive arg : Type :=
| Undefined
| Str (s : string)
| Node (n : scope).

(** Modelled from the spec: [$] (Element.js) is not under src/.  It
    returns the element for an element, the element with that id for a
    string, and a falsy value otherwise, so that the scope "defaults to
    document". *)
Definition dollar (a : arg) : option element :=
  match a with
  | Str s => document_getElementById doc s
  | Node (Element e) => Some e
  | Node Document => None
  | Undefined => None
  end.

(** [$(filter) || document] *)
Definition scope_of (filter : arg) : scope :=
  match dollar filter with
  | Some e => Element e
  | None => Document
  end.

(** Lines 66 to 68, [$E]. *)
Definition dollar_E (selector : string) (filter : arg) : M (option element) :=
  getElement (scope_of filter) selector.

(** Lines 87 to 89, [$ES]. *)
Definition dollar_ES (selector : string) (filter : arg) : M ref :=
  getElementsBySelector (scope_of filter) selector.

End Query.

(** ** What the methods compute, without the store

    The element sequences of the arrays that the methods above build, as
    functions of the sequences they read.  The theorems relate each method
    to its function here; the functions themselves are not the model. *)

Module Pure.
Section Pure.

Variable doc : dom.

Definition filterByTagName (l : list element) (tagName : string) : list element :=
  l ≫= (fun el => getElementsByTagName doc (Element el) tagName).

Definition candidates (this : scope) (param : Param.t) (i : nat) (l : list element)
    : option (list element) :=
  if Nat.eqb i 0 then
    if truthy (Param.id param) then
      match getElementById doc this (to_str (Param.id param)) with
      | None => None
      | Some el =>
          if negb (bool_decide (Param.tag param = Some "*"))
             && negb (bool_decide (Some (getTag doc el) = Param.tag param))
          then None
          else Some [el]
      end
    else Some (getElementsByTagName doc this (to_str (Param.tag param)))
  else
    let l := filterByTagName l (to_str (Param.tag param)) in
    if truthy (Param.id param)
    then Some (filter (fun el => String.eqb (id_of doc el) (to_str (Param.id param))) l)
    else Some l.

Definition refine (param : Param.t) (l : list element) : list element :=
  let l := if truthy (Param.class param)
           then filter (fun el => hasClass doc el (to_str (Param.class param))) l
           else l in
  if truthy (Param.attribute param)
  then filter (fun el => Elements.attribute_passes doc el (to_str (Param.attribute param))
                           (Param.value param) (Param.operator param)) l
  else l.

Definition select (this : scope) (sel : string) (i : nat) (l : list element) : list element :=
  match test sel Pattern.selector 6 with
  | None => l
  | Some bits =>
      let param := Param.of_bits bits in
      match candidates this param i l with
      | None => l
      | Some found => refine param found
      end
  end.

Fixpoint each_token (this : scope) (tokens : list string) (i : nat) (l : list element)
    : list element :=
  match tokens with
  | [] => l
  | sel :: tokens' => each_token this tokens' (S i) (select this sel i l)
  end.

Definition getElements (this : scope) (selector : string) : list element :=
  each_token this (split " " (clean selector)) 0 [].

Definition getElementsBySelector (this : scope) (selector : string) : list element :=
  split "," selector ≫= getElements this.

End Pure.
End Pure.

(** ** Vocabulary of the statements *)

(** The element sequence of the array that [m] returns when run in [w]. *)
Definition result_of (m : M ref) (w : world) : list element :=
  default [] (arrays (m w).2 !! (m w).1).

(** [w'] is [w] with some arrays added: no array of [w] has changed, and
    nothing else of the store has. *)
Definition allocates (w w' : world) : Prop :=
  (exists new, arrays w' = arrays w ++ new) /\
  props w' = props w /\ listeners w' = listeners w /\ calls w' = calls w.

(** [m], run in [w], builds a new array with the elements [l] and leaves
    every array of [w] as it was. *)
Definition builds (m : M ref) (w : world) (l : list element) : Prop :=
  (m w).1 = length (arrays w) /\
  (exists more, arrays (m w).2 = arrays w ++ l :: more) /\
  props (m w).2 = props w /\ listeners (m w).2 = listeners w /\ calls (m w).2 = calls w.

(** After a run that started in [w], the reference [rw.1] is to an array
    made during the run, with the elements [l], and the store [rw.2] is [w]
    with some arrays added. *)
Definition holds (w : world) (rw : ref * world) (l : list element) : Prop :=
  allocates w rw.2 /\ length (arrays w) <= rw.1 /\ arrays rw.2 !! rw.1 = Some l.

Definition computes (m : M ref) (w : world) (l : list element) : Prop :=
  holds w (m w) l.

(** Every array of [w] is in [w'] with the same elements. *)
Definition untouched (w w' : world) : Prop :=
  forall r l, arrays w !! r = Some l -> arrays w' !! r = Some l.

(** [m], run in [w], returns an array that [w] does not have and leaves the
    arrays of [w] as they are. *)
Definition newly_built (m : M ref) (w : world) : Prop :=
  arrays w !! (m w).1 = None /\
  is_Some (arrays (m w).2 !! (m w).1) /\
  untouched w (m w).2.

(** The items of an array in [w], none for a reference to no array. *)
Definition items (w : world) (r : ref) : list element := default [] (arrays w !! r).

(** [el] is strictly below [a] in the page: the path of [a] is a proper
    tail of the path of [el]. *)
Definition descendant (a el : element) : Prop :=
  exists steps, steps <> [] /\ el = steps ++ a.

(** The elements that a query on [this] can return: all of them for the
    document, those strictly below for an element. *)
Definition in_scope (this : scope) (el : element) : Prop :=
  match this with
  | Document => True
  | Element a => descendant a el
  end.

(** The spec's words for the three pattern operators. *)
Definition has_substring (att value : string) : Prop :=
  exists before after, att = before +:+ value +:+ after.
Definition has_prefix (att value : string) : Prop :=
  exists after, att = value +:+ after.
Definition has_suffix (att value : string) : Prop :=
  exists before, att = before +:+ value.

(** Every character of [s] is in the class. *)
Fixpoint all_in (cls : ascii -> bool) (s : string) : bool :=
  match s with
  | EmptyString => true
  | String c s' => cls c && all_in cls s'
  end.

(** A clause value as the selector pattern admits it: word characters. *)
Definition word_string (s : string) : bool := all_in Chars.word s.

(** The attribute predicate in the spec's words, with the attribute value
    as [getAttribute] returns it. *)
Definition spec_attribute (att : jsval) (operator : jsval) (value : string) : Prop :=
  match att with
  | None => False
  | Some a =>
      a <> "" /\
      match operator with
      | None => True
      | Some op =>
          if decide (op = "") then True
          else if decide (op = "=") then a = value
          else if decide (op = "*=") then has_substring a value
          else if decide (op = "^=") then has_prefix a value
          else if decide (op = "$=") then has_suffix a value
          else False
      end
  end.

(** What a pattern can match, read off the pattern: [matches r st st'] when
    [r] can take the matcher from [st] to [st'].  [exec] finds its matches
    among these. *)
Inductive matches : regex -> mstate -> mstate -> Prop :=
| m_eps st : matches Eps st st
| m_chr cls st c s' :
    rest st = String c s' -> cls c = true -> matches (Chr cls) st (advance st s')
| m_cat r1 r2 st st1 st2 :
    matches r1 st st1 -> matches r2 st1 st2 -> matches (Cat r1 r2) st st2
| m_alt_l r1 r2 st st' : matches r1 st st' -> matches (Alt r1 r2) st st'
| m_alt_r r1 r2 st st' : matches r2 st st' -> matches (Alt r1 r2) st st'
| m_opt_some r st st' : matches r st st' -> matches (Opt r) st st'
| m_opt_none r st : matches (Opt r) st st
| m_star cls st t s' :
    rest st = t +:+ s' -> all_in cls t = true ->
    matches (Star cls) st (MState (String.length t + pos st) s' (caps st))
| m_plus cls st t s' :
    rest st = t +:+ s' -> all_in cls t = true -> t <> "" ->
    matches (Plus cls) st (MState (String.length t + pos st) s' (caps st))
| m_grp n r st st' : matches r st st' -> matches (Grp n r) st (capture n st st')
| m_bol st : pos st = 0 -> matches Bol st st
| m_eol st : rest st = "" -> matches Eol st st.

(** Whether a pattern has the capturing group [n]. *)
Fixpoint mentions (n : nat) (r : regex) : bool :=
  match r with
  | Cat r1 r2 | Alt r1 r2 => mentions n r1 || mentions n r2
  | Opt r1 => mentions n r1
  | Grp m r1 => Nat.eqb m n || mentions n r1
  | _ => false
  end.

(** The operators of the selector pattern. *)
Definition is_operator (op : string) : Prop :=
  op = "=" \/ op = "*=" \/ op = "^=" \/ op = "$=".

(** The value of a clause goes with its operator: when the clause has an
    operator, the value is a string of word characters. *)
Definition clause_value (operator value : jsval) : Prop :=
  truthy operator = true -> exists v, value = Some v /\ word_string v = true.

(** The listeners that one key of an actions object registers on [el]. *)
Definition listener_of (el : element) (kf : string * fn) : list (element * string * fn) :=
  if matched (test kf.1 Pattern.on_key 0) then []
  else match test kf.1 Pattern.event_key 1 with
       | Some evt => [(el, to_str (item evt 1), kf.2)]
       | None => []
       end.

(** The property that one key of an actions object assigns. *)
Definition assigned (kf : string * fn) : bool := matched (test kf.1 Pattern.on_key 0).

(** The properties after one key, after all keys, of an actions object
    have been applied to [el]. *)
Definition assign (el : element) (p : gmap (element * string) fn) (kf : string * fn)
    : gmap (element * string) fn :=
  if assigned kf then <[(el, kf.1) := kf.2]> p else p.

Definition assign_all (actions : Elements.actions_t) (p : gmap (element * string) fn)
    (el : element) : gmap (element * string) fn :=
  foldl (assign el) p actions.

(** The calls of the [initialize] handler on the elements [l]. *)
Definition init_calls (actions : Elements.actions_t) (l : list element)
    : list (fn * element) :=
  match Elements.property "initialize" actions with
  | Some f => map (fun el => (f, el)) l
  | None => []
  end.

(** The page of the examples: two [div], the first with id [a] around two
    [p], the second [p] around a [div]; the other [div] around two [a]. *)
Definition page : dom :=
  Tag "html" [] [Tag "body" [] [
    Tag "div" [("id", "a")]
      [Tag "p" [("class", "x y")] []; Tag "p" [] [Tag "div" [] []]];
    Tag "div" [("class", "y")]
      [Tag "a" [("href", "httpx")] []; Tag "a" [("href", ""); ("name", "q")] []]]].

Definition empty_world : world :=
  {| arrays := []; props := ∅; listeners := []; calls := [] |}.

(** A store with one array: the two [a] elements of [page]. *)
Definition anchors_world : world :=
  {| arrays := [[[0; 1; 0]; [1; 1; 0]]]; props := ∅; listeners := []; calls := [] |}.

(** A store with one array: the three [div] elements of [page], as the
    selector [div] finds them. *)
Definition divs_world : world :=
  {| arrays := [[[0; 0]; [0; 1; 0; 0]; [1; 0]]]; props := ∅; listeners := []; calls := [] |}.

(** ** The other entry points *)

Section Entry.

Variable doc : dom.

(** Lines 34 to 41, [$S]; [$$] of line 49 is the same function.  Modelled
    from the spec: [$type] (Moo.js) is not under src/.  The arguments are
    "any mix of selector strings and element references": a string has the
    type string and an element of the page the type element; the document
    and a missing argument have neither, and are passed over.  [$(sel)] of
    line 38 is the element itself. *)
Definition dollar_S (args : list arg) : M ref :=
  els ← array_new [];
  for_each (fun sel =>
              match sel with
              | Str s => found ← getElementsBySelector doc Document s; extend els found
              | Node (Element e) => array_push els e
              | Node Document => mret tt
              | Undefined => mret tt
              end) args;;
  mret els.

(** Lines 199 to 201, [document.getElementsByClassName]. *)
Definition document_getElementsByClassName (className : string) : M ref :=
  getElements doc Document ("." +:+ className).

End Entry.

(** What one argument of [$S] adds to the result. *)
Definition selected (doc : dom) (sel : arg) : list element :=
  match sel with
  | Str s => Pure.getElementsBySelector doc Document s
  | Node (Element e) => [e]
  | Node Document => []
  | Undefined => []
  end.


(** Whether a greedy repetition of the class stops at the head of [s]. *)
Definition stops (cls : ascii -> bool) (s : string) : bool :=
  match s with
  | EmptyString => true
  | String c _ => negb (cls c)
  end.

(** No character of [s] is whitespace. *)
Definition no_space (s : string) : bool := all_in (fun c => negb (Chars.space c)) s.

(** A name as group 2 and group 3 of the selector pattern take it: one or
    more word characters or dashes. *)
Definition is_name (s : string) : bool :=
  negb (String.eqb s "") && all_in Chars.word_dash s.

(** A tag as group 1 of the selector pattern takes it, the star apart: one
    or more word characters. *)
Definition is_tag (s : string) : bool :=
  negb (String.eqb s "") && word_string s.

(** ** Tokens, written out

    The tokens that the selector pattern is meant for, without quotes: a
    tag (a word, the star, or nothing), then nothing, [#id] or [.class],
    then nothing, [[attribute]] or [[attribute operator value]]. *)

Inductive name_part : Type :=
| NoName
| IdName (id : string)
| ClassName (className : string).

Inductive attr_part : Type :=
| NoAttr
| HasAttr (attribute : string)
| AttrOp (attribute operator value : string).

Definition show_name (n : name_part) : string :=
  match n with
  | NoName => ""
  | IdName id => String "#" id
  | ClassName c => String "." c
  end.

Definition show_attr (a : attr_part) : string :=
  match a with
  | NoAttr => ""
  | HasAttr attribute => String "[" (attribute +:+ "]")
  | AttrOp attribute operator value =>
      String "[" (attribute +:+ operator +:+ value +:+ "]")
  end.

Definition token (tag : string) (n : name_part) (a : attr_part) : string :=
  tag +:+ show_name n +:+ show_attr a.

Definition operator_ok (op : string) : bool :=
  String.eqb op "=" || String.eqb op "*=" || String.eqb op "^=" || String.eqb op "$=".

Definition token_ok (tag : string) (n : name_part) (a : attr_part) : bool :=
  (word_string tag || String.eqb tag "*")
  && match n with
     | NoName => true
     | IdName x | ClassName x => is_name x
     end
  && match a with
     | NoAttr => true
     | HasAttr attribute => is_tag attribute
     | AttrOp attribute operator value =>
         is_tag attribute && operator_ok operator && word_string value
     end.

(** Line 121: a token without tag stands for the tag [*]. *)
Definition tag_of (tag : string) : string := if String.eqb tag "" then "*" else tag.

(** The clause that the token stands for. *)
Definition clause (tag : string) (n : name_part) (a : attr_part) : Param.t :=
  {| Param.tag := Some (tag_of tag);
     Param.id := match n with IdName id => Some id | _ => None end;
     Param.class := match n with ClassName c => Some c | _ => None end;
     Param.attribute := match a with
                        | NoAttr => None
                        | HasAttr attribute | AttrOp attribute _ _ => Some attribute
                        end;
     Param.operator := match a with AttrOp _ operator _ => Some operator | _ => None end;
     Param.value := match a with AttrOp _ _ value => Some value | _ => None end |}.

(** What the clause of a token asks of an element: its class (line 135)
    and its attribute (line 136). *)
Definition class_ok (doc : dom) (n : name_part) (el : element) : bool :=
  match n with
  | ClassName c => hasClass doc el c
  | _ => true
  end.

Definition attr_ok (doc : dom) (a : attr_part) (el : element) : bool :=
  match a with
  | NoAttr => true
  | HasAttr x => Elements.attribute_passes doc el x None None
  | AttrOp x op v => Elements.attribute_passes doc el x (Some v) (Some op)
  end.

(** The elements that the first token starts from (lines 124 to 130): the
    element with the id, when it is in the scope and has the tag, or the
    elements of the scope with the tag. *)
Definition first_candidates (doc : dom) (this : scope) (tag : string) (n : name_part)
    : list element :=
  match n with
  | IdName id =>
      match getElementById doc this id with
      | Some el =>
          if String.eqb (tag_of tag) "*" || String.eqb (getTag doc el) (tag_of tag)
          then [el] else []
      | None => []
      end
  | _ => getElementsByTagName doc this (tag_of tag)
  end.

(** The elements that a later token starts from (lines 132 and 133): the
    elements with the tag below each of [l], of which those with the id. *)
Definition later_candidates (doc : dom) (l : list element) (tag : string) (n : name_part)
    : list element :=
  let below := l ≫= (fun x => getElementsByTagName doc (Element x) (tag_of tag)) in
  match n with
  | IdName id => filter (fun el => String.eqb (id_of doc el) id) below
  | _ => below
  end.

(** The four parts of the selector pattern of line 119, between the start
    and the end of the input. *)
Abbreviation tag_re := (Grp 1 (Alt (Star Chars.word) (Chr (Chars.one "*")))).

Abbreviation name_re :=
  (Opt (Alt (Cat (Chr (Chars.one "#")) (Grp 2 (Plus Chars.word_dash)))
            (Cat (Chr (Chars.one ".")) (Grp 3 (Plus Chars.word_dash))))).

Abbreviation op_re :=
  (Grp 5 (Cat (Opt (Chr Chars.star_hat_dollar)) (Chr (Chars.one "=")))).

Abbreviation attr_re :=
  (Opt (Cat (Chr (Chars.one "["))
       (Cat (Opt (Chr Chars.quote))
       (Cat (Grp 4 (Plus Chars.word))
       (Cat (Opt (Chr Chars.quote))
       (Cat (Opt (Cat op_re
                 (Cat (Opt (Chr Chars.quote))
                 (Cat (Grp 6 (Star Chars.word)) (Opt (Chr Chars.quote))))))
            (Chr (Chars.one "]")))))))).

(** * Properties *)

(** ** The store and the loops *)

Section Store.

Implicit Types (w : world) (r this : ref) (l : list element).

Lemma with_arrays_id w f :
  f (arrays w) = arrays w -> with_arrays f w = w.
Proof. destruct w as [h p ls c]; unfold with_arrays; simpl. by intros ->. Qed.

Lemma run_bind {A B} (m : M A) (f : A -> M B) w :
  (m ≫= f) w = f (m w).1 (m w).2.
Proof. unfold mbind, M_bind. by destruct (m w). Qed.

Lemma run_fmap {A B} (m : M A) (f : A -> B) w :
  (f <$> m) w = (f (m w).1, (m w).2).
Proof. unfold fmap, M_fmap. by destruct (m w). Qed.

Lemma run_ret {A} (x : A) w : (mret x : M A) w = (x, w).
Proof. reflexivity. Qed.

Lemma for_each_cons {A} (f : A -> M unit) x (xs : list A) w :
  for_each f (x :: xs) w = for_each f xs (f x w).2.
Proof. simpl. by rewrite run_bind. Qed.

(** A loop that pushes the items that pass a test appends them, in
    order, to the array it pushes to. *)
Lemma for_each_push_if (P : element -> bool) r l w :
  for_each (fun el => if P el then array_push r el else mret tt) l w
  = (tt, with_arrays (alter (fun l0 => l0 ++ filter P l) r) w).
Proof.
  revert w. induction l as [|el l IH]; intros w.
  - simpl. rewrite run_ret. f_equal. symmetry. apply with_arrays_id.
    apply list_alter_id. intros x. by rewrite app_nil_r.
  - rewrite for_each_cons, IH. f_equal. rewrite filter_cons.
    destruct (P el); simpl.
    + unfold with_arrays; simpl. f_equal.
      rewrite list_alter_alter_eq. apply list_alter_ext; [|done].
      intros x _. simpl. by rewrite <- app_assoc.
    + done.
Qed.

Lemma for_each_push r l w :
  for_each (array_push r) l w = (tt, with_arrays (alter (fun l0 => l0 ++ l) r) w).
Proof.
  revert w. induction l as [|el l IH]; intros w.
  - simpl. rewrite run_ret. f_equal. symmetry. apply with_arrays_id.
    apply list_alter_id. intros x. by rewrite app_nil_r.
  - rewrite for_each_cons, IH. f_equal. unfold with_arrays; simpl. f_equal.
    rewrite list_alter_alter_eq. apply list_alter_ext; [|done].
    intros x _. simpl. by rewrite <- app_assoc.
Qed.

Lemma extend_run this other w :
  extend this other w
  = (tt, with_arrays (alter (fun l0 => l0 ++ items w other) this) w).
Proof.
  unfold extend. rewrite run_bind. unfold array_items. simpl.
  by rewrite for_each_push.
Qed.

Lemma items_new w this l0 :
  default [] ((arrays w ++ [l0]) !! this) = if decide (this = length (arrays w)) then l0 else items w this.
Proof.
  unfold items. case_decide as E.
  - subst. by rewrite list_lookup_middle.
  - destruct (decide (this < length (arrays w))).
    + by rewrite lookup_app_l.
    + rewrite !lookup_ge_None_2; [done|lia|rewrite length_app; simpl; lia].
Qed.

Lemma items_fresh w r : length (arrays w) <= r -> items w r = [].
Proof. intros. unfold items. by rewrite lookup_ge_None_2. Qed.

(** The shape shared by [filterById], [filterByClassName] and
    [filterByAttribute]: a new array, then one pass over the receiver. *)
Lemma filter_loop_builds (P : element -> bool) this w :
  builds (found ← array_new [];
          each this (fun el => if P el then array_push found el else mret tt);;
          mret found)
         w (filter P (items w this)).
Proof.
  unfold builds. rewrite run_bind. unfold array_new at 1 2. simpl.
  rewrite run_bind. unfold each. rewrite run_bind. unfold array_items at 1 2. simpl.
  rewrite for_each_push_if. simpl. rewrite items_new.
  assert (E : filter P (if decide (this = length (arrays w)) then [] else items w this)
              = filter P (items w this)).
  { case_decide; [|done]. subst. by rewrite items_fresh. }
  rewrite E. split; [done|]. split; [|done].
  exists []. replace (length (arrays w)) with (length (arrays w) + 0) by lia.
  by rewrite alter_app_r.
Qed.

End Store.

(** ** The filters of class Elements *)

Section Filters.

Variable doc : dom.
Implicit Types (w : world) (r this : ref) (l : list element).

Lemma filterById_builds this id w :
  builds (Elements.filterById doc this id) w
         (filter (fun el => String.eqb (id_of doc el) id) (items w this)).
Proof. apply (filter_loop_builds (fun el => String.eqb (id_of doc el) id)). Qed.

Lemma filterByClassName_builds this className w :
  builds (Elements.filterByClassName doc this className) w
         (filter (fun el => hasClass doc el className) (items w this)).
Proof. apply (filter_loop_builds (fun el => hasClass doc el className)). Qed.

Lemma filterByAttribute_builds this name value operator w :
  builds (Elements.filterByAttribute doc this name value operator) w
         (filter (fun el => Elements.attribute_passes doc el name value operator)
                 (items w this)).
Proof.
  apply (filter_loop_builds
           (fun el => Elements.attribute_passes doc el name value operator)).
Qed.

(** The loop of [filterByTagName]: each round adds a copy of the host's
    list at the end of the store and appends its items to [found]. *)
Lemma tag_loop (g : element -> list element) l h acc temps w :
  arrays w = h ++ acc :: temps ->
  for_each (fun el => copy ← array_new (g el); extend (length h) copy) l w
  = (tt, with_arrays (fun _ => h ++ (acc ++ (l ≫= g)) :: (temps ++ map g l)) w).
Proof.
  revert acc temps w. induction l as [|el l IH]; intros acc temps w Hw.
  - simpl. rewrite run_ret. f_equal. symmetry. apply with_arrays_id.
    by rewrite !app_nil_r.
  - rewrite for_each_cons.
    assert (Hstep : ((copy ← array_new (g el); extend (length h) copy) w).2
                    = with_arrays (fun _ => h ++ (acc ++ g el) :: (temps ++ [g el])) w).
    { rewrite run_bind. unfold array_new at 1 2. simpl. unfold extend.
      rewrite run_bind. unfold array_items at 1 2. simpl.
      rewrite list_lookup_middle by done. simpl.
      rewrite for_each_push. simpl. unfold with_arrays; simpl. f_equal.
      rewrite Hw. rewrite <- app_assoc. simpl.
      replace (length h) with (length h + 0) at 1 by lia.
      by rewrite alter_app_r. }
    rewrite Hstep. erewrite IH by (simpl; reflexivity).
    f_equal. unfold with_arrays; simpl. f_equal.
    by rewrite <- !app_assoc.
Qed.

Lemma filterByTagName_builds this tagName w :
  builds (Elements.filterByTagName doc this tagName) w
         (Pure.filterByTagName doc (items w this) tagName).
Proof.
  unfold builds, Elements.filterByTagName. rewrite run_bind.
  unfold array_new at 1 2. simpl. rewrite run_bind. unfold each.
  rewrite run_bind. unfold array_items at 1 2. simpl.
  rewrite items_new.
  rewrite (tag_loop (fun el => getElementsByTagName doc (Element el) tagName)
             _ (arrays w) [] []) by done.
  simpl. split; [done|]. split; [|done].
  eexists. f_equal. f_equal. unfold Pure.filterByTagName.
  case_decide; [|done]. subst. by rewrite items_fresh.
Qed.

End Filters.

(** ** The query methods *)

Section QueryLemmas.

Variable doc : dom.
Implicit Types (w : world) (r : ref) (this : scope) (l : list element).

Lemma allocates_trans w1 w2 w3 : allocates w1 w2 -> allocates w2 w3 -> allocates w1 w3.
Proof.
  intros ([n1 E1] & ? & ? & ?) ([n2 E2] & ? & ? & ?).
  split; [|repeat split; congruence].
  exists (n1 ++ n2). by rewrite E2, E1, app_assoc.
Qed.

Lemma allocates_length w w' : allocates w w' -> length (arrays w) <= length (arrays w').
Proof. intros ([n H] & _). rewrite H, length_app. lia. Qed.

Lemma allocates_lookup w w' r l :
  allocates w w' -> arrays w !! r = Some l -> arrays w' !! r = Some l.
Proof. intros ([n H] & _) Hl. rewrite H. by apply lookup_app_l_Some. Qed.

Lemma builds_allocates (m : M ref) w l : builds m w l -> allocates w (m w).2.
Proof. intros (_ & [more H] & ? & ? & ?). split; [|done]. by exists (l :: more). Qed.

Lemma builds_lookup (m : M ref) w l : builds m w l -> arrays (m w).2 !! (m w).1 = Some l.
Proof. intros (-> & [more ->] & _). by rewrite list_lookup_middle. Qed.

Lemma array_new_builds l w : builds (array_new l) w l.
Proof. split; [done|]. split; [by exists []|done]. Qed.

Lemma holds_builds (m : M ref) w l : builds m w l -> holds w (m w) l.
Proof.
  intros H. split; [by eapply builds_allocates|].
  split; [|by apply builds_lookup]. destruct H as (-> & _). done.
Qed.

Lemma holds_then (m : M ref) w0 w l :
  allocates w0 w -> builds m w l -> holds w0 (m w) l.
Proof.
  intros Ha Hb. pose proof (holds_builds _ _ _ Hb) as (? & ? & ?).
  split; [by eapply allocates_trans|]. split; [|done].
  apply allocates_length in Ha. lia.
Qed.

Lemma holds_items w0 r w l : holds w0 (r, w) l -> items w r = l.
Proof. intros (_ & _ & H). simpl in H. unfold items. by rewrite H. Qed.

Lemma lookup_items w r l : arrays w !! r = Some l -> items w r = l.
Proof. intros H. unfold items. by rewrite H. Qed.

(** Lines 123 to 134 against their function. *)
Lemma candidates_spec this param i filters w cur :
  arrays w !! filters = Some cur ->
  match Pure.candidates doc this param i cur with
  | None => candidates doc this param i filters w = (None, w)
  | Some l =>
      exists r, (candidates doc this param i filters w).1 = Some r /\
                holds w (r, (candidates doc this param i filters w).2) l
  end.
Proof.
  intros Hcur. unfold Pure.candidates, candidates.
  destruct (Nat.eqb i 0).
  - destruct (truthy (Param.id param)).
    + destruct (getElementById doc this _) as [el|]; [|done].
      destruct (_ && _); [done|].
      rewrite run_fmap. eexists. split; [done|]. simpl.
      apply (holds_builds (array_new [el])), array_new_builds.
    + rewrite run_fmap. eexists. split; [done|]. simpl.
      apply (holds_builds (array_new _)), array_new_builds.
  - rewrite run_bind.
    pose proof (filterByTagName_builds doc filters (to_str (Param.tag param)) w) as Hb.
    rewrite (lookup_items _ _ _ Hcur) in Hb.
    destruct (truthy (Param.id param)).
    + rewrite run_fmap. eexists. split; [done|]. simpl.
      pose proof (filterById_builds doc
                    (Elements.filterByTagName doc filters (to_str (Param.tag param)) w).1
                    (to_str (Param.id param))
                    (Elements.filterByTagName doc filters (to_str (Param.tag param)) w).2) as Hb2.
      rewrite (lookup_items _ _ _ (builds_lookup _ _ _ Hb)) in Hb2.
      eapply holds_then in Hb2; [|by eapply builds_allocates].
      by destruct (Elements.filterById _ _ _ _).
    + rewrite run_ret. eexists. split; [done|]. simpl.
      apply holds_builds in Hb.
      by destruct (Elements.filterByTagName _ _ _ _).
Qed.

(** Lines 135 and 136 against their function. *)
Lemma refine_spec param w0 r w l :
  holds w0 (r, w) l ->
  holds w0
    ((filters ← (if truthy (Param.class param)
                 then Elements.filterByClassName doc r (to_str (Param.class param))
                 else mret r);
      if truthy (Param.attribute param)
      then Elements.filterByAttribute doc filters (to_str (Param.attribute param))
             (Param.value param) (Param.operator param)
      else mret filters) w)
    (Pure.refine doc param l).
Proof.
  intros H. rewrite run_bind. unfold Pure.refine.
  set (m1 := if truthy (Param.class param)
             then Elements.filterByClassName doc r (to_str (Param.class param))
             else mret r).
  set (l1 := if truthy (Param.class param)
             then filter (fun el => hasClass doc el (to_str (Param.class param))) l
             else l).
  assert (H1 : holds w0 (m1 w) l1).
  { subst m1 l1. destruct (truthy (Param.class param)); [|done].
    pose proof (filterByClassName_builds doc r (to_str (Param.class param)) w) as Hb.
    rewrite (holds_items _ _ _ _ H) in Hb.
    eapply holds_then; [|done]. by destruct H. }
  destruct (m1 w) as [r1 w1]. simpl.
  destruct (truthy (Param.attribute param)); [|done].
  pose proof (filterByAttribute_builds doc r1 (to_str (Param.attribute param))
                (Param.value param) (Param.operator param) w1) as Hb.
  rewrite (holds_items _ _ _ _ H1) in Hb.
  eapply holds_then; [|done]. by destruct H1.
Qed.

Lemma holds_weaken w0 w rw l : allocates w0 w -> holds w rw l -> holds w0 rw l.
Proof.
  intros Ha (Hb & Hr & Hl). split; [by eapply allocates_trans|]. split; [|done].
  apply allocates_length in Ha. lia.
Qed.

(** The callback of line 118 against its function. *)
Lemma select_spec this sel i w0 filters w cur :
  holds w0 (filters, w) cur ->
  holds w0 (select doc this sel i filters w) (Pure.select doc this sel i cur).
Proof.
  intros H. unfold select, Pure.select.
  destruct (test sel Pattern.selector 6) as [bits|]; [|done].
  rewrite run_bind.
  pose proof (candidates_spec this (Param.of_bits bits) i filters w cur) as Hc.
  destruct H as (Ha & Hr & Hl). specialize (Hc Hl).
  destruct (Pure.candidates doc this (Param.of_bits bits) i cur) as [l|].
  - destruct Hc as (r & Hr1 & Hh).
    destruct (candidates doc this (Param.of_bits bits) i filters w) as [o w1].
    simpl in Hr1, Hh. subst o.
    apply (refine_spec (Param.of_bits bits) w0 r w1 l). by eapply holds_weaken.
  - rewrite Hc. simpl. rewrite run_ret. by split_and!.
Qed.

Lemma each_token_spec this tokens i w0 filters w cur :
  holds w0 (filters, w) cur ->
  holds w0 (each_token (select doc this) tokens i filters w)
           (Pure.each_token doc this tokens i cur).
Proof.
  revert i filters w cur. induction tokens as [|sel tokens IH]; intros i filters w cur H.
  - done.
  - simpl. rewrite run_bind. apply IH.
    apply (select_spec this sel i) in H.
    by destruct (select doc this sel i filters w).
Qed.

Theorem getElements_computes this selector w :
  computes (getElements doc this selector) w (Pure.getElements doc this selector).
Proof.
  unfold computes, getElements. rewrite run_bind.
  apply each_token_spec.
  pose proof (holds_builds _ _ _ (array_new_builds [] w)) as H.
  by destruct (array_new [] w).
Qed.

(** The loop of lines 180 to 182. *)
Lemma selector_loop this sels h acc temps w :
  arrays w = h ++ acc :: temps ->
  exists temps',
    let w' := (for_each (fun sel => found ← getElements doc this sel; extend (length h) found)
                        sels w).2 in
    arrays w' = h ++ (acc ++ (sels ≫= Pure.getElements doc this)) :: temps' /\
    props w' = props w /\ listeners w' = listeners w /\ calls w' = calls w.
Proof.
  revert acc temps w. induction sels as [|sel sels IH]; intros acc temps w Hw.
  - exists temps. simpl. by rewrite app_nil_r.
  - rewrite for_each_cons.
    pose proof (getElements_computes this sel w) as (Ha & Hr & Hl).
    destruct Ha as ([new Hn] & Hp & Hls & Hc).
    set (step := (found ← getElements doc this sel; extend (length h) found) w).
    assert (Hstep : step.2 = with_arrays
              (alter (fun l0 => l0 ++ Pure.getElements doc this sel) (length h))
              (getElements doc this sel w).2).
    { subst step. rewrite run_bind, extend_run. simpl. unfold items. by rewrite Hl. }
    assert (Hw2 : arrays step.2
                  = h ++ (acc ++ Pure.getElements doc this sel) :: (temps ++ new)).
    { rewrite Hstep. simpl. rewrite Hn, Hw, <- app_assoc. simpl.
      replace (length h) with (length h + 0) at 1 by lia.
      by rewrite alter_app_r. }
    destruct (IH _ _ _ Hw2) as (temps' & E & E1 & E2 & E3).
    exists temps'. cbv zeta. rewrite E, E1, E2, E3, Hstep. simpl.
    rewrite <- app_assoc. by split_and!.
Qed.

Theorem getElementsBySelector_builds this selector w :
  builds (getElementsBySelector doc this selector) w
         (Pure.getElementsBySelector doc this selector).
Proof.
  unfold builds, getElementsBySelector. rewrite run_bind.
  unfold array_new at 1 2. simpl. rewrite run_bind. simpl.
  destruct (selector_loop this (split "," selector) (arrays w) [] []
              (with_arrays (fun h => h ++ [[]]) w) eq_refl)
    as (temps' & E & ? & ? & ?).
  simpl in *. split; [done|]. split; [|done]. by exists temps'.
Qed.

End QueryLemmas.

(** ** The page: paths and document order *)

Section PageLemmas.

Lemma dom_rect_children (P : dom -> Prop) :
  (forall t a cs, Forall P cs -> P (Tag t a cs)) -> forall d, P d.
Proof.
  intros H. fix IH 1. intros [t a cs]. apply H.
  induction cs as [|c cs IHcs]; constructor; [apply IH|apply IHcs].
Qed.

Lemma walk_unfold p d : walk p d = (p, d) :: walk_children p 0 (childNodes d).
Proof.
  destruct d as [t a cs]. simpl. f_equal.
  generalize 0. induction cs as [|c cs IH]; intros i; simpl; [done|].
  by rewrite IH.
Qed.

Lemma walk_children_elem p i cs x :
  x ∈ walk_children p i cs <->
  exists j c, cs !! j = Some c /\ x ∈ walk ((i + j) :: p) c.
Proof.
  revert i. induction cs as [|c cs IH]; intros i; simpl.
  - split; [by intros ?%elem_of_nil|]. by intros (j & c & ? & _).
  - rewrite elem_of_app, IH. split.
    + intros [H|(j & c' & Hj & H)].
      * exists 0, c. by rewrite Nat.add_0_r.
      * exists (S j), c'. by rewrite Nat.add_succ_r.
    + intros ([|j] & c' & Hj & H); simpl in Hj.
      * left. injection Hj as ->. by rewrite Nat.add_0_r in H.
      * right. exists j, c'. by rewrite Nat.add_succ_r in H.
Qed.

(** The walk of a subtree visits exactly the elements of that subtree,
    each under the path that leads to it. *)
Lemma walk_elem d : forall p q d',
  (q, d') ∈ walk p d <-> exists fw, q = rev fw ++ p /\ descend d fw = Some d'.
Proof.
  induction d as [t a cs IH] using dom_rect_children. intros p q d'.
  rewrite walk_unfold, elem_of_cons, walk_children_elem. simpl. split.
  - intros [E|(j & c & Hj & H)].
    + injection E as -> ->. by exists [].
    + apply (Forall_lookup_1 _ _ _ _ IH Hj) in H.
      destruct H as (fw & -> & Hd). exists (j :: fw). simpl.
      rewrite Hj. split; [|done]. by rewrite <- app_assoc.
  - intros ([|j fw] & -> & Hd); simpl in Hd.
    + left. by injection Hd as <-.
    + right. destruct (cs !! j) as [c|] eqn:Hj; [|done].
      exists j, c. split; [done|].
      apply (Forall_lookup_1 _ _ _ _ IH Hj).
      exists fw. split; [|done]. simpl. by rewrite <- app_assoc.
Qed.

Lemma descend_app d xs ys :
  descend d (xs ++ ys) = descend d xs ≫= fun d' => descend d' ys.
Proof.
  revert d. induction xs as [|x xs IH]; intros d; simpl; [done|].
  destruct (childNodes d !! x); [apply IH|done].
Qed.

Variable doc : dom.

(** The document's own list: every element of the page with that tag. *)
Lemma getElementsByTagName_document tag e :
  e ∈ getElementsByTagName doc Document tag <->
  exists d, node doc e = Some d /\ tag_matches tag d.
Proof.
  unfold getElementsByTagName, node. rewrite list_elem_of_fmap. split.
  - intros ([q d] & -> & (Hm & Hw)%list_elem_of_filter). simpl in *.
    apply walk_elem in Hw as (fw & -> & Hd). exists d.
    by rewrite app_nil_r, rev_involutive.
  - intros (d & Hd & Hm). exists (e, d). split; [done|].
    apply list_elem_of_filter. split; [done|].
    apply walk_elem. exists (rev e). by rewrite rev_involutive, app_nil_r.
Qed.

(** An element's list: the elements strictly below it with that tag. *)
Lemma getElementsByTagName_element tag a e :
  e ∈ getElementsByTagName doc (Element a) tag <->
  descendant a e /\ exists d, node doc e = Some d /\ tag_matches tag d.
Proof.
  unfold getElementsByTagName, node, descendant. split.
  - destruct (descend doc (rev a)) as [da|] eqn:Ha; [|by intros ?%elem_of_nil].
    rewrite list_elem_of_fmap.
    intros ([q d] & -> & (Hm & Hw)%list_elem_of_filter). simpl in *.
    apply walk_children_elem in Hw as (j & c & Hj & Hw). simpl in Hw.
    apply walk_elem in Hw as (fw & -> & Hd). split.
    + exists (rev fw ++ [j]). split; [by destruct (rev fw)|].
      by rewrite <- app_assoc.
    + exists d. split; [|done].
      rewrite rev_app_distr, rev_involutive. simpl.
      rewrite <- app_assoc, descend_app, Ha. simpl. by rewrite Hj.
  - intros ((steps & Hne & ->) & d & Hd & Hm).
    rewrite rev_app_distr, descend_app in Hd.
    destruct (descend doc (rev a)) as [da|]; [|done]. simpl in Hd.
    destruct (rev steps) as [|j fw] eqn:Hs.
    { apply (f_equal (@rev nat)) in Hs. rewrite rev_involutive in Hs. done. }
    simpl in Hd. destruct (childNodes da !! j) as [c|] eqn:Hj; [|done].
    rewrite list_elem_of_fmap. exists (steps ++ a, d). split; [done|].
    apply list_elem_of_filter. split; [done|].
    apply walk_children_elem. exists j, c. split; [done|]. simpl.
    apply walk_elem. exists fw. split; [|done].
    apply (f_equal (@rev nat)) in Hs. rewrite rev_involutive in Hs. subst steps.
    simpl. by rewrite <- app_assoc.
Qed.

Lemma descendant_irrefl a : ~ descendant a a.
Proof.
  intros (steps & Hne & E). apply (f_equal length) in E.
  rewrite length_app in E. destruct steps; [done|]. simpl in E. lia.
Qed.

(** One round of the loop of lines 156 to 159. *)
Lemma below_parentNode this el :
  below this el
  = match parentNode (Element el) with
    | Some (Element parent) => if decide (parent = this) then true else below this parent
    | _ => false
    end.
Proof. by destruct el. Qed.

Lemma descendant_below this el : below this el = true <-> descendant this el.
Proof.
  induction el as [|i parent IH]; simpl.
  - split; [done|]. intros (steps & Hne & E). by destruct steps.
  - case_decide as E.
    + subst. split; [|done]. intros _. by exists [i].
    + rewrite IH. split.
      * intros (steps & Hne & ->). by exists (i :: steps).
      * intros ([|j steps] & Hne & E'); [done|]. injection E' as -> ->.
        exists steps. split; [|done]. by intros ->.
Qed.

End PageLemmas.

(** ** Literal patterns *)

Section Literal.

Implicit Types (v s att : string) (k : mstate -> option mstate).

Lemma append_cons c a b : String c a +:+ b = String c (a +:+ b).
Proof. reflexivity. Qed.

Lemma append_nil_r v : v +:+ "" = v.
Proof. induction v as [|c v IH]; [done|]. by rewrite append_cons, IH. Qed.

Lemma length_append a b :
  String.length (a +:+ b) = String.length a + String.length b.
Proof. induction a as [|c a IH]; [done|]. rewrite append_cons. simpl. by rewrite IH. Qed.

Lemma Lit_cases v s : (exists s', s = v +:+ s') \/ (forall s', s <> v +:+ s').
Proof.
  revert s. induction v as [|c v IH]; intros s.
  - left. by exists s.
  - destruct s as [|c' s]; [by right|].
    destruct (decide (c' = c)) as [->|Hc].
    + destruct (IH s) as [[s' ->]|Hn].
      * left. by exists s'.
      * right. intros s' E. injection E as E. by eapply Hn.
    + right. intros s' E. by injection E.
Qed.

Lemma one_refl c : Chars.one c c = true.
Proof. apply Ascii.eqb_refl. Qed.

Lemma exec_Lit_prefix v i s' cs k :
  exec (Lit v) (MState i (v +:+ s') cs) k = k (MState (String.length v + i) s' cs).
Proof.
  revert i. induction v as [|c v IH]; intros i; simpl; [done|].
  rewrite one_refl. unfold advance. simpl. rewrite IH. do 2 f_equal. lia.
Qed.

Lemma exec_Lit_none v i s cs k :
  (forall s', s <> v +:+ s') -> exec (Lit v) (MState i s cs) k = None.
Proof.
  revert i s. induction v as [|c v IH]; intros i s Hn; simpl.
  - by destruct (Hn s).
  - destruct s as [|c' s]; [done|].
    unfold Chars.one. destruct (Ascii.eqb_spec c c') as [->|]; [|done].
    unfold advance. simpl. apply IH. intros s' ->. by apply (Hn s').
Qed.

Lemma search_contains v i s :
  is_Some (search (Pattern.contains v) i s) <-> has_substring s v.
Proof.
  unfold Pattern.contains, has_substring.
  revert i. induction s as [|c s IH]; intros i; simpl; unfold start_at.
  - destruct (Lit_cases v "") as [[s' E]|Hn].
    + rewrite E at 1. rewrite exec_Lit_prefix. split; [|by eexists].
      intros _. by exists "", s'.
    + rewrite exec_Lit_none by done. split; [by intros []|].
      intros (b & a & E). destruct b; [by destruct (Hn a)|done].
  - destruct (Lit_cases v (String c s)) as [[s' E]|Hn].
    + rewrite E at 1. rewrite exec_Lit_prefix. split; [|by eexists].
      intros _. by exists "", s'.
    + rewrite exec_Lit_none by done. rewrite IH. split.
      * intros (b & a & ->). by exists (String c b), a.
      * intros ([|c' b] & a & E); [by destruct (Hn a)|].
        injection E as -> ->. by exists b, a.
Qed.

Lemma search_after_start r i s : i <> 0 -> search (Cat Bol r) i s = None.
Proof.
  revert i. induction s as [|c s IH]; intros i Hi; simpl;
    destruct i; try done. by apply IH.
Qed.

Lemma search_unfold r i s :
  search r i s
  = match exec r (start_at i s) Some with
    | Some st' => Some (start_at i s, st')
    | None => match s with
              | String _ s' => search r (S i) s'
              | EmptyString => None
              end
    end.
Proof. by destruct s. Qed.

Lemma search_starts v s :
  is_Some (search (Pattern.starts v) 0 s) <-> has_prefix s v.
Proof.
  unfold Pattern.starts, has_prefix. rewrite search_unfold.
  assert (E0 : exec (Cat Bol (Lit v)) (start_at 0 s) Some
               = exec (Lit v) (MState 0 s []) Some) by done.
  rewrite E0. destruct (Lit_cases v s) as [[s' E]|Hn].
  - rewrite E at 1. rewrite exec_Lit_prefix.
    split; [intros _; by exists s'|by eexists].
  - rewrite exec_Lit_none by done.
    assert (Hno : forall a, s <> v +:+ a) by done.
    destruct s as [|c s].
    + split; [by intros []|]. intros [a E]. by destruct (Hno a).
    + rewrite search_after_start by done.
      split; [by intros []|]. intros [a E]. by destruct (Hno a).
Qed.

Lemma exec_ends v i s :
  is_Some (exec (Pattern.ends v) (start_at i s) Some) <-> s = v.
Proof.
  unfold Pattern.ends, start_at. simpl.
  destruct (Lit_cases v s) as [[s' ->]|Hn].
  - rewrite exec_Lit_prefix. simpl. destruct s' as [|c s'].
    + split; [|by eexists]. intros _. apply append_nil_r.
    + split; [by intros []|]. intros E. exfalso.
      apply (f_equal String.length) in E. rewrite length_append in E.
      simpl in E. lia.
  - rewrite exec_Lit_none by done. split; [by intros []|].
    intros ->. destruct (Hn ""). by rewrite append_nil_r.
Qed.

Lemma search_ends v i s :
  is_Some (search (Pattern.ends v) i s) <-> has_suffix s v.
Proof.
  unfold has_suffix. revert i.
  induction s as [|c s IH]; intros i; rewrite search_unfold.
  - pose proof (exec_ends v i "") as He.
    destruct (exec (Pattern.ends v) (start_at i "") Some).
    + split; [|by eexists]. intros _. exists "". apply He. by eexists.
    + split; [by intros []|]. intros ([|c b] & E); [|done].
      destruct He as [_ He]. by destruct (He E).
  - pose proof (exec_ends v i (String c s)) as He.
    destruct (exec (Pattern.ends v) (start_at i (String c s)) Some).
    + split; [|by eexists]. intros _. exists "". apply He. by eexists.
    + rewrite IH. split.
      * intros (b & ->). by exists (String c b).
      * intros ([|c' b] & E).
        { destruct He as [_ He]. by destruct (He E). }
        injection E as -> ->. by exists b.
Qed.

Lemma matched_test s r n : matched (test s r n) = true <-> is_Some (search r 0 s).
Proof.
  unfold test. destruct (search r 0 s) as [[st st']|]; simpl.
  - split; [by eexists|done].
  - split; [done|by intros []].
Qed.

End Literal.

(** ** The attribute predicate *)

Section Attribute.

Variable doc : dom.

Lemma result_of_builds (m : M ref) w l : builds m w l -> result_of m w = l.
Proof. intros H. unfold result_of. by rewrite (builds_lookup _ _ _ H). Qed.

Lemma attribute_passes_absent el name value operator :
  truthy (getAttribute doc el name) = false ->
  Elements.attribute_passes doc el name value operator = false.
Proof. unfold Elements.attribute_passes. by intros ->. Qed.

(** The test of lines 281 to 290 against the spec's table, for an
    attribute that is set to a non-empty string. *)
Lemma attribute_passes_table el name value operator :
  clause_value operator value ->
  Elements.attribute_passes doc el name value operator = true <->
  spec_attribute (getAttribute doc el name) operator (to_str value).
Proof.
  intros Hv. unfold Elements.attribute_passes, spec_attribute.
  destruct (getAttribute doc el name) as [a|]; simpl; [|done].
  destruct (String.eqb_spec a "") as [->|Ha]; simpl; [by split; [|intros []]|].
  destruct operator as [op|]; simpl; [|by split].
  destruct (String.eqb_spec op "") as [->|Hop]; simpl; [by split|].
  destruct Hv as (v & -> & _).
  { simpl. by destruct (String.eqb_spec op ""). }
  simpl. rewrite decide_False by done.
  destruct (String.eqb_spec op "*=") as [->|H1].
  { rewrite decide_False, decide_True by done.
    rewrite matched_test, search_contains. by split; [|intros []]. }
  destruct (String.eqb_spec op "=") as [->|H2].
  { rewrite decide_True by done. rewrite bool_decide_eq_true.
    split; [by intros [= ->]|by intros [_ ->]]. }
  rewrite (decide_False (P := op = "=")), (decide_False (P := op = "*=")) by done.
  destruct (String.eqb_spec op "^=") as [->|H3].
  { rewrite decide_True by done.
    rewrite matched_test, search_starts. by split; [|intros []]. }
  rewrite (decide_False (P := op = "^=")) by done.
  destruct (String.eqb_spec op "$=") as [->|H4].
  { rewrite decide_True by done.
    rewrite matched_test, search_ends. by split; [|intros []]. }
  rewrite (decide_False (P := op = "$=")) by done.
  by split; [|intros []].
Qed.

End Attribute.

(** ** The matcher against the reading of a pattern *)

Section Matcher.

Implicit Types (r : regex) (st : mstate) (k : mstate -> option mstate).

Lemma star_sound cls i s cs k res :
  star cls i s cs k = Some res ->
  exists t s', s = t +:+ s' /\ all_in cls t = true /\
               k (MState (String.length t + i) s' cs) = Some res.
Proof.
  revert i. induction s as [|c s IH]; intros i; simpl.
  - intros H. by exists "", "".
  - destruct (cls c) eqn:Hc.
    + destruct (star cls (S i) s cs k) as [res'|] eqn:Hs; simpl.
      * intros [= ->]. apply IH in Hs as (t & s' & -> & Ht & Hk).
        exists (String c t), s'. split; [done|]. split; [by simpl; rewrite Hc|].
        simpl. by rewrite <- Nat.add_succ_r.
      * intros H. by exists "", (String c s).
    + intros H. by exists "", (String c s).
Qed.

(** Whatever [exec] returns comes from a match of the pattern followed by
    a success of the continuation. *)
Lemma exec_sound r : forall st k res,
  exec r st k = Some res -> exists st', matches r st st' /\ k st' = Some res.
Proof.
  induction r as [|cls|r1 IH1 r2 IH2|r1 IH1 r2 IH2|r1 IH1|cls|cls|n r1 IH1| |];
    intros st k res; simpl.
  - intros H. exists st. split; [constructor|done].
  - destruct (rest st) as [|c s'] eqn:Hr; [done|].
    destruct (cls c) eqn:Hc; [|done]. intros H.
    exists (advance st s'). split; [by econstructor|done].
  - intros H. apply IH1 in H as (st1 & H1 & H). apply IH2 in H as (st2 & H2 & H).
    exists st2. split; [by econstructor|done].
  - destruct (exec r1 st k) as [res'|] eqn:E1; simpl.
    + intros [= ->]. apply IH1 in E1 as (st' & H1 & H).
      exists st'. split; [by apply m_alt_l|done].
    + intros H. apply IH2 in H as (st' & H2 & H).
      exists st'. split; [by apply m_alt_r|done].
  - destruct (exec r1 st k) as [res'|] eqn:E1; simpl.
    + intros [= ->]. apply IH1 in E1 as (st' & H1 & H).
      exists st'. split; [by apply m_opt_some|done].
    + intros H. exists st. split; [apply m_opt_none|done].
  - intros H. apply star_sound in H as (t & s' & Hr & Ht & H).
    eexists. split; [by apply (m_star cls st t s')|done].
  - destruct (rest st) as [|c s0] eqn:Hr; [done|].
    destruct (cls c) eqn:Hc; [|done]. intros H.
    apply star_sound in H as (t & s' & -> & Ht & H).
    exists (MState (String.length (String c t) + pos st) s' (caps st)). split.
    + apply m_plus; [done| |done]. simpl. by rewrite Hc.
    + simpl. by rewrite <- Nat.add_succ_r.
  - intros H. apply IH1 in H as (st' & H1 & H).
    exists (capture n st st'). split; [by constructor|done].
  - destruct (Nat.eqb_spec (pos st) 0) as [Hp|]; [|done]. intros H.
    exists st. split; [by constructor|done].
  - destruct (rest st) eqn:Hr; [|done]. intros H.
    exists st. split; [by constructor|done].
Qed.

Lemma search_sound r i s st st' :
  search r i s = Some (st, st') ->
  exists j s', st = start_at j s' /\ matches r st st'.
Proof.
  revert i. induction s as [|c s IH]; intros i; rewrite search_unfold.
  - destruct (exec r (start_at i "") Some) as [x|] eqn:E; [|done].
    intros [= <- <-]. apply exec_sound in E as (y & Hm & [= ->]). eauto.
  - destruct (exec r (start_at i (String c s)) Some) as [x|] eqn:E.
    + intros [= <- <-]. apply exec_sound in E as (y & Hm & [= ->]). eauto.
    + apply IH.
Qed.

Lemma substring_prefix t s' : String.substring 0 (String.length t) (t +:+ s') = t.
Proof.
  induction t as [|c t IH].
  - by destruct s'.
  - rewrite append_cons. simpl. by rewrite IH.
Qed.

Lemma all_in_word v : all_in Chars.word v = word_string v.
Proof. reflexivity. Qed.

(** A match leaves the groups that the pattern does not have. *)
Lemma matches_keeps_group n r st st' :
  matches r st st' -> mentions n r = false -> group n (caps st') = group n (caps st).
Proof.
  induction 1 as [ | | r1 r2 st st1 st2 _ IH1 _ IH2 | r1 r2 st st' _ IH
                 | r1 r2 st st' _ IH | r1 st st' _ IH | | | | m r1 st st' _ IH | | ];
    simpl; intros Hn; try done.
  - apply orb_false_elim in Hn as [H1 H2]. by rewrite IH2, IH1.
  - apply orb_false_elim in Hn as [H1 H2]. by apply IH.
  - apply orb_false_elim in Hn as [H1 H2]. by apply IH.
  - by apply IH.
  - apply orb_false_elim in Hn as [H1 H2]. rewrite H1. by apply IH.
Qed.

(** A match consumes a prefix of the input, and the index follows. *)
Lemma matches_consumes r st st' :
  matches r st st' ->
  exists t, rest st = t +:+ rest st' /\ pos st' = String.length t + pos st.
Proof.
  induction 1 as [ | | r1 r2 st st1 st2 _ IH1 _ IH2 | r1 r2 st st' _ IH
                 | r1 r2 st st' _ IH | r1 st st' _ IH | | | | m r1 st st' _ IH | | ];
    try (by exists ""); try done.
  - exists (String c ""). by rewrite H.
  - destruct IH1 as (t1 & E1 & P1), IH2 as (t2 & E2 & P2).
    exists (t1 +:+ t2). rewrite E1, E2, P2, P1, length_append. split; [|lia].
    clear. induction t1 as [|c t1 IH]; [done|]. by rewrite !append_cons, IH.
  - by exists t.
  - by exists t.
Qed.

Lemma consumed_matches r st st' t :
  matches r st st' -> rest st = t +:+ rest st' -> consumed st st' = t.
Proof.
  intros (t' & E & P)%matches_consumes E'. unfold consumed.
  assert (t' = t).
  { rewrite E in E'. apply (f_equal String.length) in E' as L.
    rewrite !length_append in L. revert E' L. clear. revert t.
    induction t' as [|c t' IH]; intros [|c' t] E L; simpl in *; try lia; [done|].
    rewrite !append_cons in E. injection E as -> E. f_equal. apply IH; [done|lia]. }
  subst t'. rewrite P, E. replace (String.length t + pos st - pos st) with (String.length t) by lia.
  apply substring_prefix.
Qed.

Ltac invert H := inversion H; subst; clear H.

(** Group 5 of the selector pattern holds an operator. *)
Lemma operator_pattern st st' :
  matches (Cat (Opt (Chr Chars.star_hat_dollar)) (Chr (Chars.one "="))) st st' ->
  is_operator (consumed st st').
Proof.
  intros H. pose proof H as Hm. invert H.
  match goal with H : matches (Chr _) _ _ |- _ => invert H end.
  match goal with H : Chars.one "=" _ = true |- _ => apply Ascii.eqb_eq in H; subst end.
  match goal with H : matches (Opt _) _ _ |- _ => invert H end.
  - match goal with H : matches (Chr _) _ _ |- _ => invert H end.
    match goal with
    | H0 : rest (advance _ ?s0) = String "=" ?s1, H2 : rest _ = String ?c ?s0 |- _ =>
        simpl in H0; subst s0;
        rewrite (consumed_matches _ _ _ (String c "=") Hm) by (by rewrite H2)
    end.
    unfold Chars.star_hat_dollar, Chars.one in *.
    repeat match goal with
           | H : _ || _ = true |- _ => apply orb_true_iff in H as [H|H]
           | H : Ascii.eqb _ _ = true |- _ => apply Ascii.eqb_eq in H; subst
           end; unfold is_operator; auto.
  - match goal with
    | H0 : rest _ = String "=" _ |- _ =>
        rewrite (consumed_matches _ _ _ "=" Hm) by (by rewrite H0)
    end.
    unfold is_operator; auto.
Qed.

(** The selector pattern, where it has an operator, has one of the four
    and a value of word characters after it. *)
Lemma selector_groups st st' :
  caps st = [] -> matches Pattern.selector st st' ->
  (forall op, group 5 (caps st') = Some op -> is_operator op) /\
  (forall v, group 6 (caps st') = Some v -> word_string v = true) /\
  (group 5 (caps st') <> None -> group 6 (caps st') <> None).
Proof.
  unfold Pattern.selector. intros Hc H.
  (* start of input, group 1, the id or class *)
  invert H. match goal with H : matches Bol _ _ |- _ => invert H end.
  match goal with H : matches (Cat (Grp 1 _) _) _ _ |- _ => invert H end.
  match goal with H : matches (Cat (Opt (Alt _ _)) _) _ _ |- _ => invert H end.
  match goal with H : matches (Cat _ Eol) _ _ |- _ => invert H end.
  match goal with H : matches Eol _ _ |- _ => invert H end.
  repeat match goal with
         | H : matches (Grp 1 _) _ _ |- _ =>
             pose proof (matches_keeps_group 5 _ _ _ H eq_refl);
             pose proof (matches_keeps_group 6 _ _ _ H eq_refl); clear H
         | H : matches (Opt (Alt _ _)) _ _ |- _ =>
             pose proof (matches_keeps_group 5 _ _ _ H eq_refl);
             pose proof (matches_keeps_group 6 _ _ _ H eq_refl); clear H
         end.
  assert (N5 : group 5 (caps st2) = None) by (rewrite Hc in *; simpl in *; congruence).
  assert (N6 : group 6 (caps st2) = None) by (rewrite Hc in *; simpl in *; congruence).
  clear - N5 N6 H4.
  (* the attribute part *)
  invert H4; [|by rewrite N5, N6].
  repeat match goal with
         | H : matches (Cat (Chr _) _) _ _ |- _ => invert H
         | H : matches (Cat (Opt (Chr _)) _) _ _ |- _ => invert H
         | H : matches (Cat (Grp 4 _) _) _ _ |- _ => invert H
         | H : matches (Cat (Opt (Cat _ _)) _) _ _ |- _ => invert H
         end.
  repeat match goal with
         | H : matches (Chr _) _ _ |- _ =>
             pose proof (matches_keeps_group 5 _ _ _ H eq_refl);
             pose proof (matches_keeps_group 6 _ _ _ H eq_refl); clear H
         | H : matches (Opt (Chr _)) _ _ |- _ =>
             pose proof (matches_keeps_group 5 _ _ _ H eq_refl);
             pose proof (matches_keeps_group 6 _ _ _ H eq_refl); clear H
         | H : matches (Grp 4 _) _ _ |- _ =>
             pose proof (matches_keeps_group 5 _ _ _ H eq_refl);
             pose proof (matches_keeps_group 6 _ _ _ H eq_refl); clear H
         end.
  match goal with H : matches (Opt (Cat _ _)) _ _ |- _ => invert H end;
    [|split_and!; intros; congruence].
  (* the operator and the value *)
  repeat match goal with
         | H : matches (Cat (Grp _ _) _) _ _ |- _ => invert H
         | H : matches (Cat (Opt (Chr _)) _) _ _ |- _ => invert H
         end.
  repeat match goal with
         | H : matches (Opt (Chr _)) _ _ |- _ =>
             pose proof (matches_keeps_group 5 _ _ _ H eq_refl);
             pose proof (matches_keeps_group 6 _ _ _ H eq_refl); clear H
         end.
  match goal with H : matches (Grp 5 _) _ _ |- _ => invert H end.
  match goal with H : matches (Grp 6 _) _ _ |- _ => invert H end.
  match goal with
  | H : matches (Cat (Opt _) (Chr _)) _ _ |- _ => apply operator_pattern in H
  end.
  match goal with
  | H : matches (Star _) ?g ?h |- _ =>
      pose proof H as Hstar; invert H;
      match goal with
      | E : rest g = ?t +:+ _, A : all_in _ ?t = true |- _ =>
          pose proof (consumed_matches _ _ _ t Hstar E) as Hv;
          rewrite all_in_word in A
      end
  end.
  simpl in *.
  split_and!; intros; congruence.
Qed.

(** The clause of a token that the selector pattern matches: its operator,
    if any, is one of the four, and comes with a value of word
    characters. *)
Lemma selector_clause sel bits :
  test sel Pattern.selector 6 = Some bits ->
  (forall op, Param.operator (Param.of_bits bits) = Some op -> is_operator op) /\
  clause_value (Param.operator (Param.of_bits bits)) (Param.value (Param.of_bits bits)).
Proof.
  unfold test. destruct (search Pattern.selector 0 sel) as [[st st']|] eqn:Hs; [|done].
  intros [= <-]. apply search_sound in Hs as (j & s' & -> & Hm).
  apply selector_groups in Hm as (H5 & H6 & H56); [|done].
  assert (Eo : forall b, Param.operator (Param.of_bits
             (Some b :: map (fun n => group n (caps st')) (seq 1 6))) = group 5 (caps st')).
  { intros b. unfold Param.of_bits. by destruct (truthy _). }
  assert (Ev : forall b, Param.value (Param.of_bits
             (Some b :: map (fun n => group n (caps st')) (seq 1 6))) = group 6 (caps st')).
  { intros b. unfold Param.of_bits. by destruct (truthy _). }
  rewrite Eo, Ev. split; [done|].
  intros Ht. destruct (group 5 (caps st')) as [op|] eqn:E5; [|done].
  destruct (group 6 (caps st')) as [v|] eqn:E6; [|by destruct H56].
  exists v. split; [done|]. by apply H6.
Qed.

End Matcher.

(** * The statements of the specification *)

(** ** C1 and C9: the attribute predicate *)

(** C1, as stated, fails: with the operator [=] an element would pass
    exactly when its attribute equals the clause value.  The second [a] of
    [page] has [href] set to the empty string, the clause [[href=]] has the
    empty value, the two are equal, and the element does not pass. *)
Lemma filterByAttribute_equal_empty_counterexample :
  getAttribute page [1; 1; 0] "href" = Some "" /\
  ~ (Elements.attribute_passes page [1; 1; 0] "href" (Some "") (Some "=") = true
     <-> getAttribute page [1; 1; 0] "href" = Some "") /\
  [1; 1; 0] ∈ items anchors_world 0 /\
  result_of (Elements.filterByAttribute page 0 "href" (Some "") (Some "=")) anchors_world = [].
Proof.
  split; [reflexivity|]. split; [|split].
  - intros [_ H]. specialize (H eq_refl). vm_compute in H. discriminate.
  - unfold items. simpl. rewrite !elem_of_cons. auto.
  - reflexivity.
Qed.

(** C1, amended: [filterByAttribute] keeps, in order, the elements of the
    set that pass the test of lines 281 to 290, and an element passes
    exactly when its attribute is set to a non-empty string and: there is
    no operator; or the operator is [=] and the attribute equals the value;
    or it is [*=] and the attribute contains the value; or [^=] and the
    attribute starts with the value; or [$=] and it ends with the value.  An
    element without the attribute, or with the attribute set to the empty
    string, never passes.  The clauses are those of the selector pattern:
    the operator, if any, is one of the four and its value is made of word
    characters. *)
Theorem filterByAttribute_truth_table doc this name value operator w :
  clause_value operator value ->
  result_of (Elements.filterByAttribute doc this name value operator) w
  = filter (fun el => Elements.attribute_passes doc el name value operator) (items w this)
  /\ (forall el,
        Elements.attribute_passes doc el name value operator = true <->
        spec_attribute (getAttribute doc el name) operator (to_str value))
  /\ (forall el,
        el ∈ result_of (Elements.filterByAttribute doc this name value operator) w <->
        el ∈ items w this /\
        spec_attribute (getAttribute doc el name) operator (to_str value))
  /\ (forall el,
        truthy (getAttribute doc el name) = false ->
        el ∉ result_of (Elements.filterByAttribute doc this name value operator) w)
  /\ (forall sel bits,
        test sel Pattern.selector 6 = Some bits ->
        (forall op, Param.operator (Param.of_bits bits) = Some op -> is_operator op) /\
        clause_value (Param.operator (Param.of_bits bits))
                     (Param.value (Param.of_bits bits))).
Proof.
  intros Hv.
  pose proof (result_of_builds _ _ _
                (filterByAttribute_builds doc this name value operator w)) as E.
  split; [done|]. split; [intros el; by apply attribute_passes_table|]. split_and!.
  - intros el. rewrite E, list_elem_of_filter, Is_true_true.
    rewrite attribute_passes_table by done. tauto.
  - intros el Ha. rewrite E, list_elem_of_filter, Is_true_true.
    rewrite attribute_passes_absent by done. by intros [? _].
  - apply selector_clause.
Qed.

Lemma filterByAttribute_truth_table_witness :
  clause_value (Some "^=") (Some "http") /\
  (forall el,
     el ∈ result_of (Elements.filterByAttribute page 0 "href" (Some "http") (Some "^="))
                    anchors_world <->
     el ∈ items anchors_world 0 /\
     spec_attribute (getAttribute page el "href") (Some "^=") "http").
Proof.
  assert (H : clause_value (Some "^=") (Some "http")).
  { intros _. exists "http". split; reflexivity. }
  split; [exact H|].
  apply (filterByAttribute_truth_table page 0 "href" (Some "http") (Some "^=")
           anchors_world H).
Defined.

(** C9: an element whose attribute is present and set to the empty string
    is never in the result of [filterByAttribute], whatever the operator
    and the value, the operator [=] with the empty value included. *)
Theorem filterByAttribute_empty_attribute doc this name value operator w el :
  getAttribute doc el name = Some "" ->
  Elements.attribute_passes doc el name value operator = false /\
  el ∉ result_of (Elements.filterByAttribute doc this name value operator) w.
Proof.
  intros Ha.
  assert (Hp : Elements.attribute_passes doc el name value operator = false).
  { apply attribute_passes_absent. by rewrite Ha. }
  split; [done|].
  rewrite (result_of_builds _ _ _
             (filterByAttribute_builds doc this name value operator w)).
  rewrite list_elem_of_filter, Hp. by intros [? _].
Qed.

Lemma filterByAttribute_empty_attribute_witness :
  getAttribute page [1; 1; 0] "href" = Some "" /\
  Elements.attribute_passes page [1; 1; 0] "href" (Some "") (Some "=") = false /\
  [1; 1; 0] ∉ result_of (Elements.filterByAttribute page 0 "href" (Some "") (Some "="))
                        anchors_world.
Proof.
  split; [reflexivity|].
  apply (filterByAttribute_empty_attribute page 0 "href" (Some "") (Some "=")
           anchors_world [1; 1; 0]).
  reflexivity.
Defined.

(** ** C3: filterByTagName *)

(** C3, as stated, fails on a set that holds an element and one of its
    descendants: the [div] inside the second [p] of [page] is in the set
    that [div] selects and, being below the first [div] of that set, it is
    in the output of [filterByTagName] as well. *)
Lemma filterByTagName_input_in_output_counterexample :
  ~ (forall el,
       el ∈ items divs_world 0 ->
       el ∉ result_of (Elements.filterByTagName page 0 "div") divs_world).
Proof.
  intros H. apply (H [0; 1; 0; 0]).
  - unfold items. simpl. rewrite !elem_of_cons. auto.
  - vm_compute. apply elem_of_cons. by left.
Qed.

(** C3, amended: [filterByTagName] returns, for each element of the set in
    order, the elements strictly below it in the page that have the given
    tag name (every element for the name [*]), concatenated.  An element is
    never part of what is collected for itself, even when its own tag
    matches; an element of the set is in the output only when it lies
    below an element of the set. *)
Theorem filterByTagName_descendants doc this tagName w :
  result_of (Elements.filterByTagName doc this tagName) w
  = items w this ≫= (fun el => getElementsByTagName doc (Element el) tagName)
  /\ (forall el, el ∉ getElementsByTagName doc (Element el) tagName)
  /\ (forall e,
        e ∈ result_of (Elements.filterByTagName doc this tagName) w <->
        exists a, a ∈ items w this /\ descendant a e /\
                  exists d, node doc e = Some d /\ tag_matches tagName d)
  /\ ((forall a b, a ∈ items w this -> b ∈ items w this -> ~ descendant a b) ->
      forall el, el ∈ items w this ->
                 el ∉ result_of (Elements.filterByTagName doc this tagName) w).
Proof.
  pose proof (result_of_builds _ _ _ (filterByTagName_builds doc this tagName w)) as E.
  unfold Pure.filterByTagName in E.
  assert (Hin : forall e,
             e ∈ result_of (Elements.filterByTagName doc this tagName) w <->
             exists a, a ∈ items w this /\ descendant a e /\
                       exists d, node doc e = Some d /\ tag_matches tagName d).
  { intros e. rewrite E, list_elem_of_bind. split.
    - intros (a & He & Ha). exists a. split; [done|].
      by apply getElementsByTagName_element.
    - intros (a & Ha & He). exists a. split; [|done].
      by apply getElementsByTagName_element. }
  split; [done|]. split; [|split; [done|]].
  - intros el (H & _)%getElementsByTagName_element. by apply descendant_irrefl in H.
  - intros Hanti el Hel (a & Ha & Hd & _)%Hin. by apply (Hanti a el).
Qed.

Lemma filterByTagName_descendants_witness :
  (forall a b, a ∈ items anchors_world 0 -> b ∈ items anchors_world 0 -> ~ descendant a b) /\
  (forall el, el ∈ items anchors_world 0 ->
              el ∉ result_of (Elements.filterByTagName page 0 "a") anchors_world).
Proof.
  assert (H : forall a b, a ∈ items anchors_world 0 -> b ∈ items anchors_world 0 ->
                          ~ descendant a b).
  { unfold items. simpl. intros a b Ha Hb (steps & Hne & E).
    apply (f_equal length) in E. rewrite length_app in E.
    rewrite !elem_of_cons in Ha, Hb. rewrite elem_of_nil in Ha, Hb.
    destruct steps; [done|].
    destruct Ha as [->|[->|[]]], Hb as [->|[->|[]]]; simpl in E; lia. }
  split; [exact H|].
  apply (filterByTagName_descendants page 0 "a" anchors_world). exact H.
Defined.

(** ** C4 and C10: action *)

Section Action.

Implicit Types (w : world) (this : ref) (l : list element)
  (actions : Elements.actions_t) (p : gmap (element * string) fn).

Lemma bind_key_run el kf w :
  Elements.bind_key el kf w
  = (tt, {| arrays := arrays w; props := assign el (props w) kf;
            listeners := listeners w ++ listener_of el kf; calls := calls w |}).
Proof.
  unfold Elements.bind_key, assign, listener_of, assigned.
  destruct kf as [key f]. simpl.
  destruct (matched (test key Pattern.on_key 0)).
  - unfold set_prop. by rewrite app_nil_r.
  - destruct (test key Pattern.event_key 1) as [evt|].
    + done.
    + rewrite run_ret, app_nil_r. by destruct w.
Qed.

Lemma bind_keys_run el actions w :
  for_each (Elements.bind_key el) actions w
  = (tt, {| arrays := arrays w; props := assign_all actions (props w) el;
            listeners := listeners w ++ (actions ≫= listener_of el);
            calls := calls w |}).
Proof.
  unfold assign_all. revert w. induction actions as [|kf actions IH]; intros w.
  - simpl. rewrite run_ret, app_nil_r. by destruct w.
  - rewrite for_each_cons, bind_key_run, IH. simpl. by rewrite <- app_assoc.
Qed.

Lemma action_body_run actions el w :
  (match Elements.property "initialize" actions with
   | Some f => apply f el
   | None => mret tt
   end;; for_each (Elements.bind_key el) actions) w
  = (tt, {| arrays := arrays w; props := assign_all actions (props w) el;
            listeners := listeners w ++ (actions ≫= listener_of el);
            calls := calls w ++ init_calls actions [el] |}).
Proof.
  rewrite run_bind, bind_keys_run. unfold init_calls.
  destruct (Elements.property "initialize" actions) as [f|]; simpl; [done|].
  by rewrite app_nil_r.
Qed.

Lemma init_calls_cons actions el l :
  init_calls actions (el :: l) = init_calls actions [el] ++ init_calls actions l.
Proof. unfold init_calls. by destruct (Elements.property _ _). Qed.

(** What [action] does to the store. *)
Lemma action_run this actions w :
  Elements.action this actions w
  = (tt, {| arrays := arrays w;
            props := foldl (assign_all actions) (props w) (items w this);
            listeners := listeners w
                         ++ (items w this ≫= fun el => actions ≫= listener_of el);
            calls := calls w ++ init_calls actions (items w this) |}).
Proof.
  unfold Elements.action, each. rewrite run_bind.
  unfold array_items at 1 2. simpl. fold (items w this).
  generalize (items w this). intros l. revert w.
  induction l as [|el l IH]; intros w.
  - simpl. rewrite run_ret. unfold init_calls.
    destruct (Elements.property _ _); simpl; rewrite !app_nil_r; destruct w; reflexivity.
  - rewrite for_each_cons, action_body_run, IH. simpl.
    rewrite (init_calls_cons actions el l), <- !app_assoc. done.
Qed.

Lemma assign_other el el' key p kf :
  el' <> el -> assign el p kf !! (el', key) = p !! (el', key).
Proof.
  intros Hne. unfold assign. destruct (assigned kf); [|done].
  apply lookup_insert_ne. congruence.
Qed.

Lemma assign_all_other actions el el' key p :
  el' <> el -> assign_all actions p el !! (el', key) = p !! (el', key).
Proof.
  intros Hne. unfold assign_all. revert p.
  induction actions as [|kf actions IH]; intros p; simpl; [done|].
  by rewrite IH, assign_other.
Qed.

Lemma assign_all_skip actions el key p :
  (forall f, (key, f) ∈ actions -> assigned (key, f) = false) ->
  assign_all actions p el !! (el, key) = p !! (el, key).
Proof.
  unfold assign_all. revert p.
  induction actions as [|[k f] actions IH]; intros p H; simpl; [done|].
  rewrite IH by (intros f' Hf; apply H; by apply elem_of_cons; right).
  unfold assign. simpl. destruct (decide (k = key)) as [->|Hk].
  - rewrite (H f) by (apply elem_of_cons; by left). done.
  - destruct (assigned (k, f)); [|done]. apply lookup_insert_ne. congruence.
Qed.

Lemma assign_all_key actions el key f p :
  NoDup actions.*1 -> (key, f) ∈ actions -> assigned (key, f) = true ->
  assign_all actions p el !! (el, key) = Some f.
Proof.
  unfold assign_all. revert p.
  induction actions as [|[k g] actions IH]; intros p Hnd Hin Ha; simpl.
  - by apply elem_of_nil in Hin.
  - rewrite fmap_cons in Hnd. apply list.NoDup_cons in Hnd as [Hk Hnd].
    apply elem_of_cons in Hin as [[= <- <-]|Hin].
    + assert (E : forall q, foldl (assign el) q actions !! (el, key) = q !! (el, key)).
      { clear -Hk. revert Hk. simpl.
        induction actions as [|[k' g'] actions IH]; intros Hk q; simpl; [done|].
        rewrite fmap_cons, not_elem_of_cons in Hk. destruct Hk as [Hne Hk].
        rewrite IH by done. unfold assign. destruct (assigned (k', g')); [|done].
        apply lookup_insert_ne. simpl in *. congruence. }
      rewrite E. unfold assign. rewrite Ha. simpl. apply lookup_insert_eq.
    + by apply IH.
Qed.

Lemma props_after_key actions l el key f p :
  NoDup actions.*1 -> (key, f) ∈ actions -> assigned (key, f) = true ->
  el ∈ l \/ p !! (el, key) = Some f ->
  foldl (assign_all actions) p l !! (el, key) = Some f.
Proof.
  intros Hnd Hin Ha. revert p.
  induction l as [|x l IH]; intros p [Hel|Hp]; simpl.
  - by apply elem_of_nil in Hel.
  - done.
  - apply IH. destruct (decide (x = el)) as [->|Hne].
    + right. by apply assign_all_key.
    + left. apply elem_of_cons in Hel as [->|]; done.
  - apply IH. right. destruct (decide (x = el)) as [->|Hne].
    + by apply assign_all_key.
    + by rewrite assign_all_other.
Qed.

Lemma props_elsewhere actions l el key p :
  el ∉ l \/ (forall f, (key, f) ∈ actions -> assigned (key, f) = false) ->
  foldl (assign_all actions) p l !! (el, key) = p !! (el, key).
Proof.
  revert p. induction l as [|x l IH]; intros p H; simpl; [done|].
  rewrite IH.
  - destruct H as [H|H]; [|destruct (decide (x = el)) as [->|]].
    + apply assign_all_other. intros ->. apply H, elem_of_cons. by left.
    + by apply assign_all_skip.
    + by apply assign_all_other.
  - destruct H as [H|H]; [left|by right].
    intros Hel. apply H, elem_of_cons. by right.
Qed.

Lemma listeners_without actions el key :
  matched (test key Pattern.on_key 0) = true ->
  actions ≫= listener_of el
  = filter (fun kf => kf.1 <> key) actions ≫= listener_of el.
Proof.
  intros Hon. induction actions as [|[k f] actions IH]; [done|].
  rewrite filter_cons, bind_cons. case_decide as Hk.
  - by rewrite bind_cons, IH.
  - rewrite IH. simpl in Hk. subst k.
    unfold listener_of at 1. simpl. by rewrite Hon.
Qed.

End Action.

(** C4, as stated, fails on a key that matches both patterns: the key
    [onclickevent] matches the pattern of line 247, with [onclick] for the
    word, and [action] registers no listener for it. *)
Lemma action_event_key_counterexample :
  test "onclickevent" Pattern.event_key 1 = Some [Some "onclickevent"; Some "onclick"] /\
  listeners (Elements.action 0 [("onclickevent", 1)] anchors_world).2 = [].
Proof. split; reflexivity. Qed.

(** C4, amended: [action] leaves the set as it is and, for each element of
    the set in order, calls the [initialize] handler, when there is one,
    once on that element; assigns every key that matches [on<word>] as a
    property of the element, so that [onclick] handlers [fn1] then [fn2]
    leave [fn2] bound; registers, for every key that matches [<word>event]
    and does not match [on<word>], one more listener for [<word>], so that
    [clickevent] handlers [fn1] then [fn2] are both registered; and does
    nothing for a key that matches neither pattern. *)
Theorem action_binds this w :
  (forall actions, arrays (Elements.action this actions w).2 = arrays w) /\
  (forall actions f,
     Elements.property "initialize" actions = Some f ->
     calls (Elements.action this actions w).2
     = calls w ++ map (fun el => (f, el)) (items w this)) /\
  (forall actions,
     Elements.property "initialize" actions = None ->
     calls (Elements.action this actions w).2 = calls w) /\
  (forall actions key f el,
     NoDup actions.*1 -> (key, f) ∈ actions ->
     matched (test key Pattern.on_key 0) = true -> el ∈ items w this ->
     props (Elements.action this actions w).2 !! (el, key) = Some f) /\
  (forall fn1 fn2 el,
     el ∈ items w this ->
     props (Elements.action this [("onclick", fn2)]
              (Elements.action this [("onclick", fn1)] w).2).2 !! (el, "onclick")
     = Some fn2) /\
  (forall actions,
     listeners (Elements.action this actions w).2
     = listeners w ++ (items w this ≫= fun el => actions ≫= listener_of el)) /\
  (forall el key f evt,
     matched (test key Pattern.on_key 0) = false ->
     test key Pattern.event_key 1 = Some evt ->
     listener_of el (key, f) = [(el, to_str (item evt 1), f)] /\
     forall w', Elements.bind_key el (key, f) w' = addEvent el (to_str (item evt 1)) f w') /\
  (forall fn1 fn2,
     listeners (Elements.action this [("clickevent", fn2)]
                  (Elements.action this [("clickevent", fn1)] w).2).2
     = listeners w ++ map (fun el => (el, "click", fn1)) (items w this)
                   ++ map (fun el => (el, "click", fn2)) (items w this)) /\
  (forall el key f w',
     test key Pattern.on_key 0 = None -> test key Pattern.event_key 1 = None ->
     Elements.bind_key el (key, f) w' = (tt, w')) /\
  (forall actions el key,
     (forall f, (key, f) ∈ actions -> matched (test key Pattern.on_key 0) = false) ->
     props (Elements.action this actions w).2 !! (el, key) = props w !! (el, key)).
Proof.
  assert (Hmap : forall (g : element -> element * string * fn) l,
             l ≫= (fun el => [g el]) = map g l).
  { intros g l. induction l as [|x l IH]; [done|]. by rewrite bind_cons, IH. }
  split_and!.
  - intros actions. by rewrite action_run.
  - intros actions f Hf. rewrite action_run. unfold init_calls. by rewrite Hf.
  - intros actions Hf. rewrite action_run. unfold init_calls. rewrite Hf.
    simpl. by rewrite app_nil_r.
  - intros actions key f el Hnd Hin Hon Hel. rewrite action_run. simpl.
    apply props_after_key; auto.
  - intros fn1 fn2 el Hel. rewrite !action_run. simpl.
    apply props_after_key; [| |done|].
    + apply NoDup_singleton.
    + by apply list_elem_of_singleton.
    + left. by unfold items in *.
  - intros actions. by rewrite action_run.
  - intros el key f evt Hon Hev. split.
    + unfold listener_of. simpl. by rewrite Hon, Hev.
    + intros w'. unfold Elements.bind_key. by rewrite Hon, Hev.
  - intros fn1 fn2. rewrite !action_run. simpl. unfold items. simpl.
    rewrite <- app_assoc, !Hmap. reflexivity.
  - intros el key f w' Hon Hev. unfold Elements.bind_key. by rewrite Hon, Hev.
  - intros actions el key Hk. rewrite action_run. simpl.
    apply props_elsewhere. by right.
Qed.

Lemma action_binds_witness :
  (forall el,
     el ∈ items anchors_world 0 ->
     props (Elements.action 0 [("onclick", 2)]
              (Elements.action 0 [("onclick", 1)] anchors_world).2).2 !! (el, "onclick")
     = Some 2) /\
  listeners (Elements.action 0 [("clickevent", 2)]
               (Elements.action 0 [("clickevent", 1)] anchors_world).2).2
  = [([0; 1; 0], "click", 1); ([1; 1; 0], "click", 1);
     ([0; 1; 0], "click", 2); ([1; 1; 0], "click", 2)].
Proof.
  pose proof (action_binds 0 anchors_world) as (_ & _ & _ & _ & H5 & _ & _ & H8 & _).
  split.
  - intros el Hel. exact (H5 1 2 el Hel).
  - exact (H8 1 2).
Defined.

(** C10: a key that matches both patterns, such as [onclickevent], is
    assigned as a property of each element and nothing else: the key
    registers no listener, because line 246 is tried first and line 247 is
    its [else]. *)
Theorem action_on_before_event this actions w key f evt :
  matched (test key Pattern.on_key 0) = true ->
  test key Pattern.event_key 1 = Some evt ->
  (forall el w', Elements.bind_key el (key, f) w' = set_prop el key f w') /\
  (forall el w', listeners (Elements.bind_key el (key, f) w').2 = listeners w') /\
  (NoDup actions.*1 -> (key, f) ∈ actions ->
   forall el, el ∈ items w this ->
              props (Elements.action this actions w).2 !! (el, key) = Some f) /\
  listeners (Elements.action this actions w).2
  = listeners (Elements.action this (filter (fun kf => kf.1 <> key) actions) w).2.
Proof.
  intros Hon Hev. split_and!.
  - intros el w'. unfold Elements.bind_key. by rewrite Hon.
  - intros el w'. unfold Elements.bind_key. by rewrite Hon.
  - intros Hnd Hin el Hel. rewrite action_run. simpl. apply props_after_key; auto.
  - rewrite !action_run. simpl. f_equal.
    generalize (items w this). intros l.
    induction l as [|el l IH]; [done|].
    by rewrite !bind_cons, IH, (listeners_without actions el key Hon).
Qed.

Lemma action_on_before_event_witness :
  matched (test "onclickevent" Pattern.on_key 0) = true /\
  test "onclickevent" Pattern.event_key 1 = Some [Some "onclickevent"; Some "onclick"] /\
  (forall el, el ∈ items anchors_world 0 ->
     props (Elements.action 0 [("onclickevent", 7)] anchors_world).2 !! (el, "onclickevent")
     = Some 7) /\
  listeners (Elements.action 0 [("onclickevent", 7)] anchors_world).2
  = listeners (Elements.action 0 [] anchors_world).2.
Proof.
  split; [reflexivity|]. split; [reflexivity|].
  pose proof (action_on_before_event 0 [("onclickevent", 7)] anchors_world
                "onclickevent" 7 [Some "onclickevent"; Some "onclick"]
                eq_refl eq_refl) as (_ & _ & H3 & H4).
  split.
  - apply H3.
    + apply NoDup_singleton.
    + by apply list_elem_of_singleton.
  - exact H4.
Defined.

(** ** C5: the first match *)

Lemma result_of_computes (m : M ref) w l : computes m w l -> result_of m w = l.
Proof. intros (_ & _ & H). unfold result_of. by rewrite H. Qed.

(** C5: [getElement], and [$E] with it, returns the element at index 0 of
    what [getElementsBySelector], and [$ES], returns for the same selector
    and scope, and nothing when that array is empty. *)
Theorem getElement_first doc this selector w :
  getElement doc this selector w
  = (result_of (getElementsBySelector doc this selector) w !! 0,
     (getElementsBySelector doc this selector w).2)
  /\ (forall filter,
        dollar_E doc selector filter w
        = (result_of (dollar_ES doc selector filter) w !! 0,
           (dollar_ES doc selector filter w).2))
  /\ ((getElement doc this selector w).1 = None <->
      result_of (getElementsBySelector doc this selector) w = [])
  /\ (forall el,
        (getElement doc this selector w).1 = Some el <->
        exists l, result_of (getElementsBySelector doc this selector) w = el :: l).
Proof.
  assert (E : forall scope,
             getElement doc scope selector w
             = (result_of (getElementsBySelector doc scope selector) w !! 0,
                (getElementsBySelector doc scope selector w).2)).
  { intros scope. unfold getElement. rewrite run_bind, run_bind. reflexivity. }
  split_and!.
  - apply E.
  - intros filter. apply E.
  - rewrite E. simpl. by destruct (result_of _ w).
  - intros el. rewrite E. simpl. destruct (result_of _ w) as [|x l]; simpl.
    + split; [done|]. by intros [? ?].
    + split; [intros [= ->]; by exists l|]. by intros [? [= -> _]].
Qed.

(** ** C7: comma-separated selectors *)

Lemma split_append sep s1 s2 :
  split sep (s1 +:+ String sep s2) = split sep s1 ++ split sep s2.
Proof.
  induction s1 as [|c s1 IH].
  - change ("" +:+ String sep s2) with (String sep s2). simpl.
    by rewrite Ascii.eqb_refl.
  - rewrite append_cons. simpl. rewrite IH.
    destruct (Ascii.eqb c sep); [done|].
    assert (Hne : split sep s1 <> []) by (destruct s1; simpl; [done|];
      destruct (Ascii.eqb _ _); [done|]; by destruct (split sep s1)).
    by destruct (split sep s1).
Qed.

(** C7: [getElementsBySelector] splits the selector on commas, evaluates
    each part with [getElements] on the same scope, each part by itself,
    and returns the results one after the other, from left to right,
    with nothing removed: the result for [sel1,sel2] is the result for
    [sel1] followed by the result for [sel2], and an element that both
    parts match is in it once for each. *)
Theorem getElementsBySelector_concat doc this selector w :
  result_of (getElementsBySelector doc this selector) w
  = split "," selector ≫= (fun sel => result_of (getElements doc this sel) w)
  /\ (forall w', result_of (getElements doc this selector) w'
                 = result_of (getElements doc this selector) w)
  /\ (forall sel1 sel2,
        result_of (getElementsBySelector doc this (sel1 +:+ "," +:+ sel2)) w
        = result_of (getElementsBySelector doc this sel1) w
          ++ result_of (getElementsBySelector doc this sel2) w)
  /\ (forall sel1 sel2 el,
        count_occ (List.list_eq_dec Nat.eq_dec)
          (result_of (getElementsBySelector doc this (sel1 +:+ "," +:+ sel2)) w) el
        = count_occ (List.list_eq_dec Nat.eq_dec)
            (result_of (getElementsBySelector doc this sel1) w) el
          + count_occ (List.list_eq_dec Nat.eq_dec)
              (result_of (getElementsBySelector doc this sel2) w) el).
Proof.
  assert (E : forall sel, result_of (getElementsBySelector doc this sel) w
                          = Pure.getElementsBySelector doc this sel).
  { intros sel. apply result_of_builds, getElementsBySelector_builds. }
  assert (G : forall sel w', result_of (getElements doc this sel) w'
                             = Pure.getElements doc this sel).
  { intros sel w'. apply result_of_computes, getElements_computes. }
  assert (A : forall sel1 sel2,
             result_of (getElementsBySelector doc this (sel1 +:+ "," +:+ sel2)) w
             = result_of (getElementsBySelector doc this sel1) w
               ++ result_of (getElementsBySelector doc this sel2) w).
  { intros sel1 sel2. rewrite !E. unfold Pure.getElementsBySelector.
    change ("," +:+ sel2) with (String "," sel2).
    by rewrite split_append, bind_app. }
  split_and!.
  - rewrite E. unfold Pure.getElementsBySelector.
    induction (split "," selector) as [|sel sels IH]; [done|].
    by rewrite !bind_cons, IH, G.
  - intros w'. by rewrite !G.
  - exact A.
  - intros sel1 sel2 el. by rewrite A, count_occ_app.
Qed.

(** On [page], the selector [div,div] returns each [div] twice. *)
Example getElementsBySelector_twice :
  result_of (getElementsBySelector page Document "div,div") empty_world
  = [[0; 0]; [0; 1; 0; 0]; [1; 0]; [0; 0]; [0; 1; 0; 0]; [1; 0]].
Proof. reflexivity. Qed.

(** ** C8: the filters build, they do not mutate *)

Lemma allocates_untouched w w' : allocates w w' -> untouched w w'.
Proof. intros H r l. by apply allocates_lookup. Qed.

Lemma builds_newly_built (m : M ref) w l : builds m w l -> newly_built m w.
Proof.
  intros H. split; [|split].
  - destruct H as (-> & _). by apply lookup_ge_None_2.
  - rewrite (builds_lookup _ _ _ H). by eexists.
  - by eapply allocates_untouched, builds_allocates.
Qed.

(** C8: each of [filterById], [filterByClassName], [filterByTagName] and
    [filterByAttribute] returns an array that did not exist before the
    call and leaves every array that existed, the receiver among them, with
    the elements it had; the same holds of the query methods that chain
    them, and [action] changes no array at all. *)
Theorem filters_leave_receiver doc this w :
  (forall id, newly_built (Elements.filterById doc this id) w) /\
  (forall className, newly_built (Elements.filterByClassName doc this className) w) /\
  (forall tagName, newly_built (Elements.filterByTagName doc this tagName) w) /\
  (forall name value operator,
     newly_built (Elements.filterByAttribute doc this name value operator) w) /\
  (forall scope selector, newly_built (getElements doc scope selector) w) /\
  (forall scope selector, newly_built (getElementsBySelector doc scope selector) w) /\
  (forall actions, arrays (Elements.action this actions w).2 = arrays w).
Proof.
  split_and!.
  - intros id. eapply builds_newly_built, filterById_builds.
  - intros className. eapply builds_newly_built, filterByClassName_builds.
  - intros tagName. eapply builds_newly_built, filterByTagName_builds.
  - intros name value operator. eapply builds_newly_built, filterByAttribute_builds.
  - intros scope selector.
    destruct (getElements_computes doc scope selector w) as (Ha & Hr & Hl).
    split; [by apply lookup_ge_None_2|]. split; [by eexists|].
    by apply allocates_untouched.
  - intros scope selector. eapply builds_newly_built, getElementsBySelector_builds.
  - intros actions. by rewrite action_run.
Qed.

(** The receiver of a filter after the call, on [page]. *)
Lemma filters_leave_receiver_witness :
  arrays divs_world !! 0 = Some [[0; 0]; [0; 1; 0; 0]; [1; 0]] /\
  arrays (Elements.filterById page 0 "a" divs_world).2 !! 0
  = Some [[0; 0]; [0; 1; 0; 0]; [1; 0]] /\
  arrays (Elements.filterByTagName page 0 "p" divs_world).2 !! 0
  = Some [[0; 0]; [0; 1; 0; 0]; [1; 0]].
Proof.
  pose proof (filters_leave_receiver page 0 divs_world) as (H1 & _ & H3 & _).
  split; [reflexivity|]. split.
  - destruct (H1 "a") as (_ & _ & U). apply U. reflexivity.
  - destruct (H3 "p") as (_ & _ & U). apply U. reflexivity.
Defined.

(** ** C2: malformed tokens *)

Section Malformed.

Variable doc : dom.
Variable this : scope.

Lemma select_malformed sel i filters w :
  test sel Pattern.selector 6 = None -> select doc this sel i filters w = (filters, w).
Proof. intros H. unfold select. by rewrite H. Qed.

(** Past index 0 the index plays no part. *)
Lemma select_later sel i j filters w :
  i <> 0 -> j <> 0 -> select doc this sel i filters w = select doc this sel j filters w.
Proof.
  intros Hi Hj. unfold select, candidates.
  by destruct i, j.
Qed.

Lemma each_token_later tokens i j filters w :
  i <> 0 -> j <> 0 ->
  each_token (select doc this) tokens i filters w
  = each_token (select doc this) tokens j filters w.
Proof.
  revert i j filters w.
  induction tokens as [|sel tokens IH]; intros i j filters w Hi Hj; [done|].
  simpl. rewrite !run_bind. rewrite (select_later sel i j) by done.
  by apply IH.
Qed.

Lemma each_token_without sel pre post i filters w :
  test sel Pattern.selector 6 = None ->
  pre <> [] \/ i <> 0 ->
  each_token (select doc this) (pre ++ sel :: post) i filters w
  = each_token (select doc this) (pre ++ post) i filters w.
Proof.
  intros Hbad. revert i filters w.
  induction pre as [|x pre IH]; intros i filters w H.
  - destruct H as [|Hi]; [done|]. simpl. rewrite run_bind, select_malformed by done.
    simpl. by apply each_token_later.
  - simpl. rewrite !run_bind. apply IH. by right.
Qed.

(** A later token on no candidates gives none: lines 132 to 136 only take
    elements below the candidates and filter them. *)
Lemma select_later_empty sel i :
  i <> 0 -> Pure.select doc this sel i [] = [].
Proof.
  intros Hi. unfold Pure.select.
  destruct (test sel Pattern.selector 6) as [bits|]; [|done].
  cbv zeta. generalize (Param.of_bits bits). intros param.
  destruct i as [|i]; [done|].
  unfold Pure.candidates, Pure.refine, Pure.filterByTagName.
  change (Nat.eqb (S i) 0) with false. cbv iota zeta.
  by destruct (truthy (Param.id param)), (truthy (Param.class param)),
    (truthy (Param.attribute param)).
Qed.

Lemma each_token_later_empty tokens i :
  i <> 0 -> Pure.each_token doc this tokens i [] = [].
Proof.
  revert i. induction tokens as [|sel tokens IH]; intros i Hi; [done|].
  simpl. rewrite select_later_empty by done. by apply IH.
Qed.

(** After a malformed first token nothing is selected. *)
Lemma malformed_first_empty selector bad post w :
  test bad Pattern.selector 6 = None ->
  split " " (clean selector) = bad :: post ->
  result_of (getElements doc this selector) w = [].
Proof.
  intros Hbad Hs.
  rewrite (result_of_computes _ _ _ (getElements_computes doc this selector w)).
  unfold Pure.getElements. rewrite Hs. simpl.
  unfold Pure.select at 1. rewrite Hbad. by apply each_token_later_empty.
Qed.

End Malformed.

(** C2, as stated, fails where the malformed token is the first one: the
    token [a[bad] is not matched by the selector pattern, and [a[bad div]
    selects nothing on [page], where [div] selects the three [div]
    elements.  The token is not skipped entirely: it still takes the place
    of the first token. *)
Lemma malformed_first_token_counterexample :
  test "a[bad" Pattern.selector 6 = None /\
  split " " (clean "a[bad div") = [] ++ "a[bad" :: ["div"] /\
  split " " (clean "div") = [] ++ ["div"] /\
  result_of (getElements page Document "a[bad div") empty_world = [] /\
  result_of (getElements page Document "div") empty_world
  = [[0; 0]; [0; 1; 0; 0]; [1; 0]] /\
  ~ (forall selector selector' bad pre post,
       test bad Pattern.selector 6 = None ->
       split " " (clean selector) = pre ++ bad :: post ->
       split " " (clean selector') = pre ++ post ->
       result_of (getElements page Document selector) empty_world
       = result_of (getElements page Document selector') empty_world).
Proof.
  split_and!; try reflexivity.
  intros H. specialize (H "a[bad div" "div" "a[bad" [] ["div"] eq_refl eq_refl eq_refl).
  vm_compute in H. discriminate H.
Qed.

(** C2, amended: the callback of line 118 returns at once on a token that
    the selector pattern does not match: the candidates and the store are
    as they were, at every index, and no error is raised.  A selector with
    such a token after its first token gives what the selector without it
    gives, and [getElements] on [div a[bad] does on every page, scope and
    store what it does on [div].  Such a token in the first place is not
    skipped in effect: the tokens after it are handled as later tokens, on
    no candidates, and the selector selects nothing. *)
Theorem malformed_token_skipped doc this w :
  (forall sel,
     test sel Pattern.selector 6 = None ->
     (forall i filters w', select doc this sel i filters w' = (filters, w')) /\
     (forall pre post filters w',
        pre <> [] ->
        each_token (select doc this) (pre ++ sel :: post) 0 filters w'
        = each_token (select doc this) (pre ++ post) 0 filters w')) /\
  (forall selector selector' bad pre post,
     test bad Pattern.selector 6 = None -> pre <> [] ->
     split " " (clean selector) = pre ++ bad :: post ->
     split " " (clean selector') = pre ++ post ->
     getElements doc this selector w = getElements doc this selector' w) /\
  (forall selector bad post,
     test bad Pattern.selector 6 = None ->
     split " " (clean selector) = bad :: post ->
     result_of (getElements doc this selector) w = []) /\
  test "a[bad" Pattern.selector 6 = None /\
  getElements doc this "div a[bad" w = getElements doc this "div" w /\
  result_of (getElements doc this "div a[bad") w
  = result_of (getElements doc this "div") w /\
  result_of (getElements doc this "a[bad div") w = [].
Proof.
  assert (Hbad : test "a[bad" Pattern.selector 6 = None) by reflexivity.
  assert (E : getElements doc this "div a[bad" w = getElements doc this "div" w).
  { unfold getElements. rewrite !run_bind.
    change (split " " (clean "div a[bad")) with (["div"] ++ "a[bad" :: []).
    change (split " " (clean "div")) with (["div"] ++ []).
    apply each_token_without; [done|by left]. }
  split_and!.
  - intros sel Hsel. split.
    + intros i filters w'. by apply select_malformed.
    + intros pre post filters w' Hpre. apply each_token_without; [done|by left].
  - intros selector selector' bad pre post Hb Hpre E1 E2.
    unfold getElements. rewrite !run_bind, E1, E2.
    apply each_token_without; [done|by left].
  - intros selector bad post Hb Hs. by eapply malformed_first_empty.
  - done.
  - done.
  - unfold result_of. by rewrite E.
  - by apply (malformed_first_empty doc this "a[bad div" "a[bad" ["div"]).
Qed.

Lemma malformed_token_skipped_witness :
  test "a[bad" Pattern.selector 6 = None /\
  select page Document "a[bad" 1 0 divs_world = (0, divs_world) /\
  result_of (getElements page Document "div a[bad") empty_world
  = [[0; 0]; [0; 1; 0; 0]; [1; 0]] /\
  result_of (getElements page Document "a[bad div") empty_world = [].
Proof.
  pose proof (malformed_token_skipped page Document empty_world)
    as (H1 & _ & _ & H2 & _ & H4 & H5).
  split; [exact H2|]. split; [|split].
  - exact (proj1 (H1 "a[bad" H2) 1 0 divs_world).
  - rewrite H4. reflexivity.
  - exact H5.
Defined.

(** ** C6: the first token *)

Section FirstToken.

Variable doc : dom.

Lemma node_walk e d : node doc e = Some d <-> (e, d) ∈ walk [] doc.
Proof.
  rewrite walk_elem. unfold node. split.
  - intros H. exists (rev e). by rewrite rev_involutive, app_nil_r.
  - intros (fw & -> & H). by rewrite app_nil_r, rev_involutive.
Qed.

(** The browser's lookup returns an element of the page with that id. *)
Lemma document_getElementById_id id el :
  document_getElementById doc id = Some el ->
  id <> "" /\ getAttribute doc el "id" = Some id.
Proof.
  unfold document_getElementById.
  destruct (String.eqb_spec id "") as [|Hne]; [done|]. intros H. split; [done|].
  apply head_Some_elem_of, list_elem_of_fmap in H as ([q d] & -> & H).
  apply list_elem_of_filter in H as [Hid Hw]. simpl in *.
  apply bool_decide_unpack in Hid. apply node_walk in Hw.
  unfold getAttribute. by rewrite Hw.
Qed.


(** The lookup of line 125 is the browser's, kept when the element is in
    the scope. *)
Lemma getElementById_scoped this id el :
  getElementById doc this id = Some el <->
  document_getElementById doc id = Some el /\ in_scope this el.
Proof.
  destruct this as [|a]; simpl.
  - tauto.
  - unfold Element_getElementById.
    destruct (document_getElementById doc id) as [e|]; [|by split; [|intros []]].
    destruct (below a e) eqn:Hb.
    + apply descendant_below in Hb. split.
      * by intros [= ->].
      * by intros [? _].
    + split; [done|]. intros [[= ->] Hd%descendant_below]. congruence.
Qed.

Lemma getElementsByTagName_scoped this tag e :
  e ∈ getElementsByTagName doc this tag <->
  in_scope this e /\ exists d, node doc e = Some d /\ tag_matches tag d.
Proof.
  destruct this as [|a].
  - rewrite getElementsByTagName_document. simpl. tauto.
  - apply getElementsByTagName_element.
Qed.

End FirstToken.



(** * Further properties of the code *)

(** ** Tokens that the selector pattern accepts *)

Section Accepts.

Implicit Types (t s : string) (k : mstate -> option mstate).

(** A greedy repetition takes a whole run of the class when the rest of
    the pattern succeeds after it. *)
Lemma star_all cls i t s' cs k r :
  all_in cls t = true -> stops cls s' = true ->
  k (MState (String.length t + i) s' cs) = Some r ->
  star cls i (t +:+ s') cs k = Some r.
Proof.
  revert i. induction t as [|c t IH]; intros i Ht Hs Hk.
  - change ("" +:+ s') with s'. destruct s' as [|c s']; [done|].
    simpl in *. by destruct (cls c).
  - rewrite append_cons. simpl in *. apply andb_true_iff in Ht as [Hc Ht].
    rewrite Hc, (IH (S i)); [done|done|done|].
    by rewrite Nat.add_succ_r.
Qed.

Lemma substring_all t : String.substring 0 (String.length t) t = t.
Proof. rewrite <- (append_nil_r t) at 2. apply substring_prefix. Qed.

Lemma word_not_space c : Chars.word_dash c = true -> Chars.space c = false.
Proof. destruct c as [[] [] [] [] [] [] [] []]; vm_compute; congruence. Qed.

Lemma name_no_space t : all_in Chars.word_dash t = true -> no_space t = true.
Proof.
  unfold no_space. induction t as [|c t IH]; simpl; [done|].
  intros [Hc Ht]%andb_true_iff. by rewrite (word_not_space c Hc), IH.
Qed.

Lemma word_word_dash t : word_string t = true -> all_in Chars.word_dash t = true.
Proof.
  unfold word_string. induction t as [|c t IH]; simpl; [done|].
  intros [Hc Ht]%andb_true_iff. rewrite IH by done.
  unfold Chars.word_dash. by rewrite Hc.
Qed.

(** A string without whitespace is its own single token. *)
Lemma tokens_no_space s : no_space s = true -> split " " (clean s) = [s].
Proof.
  intros H. assert (Hc : forall b, collapse b s = s).
  { revert H. unfold no_space. induction s as [|c s IH]; simpl; [done|].
    intros [Hc Hs]%andb_true_iff b. apply negb_true_iff in Hc.
    by rewrite Hc, IH. }
  assert (Hd : drop_last_space s = s).
  { revert H. unfold no_space. clear. induction s as [|c s IH]; [done|].
    intros H. simpl in H. apply andb_true_iff in H as [Hc Hs].
    destruct s as [|c' s].
    - apply negb_true_iff in Hc. unfold Chars.space in Hc.
      apply orb_false_elim in Hc as [Hc _].
      change (drop_last_space (String c ""))
        with (if Chars.one " " c then "" else String c "").
      by rewrite Hc.
    - change (drop_last_space (String c (String c' s)))
        with (String c (drop_last_space (String c' s))).
      by rewrite IH. }
  unfold clean. rewrite Hc, Hd. clear Hc Hd. revert H. unfold no_space.
  induction s as [|c s IH]; [done|].
  intros H. simpl in H. apply andb_true_iff in H as [Hc Hs].
  apply negb_true_iff in Hc.
  unfold Chars.space, Chars.one in Hc. apply orb_false_elim in Hc as [Hc _].
  rewrite Ascii.eqb_sym in Hc.
  change (split " " (String c s))
    with (if Ascii.eqb c " " then EmptyString :: split " " s
          else match split " " s with
               | w :: ws => String c w :: ws
               | [] => [String c EmptyString]
               end).
  by rewrite Hc, IH.
Qed.

(** The pattern on a plain tag: the tag is group 1, nothing else is set. *)
Lemma test_tag t :
  is_tag t = true ->
  test t Pattern.selector 6 = Some [Some t; Some t; None; None; None; None; None].
Proof.
  intros [Hne Hw]%andb_true_iff. unfold test. rewrite search_unfold.
  assert (E : exec Pattern.selector (start_at 0 t) Some
              = Some (MState (String.length t + 0) "" [(1, t)])).
  { unfold Pattern.selector. simpl.
    rewrite <- (append_nil_r t) at 1.
    erewrite star_all; [done|done|done|].
    simpl. unfold capture, consumed. simpl.
    by rewrite Nat.add_0_r, Nat.sub_0_r, substring_all. }
  rewrite E. unfold consumed. simpl.
  by rewrite Nat.add_0_r, Nat.sub_0_r, substring_all.
Qed.

(** The pattern on [#] and a name: the name is group 2. *)
Lemma test_id id :
  is_name id = true ->
  test (String "#" id) Pattern.selector 6
  = Some [Some (String "#" id); Some ""; Some id; None; None; None; None].
Proof.
  intros [Hne Hw]%andb_true_iff. unfold test. rewrite search_unfold.
  destruct id as [|c id]; [done|]. simpl in Hw.
  apply andb_true_iff in Hw as [Hc Hw].
  assert (E : exec Pattern.selector (start_at 0 (String "#" (String c id))) Some
              = Some (MState (String.length id + 2) ""
                        [(2, String c id); (1, "")])).
  { unfold Pattern.selector. simpl. rewrite Hc.
    rewrite <- (append_nil_r id) at 1.
    erewrite star_all; [done|done|done|].
    simpl. unfold capture, consumed. simpl.
    replace (String.length id + 2 - 1) with (S (String.length id)) by lia.
    simpl. by rewrite substring_all. }
  rewrite E. unfold consumed. simpl.
  replace (String.length id + 2 - 0) with (S (S (String.length id))) by lia.
  simpl. by rewrite substring_all.
Qed.

(** The pattern on a dot and a name: the name is group 3. *)
Lemma test_class cls :
  is_name cls = true ->
  test (String "." cls) Pattern.selector 6
  = Some [Some (String "." cls); Some ""; None; Some cls; None; None; None].
Proof.
  intros [Hne Hw]%andb_true_iff. unfold test. rewrite search_unfold.
  destruct cls as [|c cls]; [done|]. simpl in Hw.
  apply andb_true_iff in Hw as [Hc Hw].
  assert (E : exec Pattern.selector (start_at 0 (String "." (String c cls))) Some
              = Some (MState (String.length cls + 2) ""
                        [(3, String c cls); (1, "")])).
  { unfold Pattern.selector. simpl. rewrite Hc.
    rewrite <- (append_nil_r cls) at 1.
    erewrite star_all; [done|done|done|].
    simpl. unfold capture, consumed. simpl.
    replace (String.length cls + 2 - 1) with (S (String.length cls)) by lia.
    simpl. by rewrite substring_all. }
  rewrite E. unfold consumed. simpl.
  replace (String.length cls + 2 - 0) with (S (S (String.length cls))) by lia.
  simpl. by rewrite substring_all.
Qed.

End Accepts.

(** ** Selectors of one token *)

Section OneToken.

Variable doc : dom.
Implicit Types (this : scope) (w : world).

Lemma result_of_getElements this selector w :
  result_of (getElements doc this selector) w = Pure.getElements doc this selector.
Proof. apply result_of_computes, getElements_computes. Qed.

Lemma result_of_getElementsBySelector this selector w :
  result_of (getElementsBySelector doc this selector) w
  = Pure.getElementsBySelector doc this selector.
Proof. apply result_of_builds, getElementsBySelector_builds. Qed.

Lemma is_tag_no_space t : is_tag t = true -> no_space t = true.
Proof. intros [_ H]%andb_true_iff. by apply name_no_space, word_word_dash. Qed.

Lemma is_tag_truthy t : is_tag t = true -> truthy (Some t) = true.
Proof. by intros [H _]%andb_true_iff. Qed.

Lemma is_name_truthy t : is_name t = true -> truthy (Some t) = true.
Proof. by intros [H _]%andb_true_iff. Qed.

Lemma is_name_no_space c t : is_name t = true -> Chars.space c = false ->
  no_space (String c t) = true.
Proof.
  intros [_ H]%andb_true_iff Hc. unfold no_space. simpl. rewrite Hc. simpl.
  by apply name_no_space.
Qed.

Lemma of_bits_tag whole t a b c d e :
  truthy (Some t) = true ->
  Param.of_bits [whole; Some t; a; b; c; d; e] = Param.Make (Some t) a b c d e.
Proof.
  intros H. unfold Param.of_bits.
  change (item [whole; Some t; a; b; c; d; e] 1) with (Some t).
  by rewrite H.
Qed.

End OneToken.

(** X1: a selector that is a plain tag name gives, on any scope, the
    elements that the scope's own [getElementsByTagName] gives for that
    name, in the same order. *)
Theorem tag_selector doc this tag w :
  is_tag tag = true ->
  result_of (getElements doc this tag) w = getElementsByTagName doc this tag.
Proof.
  intros Ht. rewrite result_of_getElements. unfold Pure.getElements.
  rewrite tokens_no_space by (by apply is_tag_no_space).
  change (Pure.each_token doc this [tag] 0 []) with (Pure.select doc this tag 0 []).
  unfold Pure.select. rewrite test_tag by done.
  rewrite of_bits_tag by (by apply is_tag_truthy). reflexivity.
Qed.

Lemma tag_selector_witness :
  is_tag "div" = true /\
  result_of (getElements page Document "div") empty_world
  = getElementsByTagName page Document "div".
Proof.
  split; [reflexivity|].
  apply (tag_selector page Document "div" empty_world). reflexivity.
Defined.

(** X2: the selector [#] followed by a name gives the one element that the
    scoped lookup of that id finds, and nothing when the lookup finds
    none: no element with that id in the document, or the element found is
    not strictly inside the scope. *)
Theorem id_selector doc this id w :
  is_name id = true ->
  result_of (getElements doc this (String "#" id)) w
  = match getElementById doc this id with
    | Some el => [el]
    | None => []
    end
  /\ (forall el,
        el ∈ result_of (getElements doc this (String "#" id)) w <->
        document_getElementById doc id = Some el /\ in_scope this el).
Proof.
  intros Hn.
  assert (E : result_of (getElements doc this (String "#" id)) w
              = match getElementById doc this id with
                | Some el => [el]
                | None => []
                end).
  { rewrite result_of_getElements. unfold Pure.getElements.
    rewrite tokens_no_space by (by apply is_name_no_space).
    change (Pure.each_token doc this [String "#" id] 0 [])
      with (Pure.select doc this (String "#" id) 0 []).
    unfold Pure.select. rewrite test_id by done.
    change (Param.of_bits [Some (String "#" id); Some ""; Some id; None; None; None; None])
      with (Param.Make (Some "*") (Some id) None None None None).
    unfold Pure.candidates.
    change (Param.id (Param.Make (Some "*") (Some id) None None None None))
      with (Some id).
    rewrite (is_name_truthy _ Hn).
    change (Nat.eqb 0 0) with true. cbv iota.
    change (to_str (Some id)) with id.
    by destruct (getElementById doc this id). }
  split; [done|]. intros el. rewrite E, <- getElementById_scoped.
  destruct (getElementById doc this id) as [x|].
  - rewrite list_elem_of_singleton. split; [by intros ->|by intros [= ->]].
  - split; [by intros ?%elem_of_nil|done].
Qed.

Lemma id_selector_witness :
  is_name "a" = true /\
  result_of (getElements page Document "#a") empty_world = [[0; 0]] /\
  result_of (getElements page (Element [0; 0]) "#a") empty_world = [].
Proof.
  split; [reflexivity|].
  pose proof (id_selector page Document "a" empty_world eq_refl) as [H1 _].
  pose proof (id_selector page (Element [0; 0]) "a" empty_world eq_refl) as [H2 _].
  split; [exact H1|exact H2].
Defined.

(** X3: [document.getElementsByClassName] with a class name gives the
    elements of the whole document that carry the class, in document
    order. *)
Theorem getElementsByClassName_all doc className w :
  is_name className = true ->
  result_of (document_getElementsByClassName doc className) w
  = filter (fun el => hasClass doc el className) (getElementsByTagName doc Document "*")
  /\ (forall el,
        el ∈ result_of (document_getElementsByClassName doc className) w <->
        (exists d, node doc el = Some d) /\ hasClass doc el className = true).
Proof.
  intros Hn.
  assert (E : result_of (document_getElementsByClassName doc className) w
              = filter (fun el => hasClass doc el className)
                       (getElementsByTagName doc Document "*")).
  { unfold document_getElementsByClassName.
    change ("." +:+ className) with (String "." className).
    rewrite result_of_getElements. unfold Pure.getElements.
    rewrite tokens_no_space by (by apply is_name_no_space).
    change (Pure.each_token doc Document [String "." className] 0 [])
      with (Pure.select doc Document (String "." className) 0 []).
    unfold Pure.select. rewrite test_class by done.
    change (Param.of_bits [Some (String "." className); Some ""; None;
                           Some className; None; None; None])
      with (Param.Make (Some "*") None (Some className) None None None).
    change (Pure.candidates doc Document
              (Param.Make (Some "*") None (Some className) None None None) 0 [])
      with (Some (getElementsByTagName doc Document "*")).
    unfold Pure.refine.
    change (Param.class (Param.Make (Some "*") None (Some className) None None None))
      with (Some className).
    by rewrite (is_name_truthy _ Hn). }
  split; [done|]. intros el.
  rewrite E, list_elem_of_filter, getElementsByTagName_document, Is_true_true.
  split.
  - intros (Hc & d & Hd & _). split; [by exists d|done].
  - intros ((d & Hd) & Hc). split; [done|]. by exists d.
Qed.

Lemma getElementsByClassName_all_witness :
  is_name "y" = true /\
  result_of (document_getElementsByClassName page "y") empty_world
  = [[0; 0; 0]; [1; 0]].
Proof.
  split; [reflexivity|].
  pose proof (getElementsByClassName_all page "y" empty_world eq_refl) as [H _].
  rewrite H. reflexivity.
Defined.

(** X4: the empty selector takes every element inside the scope, and so
    does an empty part of a comma-separated selector: a selector that ends
    in a comma gives its results followed by every element inside the
    scope. *)
Theorem empty_selector doc this w :
  result_of (getElements doc this "") w = getElementsByTagName doc this "*"
  /\ result_of (getElementsBySelector doc this "") w = getElementsByTagName doc this "*"
  /\ (forall selector,
        result_of (getElementsBySelector doc this (selector +:+ ",")) w
        = result_of (getElementsBySelector doc this selector) w
          ++ getElementsByTagName doc this "*").
Proof.
  assert (E : Pure.getElements doc this "" = getElementsByTagName doc this "*")
    by reflexivity.
  split_and!.
  - by rewrite result_of_getElements.
  - rewrite result_of_getElementsBySelector. unfold Pure.getElementsBySelector.
    simpl. by rewrite E, app_nil_r.
  - intros selector. rewrite !result_of_getElementsBySelector.
    unfold Pure.getElementsBySelector.
    change (selector +:+ ",") with (selector +:+ String "," "").
    rewrite split_append, bind_app. f_equal. simpl. by rewrite E, app_nil_r.
Qed.

(** ** Results and the scope *)

Section Scope.

Variable doc : dom.
Implicit Types (this : scope) (l : list element) (e a : element).

Lemma descendant_trans a b e : descendant a b -> descendant b e -> descendant a e.
Proof.
  intros (s1 & H1 & ->) (s2 & H2 & ->). exists (s2 ++ s1).
  split; [by destruct s2|by rewrite app_assoc].
Qed.

Lemma in_scope_below this a e : in_scope this a -> descendant a e -> in_scope this e.
Proof. destruct this; simpl; [done|]. apply descendant_trans. Qed.

Lemma refine_subseteq param l e : e ∈ Pure.refine doc param l -> e ∈ l.
Proof.
  unfold Pure.refine.
  destruct (truthy (Param.class param)), (truthy (Param.attribute param));
    rewrite ?list_elem_of_filter; tauto.
Qed.

Lemma select_inside this sel i l :
  (forall e, e ∈ l -> in_scope this e /\ exists d, node doc e = Some d) ->
  forall e, e ∈ Pure.select doc this sel i l ->
            in_scope this e /\ exists d, node doc e = Some d.
Proof.
  intros Hl e. unfold Pure.select.
  destruct (test sel Pattern.selector 6) as [bits|]; [|by apply Hl].
  destruct (Pure.candidates doc this (Param.of_bits bits) i l) as [c|] eqn:Hc;
    [|by apply Hl].
  intros He%refine_subseteq. revert Hc. unfold Pure.candidates.
  destruct (Nat.eqb i 0).
  - destruct (truthy (Param.id (Param.of_bits bits))).
    + destruct (getElementById doc this _) as [el|] eqn:Hel; [|done].
      destruct (_ && _); [done|]. intros [= <-].
      apply list_elem_of_singleton in He as ->.
      apply getElementById_scoped in Hel as [Hd Hs]. split; [done|].
      apply document_getElementById_id in Hd as [_ Ha].
      unfold getAttribute in Ha. destruct (node doc el) as [d|]; [by exists d|done].
    + intros [= <-]. apply getElementsByTagName_scoped in He as (Hs & d & Hd & _).
      split; [done|by exists d].
  - assert (Hb : forall x tag, x ∈ Pure.filterByTagName doc l tag ->
                   in_scope this x /\ exists d, node doc x = Some d).
    { intros x tag (a & Hx & Ha)%list_elem_of_bind.
      apply getElementsByTagName_element in Hx as (Hd & d & Hn & _).
      split; [|by exists d]. eapply in_scope_below; [|done]. by apply Hl. }
    destruct (truthy (Param.id (Param.of_bits bits))); intros [= <-].
    + apply list_elem_of_filter in He as [_ He]. by eapply Hb.
    + by eapply Hb.
Qed.

Lemma each_token_inside this tokens : forall i l,
  (forall e, e ∈ l -> in_scope this e /\ exists d, node doc e = Some d) ->
  forall e, e ∈ Pure.each_token doc this tokens i l ->
            in_scope this e /\ exists d, node doc e = Some d.
Proof.
  induction tokens as [|sel tokens IH]; intros i l Hl e; simpl; [by apply Hl|].
  apply IH. by apply select_inside.
Qed.

Lemma getElements_inside this selector e :
  e ∈ Pure.getElements doc this selector ->
  in_scope this e /\ exists d, node doc e = Some d.
Proof. apply each_token_inside. by intros x ?%elem_of_nil. Qed.

(** What an element's own list holds is in the document's list, in the
    same order. *)
Lemma walk_child_sublist p i cs j c :
  cs !! j = Some c -> walk ((i + j) :: p) c `sublist_of` walk_children p i cs.
Proof.
  revert i j. induction cs as [|x cs IH]; intros i j Hj; [done|]. simpl.
  destruct j as [|j]; simpl in Hj.
  - injection Hj as ->. rewrite Nat.add_0_r. by apply sublist_inserts_r.
  - apply sublist_inserts_l. rewrite <- Nat.add_succ_comm. by apply IH.
Qed.

Lemma walk_descend_sublist fw : forall d p d',
  descend d fw = Some d' -> walk (rev fw ++ p) d' `sublist_of` walk p d.
Proof.
  induction fw as [|j fw IH]; intros d p d' H; simpl in H.
  - by injection H as ->.
  - destruct (childNodes d !! j) as [c|] eqn:Hj; [|done].
    simpl. rewrite <- app_assoc. simpl.
    etrans; [by apply IH|]. rewrite (walk_unfold p d).
    apply sublist_cons. by apply (walk_child_sublist p 0).
Qed.

Lemma getElementsByTagName_sublist a tag :
  getElementsByTagName doc (Element a) tag
  `sublist_of` getElementsByTagName doc Document tag.
Proof.
  unfold getElementsByTagName.
  destruct (node doc a) as [d|] eqn:Ha; [|apply sublist_nil_l].
  assert (H : walk_children a 0 (childNodes d) `sublist_of` walk [] doc).
  { etrans; [|apply (walk_descend_sublist (rev a) doc [] d Ha)].
    rewrite rev_involutive, app_nil_r, (walk_unfold a d). by apply sublist_cons. }
  apply fmap_sublist. revert H. generalize (walk_children a 0 (childNodes d)).
  generalize (walk [] doc). clear. intros l2 l1 H.
  induction H as [|x l1 l2 H IH|x l1 l2 H IH]; [done| |].
  - rewrite !filter_cons. destruct (decide _); [by apply sublist_skip|done].
  - rewrite filter_cons. destruct (decide _); [by apply sublist_cons|done].
Qed.

Lemma filter_sublist_mono (P : element -> bool) l1 l2 :
  l1 `sublist_of` l2 -> filter P l1 `sublist_of` filter P l2.
Proof.
  induction 1 as [|x l1 l2 H IH|x l1 l2 H IH]; [done| |].
  - rewrite !filter_cons. destruct (decide _); [by apply sublist_skip|done].
  - rewrite filter_cons. destruct (decide _); [by apply sublist_cons|done].
Qed.

Lemma refine_sublist param l1 l2 :
  l1 `sublist_of` l2 -> Pure.refine doc param l1 `sublist_of` Pure.refine doc param l2.
Proof.
  intros H. unfold Pure.refine.
  destruct (truthy (Param.class param)), (truthy (Param.attribute param));
    auto using filter_sublist_mono.
Qed.

(** A later token keeps the order between two candidate lists. *)
Lemma select_later_sublist this this' sel i l1 l2 :
  i <> 0 -> l1 `sublist_of` l2 ->
  Pure.select doc this sel i l1 `sublist_of` Pure.select doc this' sel i l2.
Proof.
  intros Hi H. unfold Pure.select.
  destruct (test sel Pattern.selector 6) as [bits|]; [|done].
  generalize (Param.of_bits bits). intros param.
  unfold Pure.candidates. destruct i; [done|].
  change (Nat.eqb (S i) 0) with false. cbv iota.
  assert (Hb : forall tag, Pure.filterByTagName doc l1 tag
                           `sublist_of` Pure.filterByTagName doc l2 tag).
  { intros tag. unfold Pure.filterByTagName. by apply bind_sublist. }
  destruct (truthy (Param.id param));
    apply refine_sublist; [apply filter_sublist_mono|]; apply Hb.
Qed.

Lemma select_first_sublist a sel :
  Pure.select doc (Element a) sel 0 [] `sublist_of` Pure.select doc Document sel 0 [].
Proof.
  unfold Pure.select.
  destruct (test sel Pattern.selector 6) as [bits|]; [|done].
  generalize (Param.of_bits bits). intros param.
  unfold Pure.candidates. change (Nat.eqb 0 0) with true. cbv iota.
  destruct (truthy (Param.id param)).
  - unfold getElementById, Element_getElementById.
    destruct (document_getElementById doc _) as [el|]; [|done].
    destruct (below a el); [done|]. apply sublist_nil_l.
  - apply refine_sublist, getElementsByTagName_sublist.
Qed.

Lemma each_token_sublist this this' tokens : forall i l1 l2,
  i <> 0 -> l1 `sublist_of` l2 ->
  Pure.each_token doc this tokens i l1 `sublist_of` Pure.each_token doc this' tokens i l2.
Proof.
  induction tokens as [|sel tokens IH]; intros i l1 l2 Hi H; simpl; [done|].
  apply IH; [done|]. by apply select_later_sublist.
Qed.

Lemma getElements_sublist a selector :
  Pure.getElements doc (Element a) selector
  `sublist_of` Pure.getElements doc Document selector.
Proof.
  unfold Pure.getElements. destruct (split " " (clean selector)) as [|sel tokens]; [done|].
  simpl. apply each_token_sublist; [done|]. apply select_first_sublist.
Qed.

End Scope.

Lemma getElement_run doc this selector w :
  (getElement doc this selector w).1
  = result_of (getElementsBySelector doc this selector) w !! 0.
Proof. unfold getElement. rewrite run_bind, run_bind. reflexivity. Qed.

Lemma getElementsBySelector_inside doc this selector e :
  e ∈ Pure.getElementsBySelector doc this selector ->
  in_scope this e /\ exists d, node doc e = Some d.
Proof. intros (sel & He & _)%list_elem_of_bind. by eapply getElements_inside. Qed.

Lemma getElementsBySelector_sublist doc a selector :
  Pure.getElementsBySelector doc (Element a) selector
  `sublist_of` Pure.getElementsBySelector doc Document selector.
Proof.
  unfold Pure.getElementsBySelector.
  induction (split "," selector) as [|sel sels IH]; [done|].
  rewrite !bind_cons. apply sublist_app; [apply getElements_sublist|done].
Qed.

(** X5: every element that a query returns is an element of the page
    inside the scope of the query: any element for the document, an
    element strictly below the scope element otherwise; the scope element
    itself is never returned. *)
Theorem results_in_scope doc this selector w :
  (forall e, e ∈ result_of (getElements doc this selector) w ->
             in_scope this e /\ exists d, node doc e = Some d) /\
  (forall e, e ∈ result_of (getElementsBySelector doc this selector) w ->
             in_scope this e /\ exists d, node doc e = Some d) /\
  (forall e, (getElement doc this selector w).1 = Some e ->
             in_scope this e /\ exists d, node doc e = Some d) /\
  (forall a, this = Element a ->
             a ∉ result_of (getElementsBySelector doc this selector) w).
Proof.
  assert (H2 : forall e, e ∈ result_of (getElementsBySelector doc this selector) w ->
                         in_scope this e /\ exists d, node doc e = Some d).
  { intros e. rewrite result_of_getElementsBySelector.
    apply getElementsBySelector_inside. }
  split_and!.
  - intros e. rewrite result_of_getElements. apply getElements_inside.
  - done.
  - intros e He. apply H2. rewrite getElement_run in He.
    by eapply list_elem_of_lookup_2.
  - intros a -> Ha. apply H2 in Ha as [Hd _]. by apply descendant_irrefl in Hd.
Qed.

(** X6: narrowing the scope never adds results: what a selector gives on
    an element is, in the same order, part of what it gives on the
    document. *)
Theorem scope_narrows doc a selector w :
  result_of (getElements doc (Element a) selector) w
  `sublist_of` result_of (getElements doc Document selector) w
  /\ result_of (getElementsBySelector doc (Element a) selector) w
     `sublist_of` result_of (getElementsBySelector doc Document selector) w.
Proof.
  rewrite !result_of_getElements, !result_of_getElementsBySelector. split.
  - apply getElements_sublist.
  - apply getElementsBySelector_sublist.
Qed.

(** ** Tokens after the first *)

Section LaterTokens.

Variable doc : dom.
Implicit Types (this : scope) (l : list element).

Lemma each_token_app this pre post : forall i l,
  Pure.each_token doc this (pre ++ post) i l
  = Pure.each_token doc this post (length pre + i) (Pure.each_token doc this pre i l).
Proof.
  induction pre as [|sel pre IH]; intros i l; simpl; [done|].
  by rewrite IH, Nat.add_succ_r.
Qed.

Lemma split_nonempty sep s : split sep s <> [].
Proof.
  destruct s as [|c s]; simpl; [done|].
  destruct (Ascii.eqb c sep); [done|]. by destruct (split sep s).
Qed.

Lemma select_tag_later this tag i l :
  is_tag tag = true -> i <> 0 ->
  Pure.select doc this tag i l = Pure.filterByTagName doc l tag.
Proof.
  intros Ht Hi. unfold Pure.select. rewrite test_tag by done.
  rewrite of_bits_tag by (by apply is_tag_truthy).
  unfold Pure.candidates. destruct i; [done|]. reflexivity.
Qed.

End LaterTokens.

(** X7: a plain tag name added as the last token of a selector replaces
    each result of the selector by the elements strictly below it that have
    the tag, in order: the descendant combinator.  An element below two
    results is taken once for each. *)
Theorem descendant_token doc this selector1 selector tag w :
  is_tag tag = true ->
  split " " (clean selector) = split " " (clean selector1) ++ [tag] ->
  result_of (getElements doc this selector) w
  = result_of (getElements doc this selector1) w
    ≫= (fun a => getElementsByTagName doc (Element a) tag)
  /\ (forall e,
        e ∈ result_of (getElements doc this selector) w <->
        exists a, a ∈ result_of (getElements doc this selector1) w /\
                  descendant a e /\
                  exists d, node doc e = Some d /\ tag_matches tag d).
Proof.
  intros Ht Hs.
  assert (E : result_of (getElements doc this selector) w
              = result_of (getElements doc this selector1) w
                ≫= (fun a => getElementsByTagName doc (Element a) tag)).
  { rewrite !result_of_getElements. unfold Pure.getElements.
    rewrite Hs, each_token_app.
    change (Pure.each_token doc this [tag] ?i ?l) with (Pure.select doc this tag i l).
    rewrite select_tag_later; [done|done|].
    pose proof (split_nonempty " " (clean selector1)).
    destruct (split " " (clean selector1)); [done|]. simpl. lia. }
  split; [done|]. intros e. rewrite E, list_elem_of_bind. split.
  - intros (a & He & Ha). exists a. split; [done|].
    by apply getElementsByTagName_element.
  - intros (a & Ha & He). exists a. split; [|done].
    by apply getElementsByTagName_element.
Qed.

Lemma descendant_token_witness :
  is_tag "p" = true /\
  split " " (clean "div p") = split " " (clean "div") ++ ["p"] /\
  result_of (getElements page Document "div p") empty_world
  = result_of (getElements page Document "div") empty_world
    ≫= (fun a => getElementsByTagName page (Element a) "p").
Proof.
  split; [reflexivity|]. split; [reflexivity|].
  apply (descendant_token page Document "div" "div p" "p" empty_world); reflexivity.
Defined.

(** ** More on action *)

Section ActionMore.

Implicit Types (w : world) (this : ref) (l : list element)
  (actions : list (string * fn)) (p : gmap (element * string) fn).



End ActionMore.

(** X8: [action] on an empty set, and [action] with an empty handlers
    object, change nothing: no call, no property, no listener. *)
Theorem action_nothing this actions w :
  items w this = [] \/ actions = [] ->
  Elements.action this actions w = (tt, w).
Proof.
  intros H. rewrite action_run. f_equal. destruct w as [h p ls c]. simpl.
  destruct H as [H | ->].
  - rewrite H. simpl. unfold init_calls.
    destruct (Elements.property _ _); simpl; by rewrite !app_nil_r.
  - assert (E1 : forall l, foldl (assign_all []) p l = p) by (by induction l).
    assert (E2 : forall l : list element,
               l ≫= (fun el => [] ≫= listener_of el) = []) by (by induction l).
    rewrite E1, E2. unfold init_calls. simpl. by rewrite !app_nil_r.
Qed.

Lemma action_nothing_witness :
  (items empty_world 0 = [] \/ [("onclick", 1)] = []) /\
  Elements.action 0 [("onclick", 1)] empty_world = (tt, empty_world).
Proof.
  split; [left; reflexivity|].
  apply (action_nothing 0 [("onclick", 1)] empty_world). left. reflexivity.
Defined.


(** ** The global functions *)

Section Global.

Variable doc : dom.
Implicit Types (w : world) (args : list arg).

(** The loop of lines 36 to 39. *)
Lemma dollar_S_loop args h acc temps w :
  arrays w = h ++ acc :: temps ->
  exists temps',
    let w' := (for_each
                 (fun sel =>
                    match sel with
                    | Str s => found ← getElementsBySelector doc Document s;
                               extend (length h) found
                    | Node (Element e) => array_push (length h) e
                    | Node Document => mret tt
                    | Undefined => mret tt
                    end) args w).2 in
    arrays w' = h ++ (acc ++ (args ≫= selected doc)) :: temps' /\
    props w' = props w /\ listeners w' = listeners w /\ calls w' = calls w.
Proof.
  revert acc temps w. induction args as [|sel args IH]; intros acc temps w Hw.
  - exists temps. simpl. by rewrite app_nil_r.
  - rewrite for_each_cons. rewrite bind_cons.
    destruct sel as [|s|[|e]].
    + rewrite run_ret. destruct (IH _ _ _ Hw) as (temps' & E). by exists temps'.
    + pose proof (getElementsBySelector_builds doc Document s w)
        as (Hr & [more Hm] & Hp & Hl & Hc).
      set (step := (found ← getElementsBySelector doc Document s;
                    extend (length h) found) w).
      assert (Hstep : step.2 = with_arrays
                (alter (fun l0 => l0 ++ Pure.getElementsBySelector doc Document s)
                       (length h))
                (getElementsBySelector doc Document s w).2).
      { subst step. rewrite run_bind, extend_run. simpl. unfold items.
        by rewrite Hr, Hm, list_lookup_middle. }
      assert (Hw2 : arrays step.2
                    = h ++ (acc ++ Pure.getElementsBySelector doc Document s)
                        :: (temps ++ Pure.getElementsBySelector doc Document s :: more)).
      { rewrite Hstep. simpl. rewrite Hm, Hw, <- app_assoc. simpl.
        replace (length h) with (length h + 0) at 1 by lia.
        by rewrite alter_app_r. }
      destruct (IH _ _ _ Hw2) as (temps' & E & E1 & E2 & E3).
      exists temps'. cbv zeta. rewrite E, E1, E2, E3, Hstep. simpl.
      rewrite <- app_assoc. by split_and!.
    + rewrite run_ret. destruct (IH _ _ _ Hw) as (temps' & E). by exists temps'.
    + assert (Hw2 : arrays (array_push (length h) e w).2
                    = h ++ (acc ++ [e]) :: temps).
      { simpl. rewrite Hw. replace (length h) with (length h + 0) at 1 by lia.
        by rewrite alter_app_r. }
      destruct (IH _ _ _ Hw2) as (temps' & E & E1 & E2 & E3).
      exists temps'. cbv zeta. rewrite E, E1, E2, E3. simpl.
      rewrite <- app_assoc. by split_and!.
Qed.

Lemma dollar_S_builds args w :
  builds (dollar_S doc args) w (args ≫= selected doc).
Proof.
  unfold builds, dollar_S. rewrite run_bind.
  unfold array_new at 1 2. simpl. rewrite run_bind. simpl.
  destruct (dollar_S_loop args (arrays w) [] []
              (with_arrays (fun h => h ++ [[]]) w) eq_refl)
    as (temps' & E & ? & ? & ?).
  simpl in *. split; [done|]. split; [|done]. by exists temps'.
Qed.

End Global.

(** X10: [$S] gives, in a new array, what its arguments select, one
    argument after the other: the whole-document results of each selector
    string and each element passed as itself, with nothing removed.  With
    one selector string it gives what [$ES] gives for that string and no
    filter.  The statement is for selector strings that are not empty:
    what [$type] makes of the empty string is not in the text that
    [dollar_S] is modelled from. *)
Theorem dollar_S_concat doc w args1 args2 :
  Forall (fun a => a <> Str "") (args1 ++ args2) ->
  newly_built (dollar_S doc (args1 ++ args2)) w /\
  result_of (dollar_S doc (args1 ++ args2)) w
  = result_of (dollar_S doc args1) w ++ result_of (dollar_S doc args2) w /\
  result_of (dollar_S doc (args1 ++ args2)) w
  = (args1 ++ args2) ≫= (fun sel => result_of (dollar_S doc [sel]) w) /\
  (forall sel,
     Str sel ∈ args1 ++ args2 ->
     result_of (dollar_S doc [Str sel]) w = result_of (dollar_ES doc sel Undefined) w) /\
  (forall e,
     Node (Element e) ∈ args1 ++ args2 ->
     result_of (dollar_S doc [Node (Element e)]) w = [e]).
Proof.
  intros _.
  assert (E : forall args, result_of (dollar_S doc args) w = args ≫= selected doc).
  { intros args. apply result_of_builds, dollar_S_builds. }
  split_and!.
  - eapply builds_newly_built, dollar_S_builds.
  - by rewrite !E, bind_app.
  - rewrite E. induction (args1 ++ args2) as [|sel args IH]; [done|].
    rewrite !bind_cons, IH, E. simpl. by rewrite app_nil_r.
  - intros sel _. rewrite E. unfold dollar_ES. simpl.
    rewrite result_of_getElementsBySelector. apply app_nil_r.
  - intros e _. by rewrite E.
Qed.

Lemma dollar_S_concat_witness :
  Forall (fun a => a <> Str "") ([Str "a"] ++ [Node (Element [0; 0])]) /\
  result_of (dollar_S page ([Str "a"] ++ [Node (Element [0; 0])])) empty_world
  = result_of (dollar_S page [Str "a"]) empty_world
    ++ result_of (dollar_S page [Node (Element [0; 0])]) empty_world.
Proof.
  assert (H : Forall (fun a => a <> Str "") ([Str "a"] ++ [Node (Element [0; 0])])).
  { by repeat constructor. }
  split; [exact H|].
  exact (proj1 (proj2 (dollar_S_concat page empty_world [Str "a"] [Node (Element [0; 0])] H))).
Defined.

(** X11: a filter only narrows: [$ES] with any filter gives, in the same
    order, part of what it gives with none.  A filter that names no
    element of the page leaves the scope the whole document; a filter that
    names an element restricts the results to the elements strictly below
    it. *)
Theorem filter_narrows doc selector w :
  (forall filter,
     result_of (dollar_ES doc selector filter) w
     `sublist_of` result_of (dollar_ES doc selector Undefined) w) /\
  (forall id,
     document_getElementById doc id = None ->
     dollar_ES doc selector (Str id) w = dollar_ES doc selector Undefined w /\
     dollar_E doc selector (Str id) w = dollar_E doc selector Undefined w) /\
  (forall id a e,
     document_getElementById doc id = Some a ->
     e ∈ result_of (dollar_ES doc selector (Str id)) w -> descendant a e) /\
  (forall a e,
     e ∈ result_of (dollar_ES doc selector (Node (Element a))) w -> descendant a e) /\
  (forall filter e,
     (dollar_E doc selector filter w).1 = Some e ->
     e ∈ result_of (dollar_ES doc selector filter) w).
Proof.
  split_and!.
  - intros filter. unfold dollar_ES, scope_of.
    destruct (dollar doc filter) as [a|]; simpl; [|done].
    rewrite !result_of_getElementsBySelector. apply getElementsBySelector_sublist.
  - intros id Hid. unfold dollar_ES, dollar_E, scope_of. simpl. by rewrite Hid.
  - intros id a e Hid. unfold dollar_ES, scope_of. simpl. rewrite Hid.
    rewrite result_of_getElementsBySelector.
    by intros [? _]%getElementsBySelector_inside.
  - intros a e. unfold dollar_ES, scope_of. simpl.
    rewrite result_of_getElementsBySelector.
    by intros [? _]%getElementsBySelector_inside.
  - intros filter e He. unfold dollar_E in He. rewrite getElement_run in He.
    by eapply list_elem_of_lookup_2.
Qed.

(** ** The filters that keep a part of the set *)

Section SameSet.

Variable doc : dom.
Implicit Types (w : world) (this : ref) (l : list element) (P Q : element -> bool).

Lemma filter_twice P l : filter P (filter P l) = filter P l.
Proof. apply list_filter_filter_l. tauto. Qed.

Lemma filter_swap P Q l : filter P (filter Q l) = filter Q (filter P l).
Proof. rewrite !list_filter_filter. apply list_filter_iff. tauto. Qed.

Lemma builds_items (m : M ref) w l : builds m w l -> items (m w).2 (m w).1 = l.
Proof. intros H. by apply lookup_items, builds_lookup. Qed.

Lemma filterById_result this id w :
  result_of (Elements.filterById doc this id) w
  = filter (fun el => String.eqb (id_of doc el) id) (items w this).
Proof. apply result_of_builds, filterById_builds. Qed.

Lemma filterByClassName_result this className w :
  result_of (Elements.filterByClassName doc this className) w
  = filter (fun el => hasClass doc el className) (items w this).
Proof. apply result_of_builds, filterByClassName_builds. Qed.

Lemma filterByAttribute_result this name value operator w :
  result_of (Elements.filterByAttribute doc this name value operator) w
  = filter (fun el => Elements.attribute_passes doc el name value operator) (items w this).
Proof. apply result_of_builds, filterByAttribute_builds. Qed.

End SameSet.

(** X12: [filterById], [filterByClassName] and [filterByAttribute] keep a
    part of the set in its order and add nothing; [filterById] keeps the
    elements whose id is the given one; and a filter applied to its own
    result gives that result again. *)
Theorem filters_keep_part doc this w :
  (forall id,
     result_of (Elements.filterById doc this id) w `sublist_of` items w this /\
     (forall e, e ∈ result_of (Elements.filterById doc this id) w <->
                e ∈ items w this /\ id_of doc e = id) /\
     result_of (Elements.filterById doc (Elements.filterById doc this id w).1 id)
               (Elements.filterById doc this id w).2
     = result_of (Elements.filterById doc this id) w) /\
  (forall className,
     result_of (Elements.filterByClassName doc this className) w
     `sublist_of` items w this /\
     (forall e, e ∈ result_of (Elements.filterByClassName doc this className) w <->
                e ∈ items w this /\ hasClass doc e className = true) /\
     result_of (Elements.filterByClassName doc
                  (Elements.filterByClassName doc this className w).1 className)
               (Elements.filterByClassName doc this className w).2
     = result_of (Elements.filterByClassName doc this className) w) /\
  (forall name value operator,
     result_of (Elements.filterByAttribute doc this name value operator) w
     `sublist_of` items w this /\
     result_of (Elements.filterByAttribute doc
                  (Elements.filterByAttribute doc this name value operator w).1
                  name value operator)
               (Elements.filterByAttribute doc this name value operator w).2
     = result_of (Elements.filterByAttribute doc this name value operator) w).
Proof.
  split_and!.
  - intros id. split_and!.
    + rewrite filterById_result. apply sublist_filter.
    + intros e. rewrite filterById_result, list_elem_of_filter, Is_true_true.
      rewrite String.eqb_eq. tauto.
    + rewrite !filterById_result, (builds_items _ _ _ (filterById_builds doc this id w)).
      apply filter_twice.
  - intros className. split_and!.
    + rewrite filterByClassName_result. apply sublist_filter.
    + intros e. rewrite filterByClassName_result, list_elem_of_filter, Is_true_true.
      tauto.
    + rewrite !filterByClassName_result,
        (builds_items _ _ _ (filterByClassName_builds doc this className w)).
      apply filter_twice.
  - intros name value operator. split.
    + rewrite filterByAttribute_result. apply sublist_filter.
    + rewrite !filterByAttribute_result,
        (builds_items _ _ _ (filterByAttribute_builds doc this name value operator w)).
      apply filter_twice.
Qed.

(** X13: the order in which [filterById], [filterByClassName] and
    [filterByAttribute] are chained does not change the result. *)
Theorem filters_commute doc this w id className name value operator :
  result_of (Elements.filterByClassName doc (Elements.filterById doc this id w).1 className)
            (Elements.filterById doc this id w).2
  = result_of (Elements.filterById doc
                 (Elements.filterByClassName doc this className w).1 id)
              (Elements.filterByClassName doc this className w).2
  /\ result_of (Elements.filterByAttribute doc (Elements.filterById doc this id w).1
                  name value operator)
               (Elements.filterById doc this id w).2
     = result_of (Elements.filterById doc
                    (Elements.filterByAttribute doc this name value operator w).1 id)
                 (Elements.filterByAttribute doc this name value operator w).2
  /\ result_of (Elements.filterByAttribute doc
                  (Elements.filterByClassName doc this className w).1
                  name value operator)
               (Elements.filterByClassName doc this className w).2
     = result_of (Elements.filterByClassName doc
                    (Elements.filterByAttribute doc this name value operator w).1
                    className)
                 (Elements.filterByAttribute doc this name value operator w).2.
Proof.
  rewrite !filterById_result, !filterByClassName_result, !filterByAttribute_result.
  rewrite (builds_items _ _ _ (filterById_builds doc this id w)).
  rewrite (builds_items _ _ _ (filterByClassName_builds doc this className w)).
  rewrite (builds_items _ _ _ (filterByAttribute_builds doc this name value operator w)).
  split_and!; apply filter_swap.
Qed.

(** ** The selector pattern on the tokens it is meant for *)

Section Tokens.

Implicit Types (t s : string) (k : mstate -> option mstate).

Lemma or_else_Some {A} (x y : option A) r : x = Some r -> or_else x y = Some r.
Proof. by intros ->. Qed.

Lemma consumed_prefix i t s' cs j cs' :
  j = String.length t + i ->
  consumed (MState i (t +:+ s') cs) (MState j s' cs') = t.
Proof.
  intros ->. unfold consumed. cbn [pos rest].
  replace (String.length t + i - i) with (String.length t) by lia.
  apply substring_prefix.
Qed.

(** Group 1 on a word. *)
Lemma accept_tag i tag s' cs k r :
  word_string tag = true -> stops Chars.word s' = true ->
  k (MState (String.length tag + i) s' ((1, tag) :: cs)) = Some r ->
  exec (Grp 1 (Alt (Star Chars.word) (Chr (Chars.one "*")))) (MState i (tag +:+ s') cs) k
  = Some r.
Proof.
  intros Ht Hs Hk. cbn [exec pos rest caps]. apply or_else_Some.
  apply star_all; [done|done|].
  unfold capture. cbn [pos rest caps]. by rewrite consumed_prefix.
Qed.

Lemma exec_chr_ok cls c s' i cs k :
  cls c = true -> exec (Chr cls) (MState i (String c s') cs) k = k (MState (S i) s' cs).
Proof. intros H. cbn [exec rest]. by rewrite H. Qed.

Lemma exec_chr_no cls c s' i cs k :
  cls c = false -> exec (Chr cls) (MState i (String c s') cs) k = None.
Proof. intros H. cbn [exec rest]. by rewrite H. Qed.

Lemma exec_opt_chr_no cls s i cs k :
  stops cls s = true -> exec (Opt (Chr cls)) (MState i s cs) k = k (MState i s cs).
Proof.
  intros H. cbn [exec rest]. destruct s as [|c s']; [done|].
  simpl in H. apply negb_true_iff in H. by rewrite H.
Qed.

Lemma word_not_quote c : Chars.word c = true -> Chars.quote c = false.
Proof. destruct c as [[] [] [] [] [] [] [] []]; vm_compute; congruence. Qed.

Lemma accept_star i s' cs k :
  k (MState i (String "*" s') ((1, "") :: cs)) = None ->
  exec (Grp 1 (Alt (Star Chars.word) (Chr (Chars.one "*")))) (MState i (String "*" s') cs) k
  = k (MState (S i) s' ((1, "*") :: cs)).
Proof.
  intros Hk. cbn [exec pos rest caps star].
  change (Chars.word "*") with false. cbv iota.
  unfold capture at 1. cbn [pos rest caps].
  unfold consumed at 1. cbn [pos rest]. rewrite Nat.sub_diag.
  change (String.substring 0 0 (String "*" s')) with "".
  rewrite Hk. cbn [or_else].
  change (Chars.one "*" "*") with true. cbv iota.
  unfold capture, advance, consumed. cbn [pos rest caps].
  replace (S i - i) with 1 by lia. by destruct s'.
Qed.


Lemma accept_no_name i s cs k :
  stops (fun c => Chars.one "#" c || Chars.one "." c) s = true ->
  exec name_re (MState i s cs) k = k (MState i s cs).
Proof.
  intros H. cbn [exec rest]. destruct s as [|c s']; [done|].
  change (negb (Chars.one "#" c || Chars.one "." c) = true) in H.
  apply negb_true_iff, orb_false_elim in H as [H1 H2]. by rewrite H1, H2.
Qed.

Lemma plus_all cls i t s' cs k r :
  negb (String.eqb t "") && all_in cls t = true -> stops cls s' = true ->
  k (MState (String.length t + i) s' cs) = Some r ->
  exec (Plus cls) (MState i (t +:+ s') cs) k = Some r.
Proof.
  intros [Hne Ht]%andb_true_iff Hs Hk. destruct t as [|c t]; [done|].
  simpl in Ht. apply andb_true_iff in Ht as [Hc Ht].
  rewrite append_cons. cbn [exec rest pos caps]. rewrite Hc.
  apply star_all; [done|done|]. by rewrite Nat.add_succ_r.
Qed.

Lemma accept_id i id s' cs k r :
  is_name id = true -> stops Chars.word_dash s' = true ->
  k (MState (String.length id + S i) s' ((2, id) :: cs)) = Some r ->
  exec name_re (MState i (String "#" (id +:+ s')) cs) k = Some r.
Proof.
  intros Hid Hs Hk. cbn [exec]. do 2 apply or_else_Some.
  cbn [rest]. change (Chars.one "#" "#") with true. cbv iota.
  unfold advance. cbn [pos rest caps].
  apply (plus_all _ _ _ _ _ (fun st' => k (capture 2 (MState (S i) (id +:+ s') cs) st')));
    [done|done|].
  unfold capture. cbn [pos rest caps]. by rewrite consumed_prefix.
Qed.

Lemma accept_class i c s' cs k r :
  is_name c = true -> stops Chars.word_dash s' = true ->
  k (MState (String.length c + S i) s' ((3, c) :: cs)) = Some r ->
  exec name_re (MState i (String "." (c +:+ s')) cs) k = Some r.
Proof.
  intros Hid Hs Hk. cbn [exec]. apply or_else_Some.
  cbn [rest]. change (Chars.one "#" ".") with false. cbv iota. cbn [or_else].
  change (Chars.one "." ".") with true. cbv iota.
  unfold advance. cbn [pos rest caps].
  apply (plus_all _ _ _ _ _ (fun st' => k (capture 3 (MState (S i) (c +:+ s') cs) st')));
    [done|done|].
  unfold capture. cbn [pos rest caps]. by rewrite consumed_prefix.
Qed.

Lemma or_else_None_r {A} (x : option A) : or_else x None = x.
Proof. by destruct x. Qed.

Lemma exec_cat_assoc a b c st k :
  exec (Cat (Cat a b) c) st k = exec (Cat a (Cat b c)) st k.
Proof. reflexivity. Qed.

Lemma exec_cat_chr_ok cls r c s' i cs k :
  cls c = true ->
  exec (Cat (Chr cls) r) (MState i (String c s') cs) k = exec r (MState (S i) s' cs) k.
Proof. intros H. cbn [exec rest]. by rewrite H. Qed.

Lemma exec_cat_skip cls r s i cs k :
  stops cls s = true ->
  exec (Cat (Opt (Chr cls)) r) (MState i s cs) k = exec r (MState i s cs) k.
Proof.
  intros H. change (exec (Cat (Opt (Chr cls)) r) (MState i s cs) k)
    with (exec (Opt (Chr cls)) (MState i s cs) (fun st' => exec r st' k)).
  by rewrite exec_opt_chr_no.
Qed.

Lemma exec_cat_opt_some r1 r2 st k res :
  exec (Cat r1 r2) st k = Some res -> exec (Cat (Opt r1) r2) st k = Some res.
Proof. intros H. cbn [exec]. by apply or_else_Some. Qed.

Lemma exec_cat_opt_none r1 r2 st k :
  exec (Cat r1 r2) st k = None -> exec (Cat (Opt r1) r2) st k = exec r2 st k.
Proof. cbn [exec]. by intros ->. Qed.

Lemma exec_cat_plus n cls r i t s' cs k res :
  negb (String.eqb t "") && all_in cls t = true -> stops cls s' = true ->
  exec r (MState (String.length t + i) s' ((n, t) :: cs)) k = Some res ->
  exec (Cat (Grp n (Plus cls)) r) (MState i (t +:+ s') cs) k = Some res.
Proof.
  intros Ht Hs Hk.
  change (exec (Cat (Grp n (Plus cls)) r) (MState i (t +:+ s') cs) k)
    with (exec (Plus cls) (MState i (t +:+ s') cs)
            (fun st' => exec r (capture n (MState i (t +:+ s') cs) st') k)).
  apply plus_all; [done|done|].
  unfold capture. cbn [pos rest caps]. by rewrite consumed_prefix.
Qed.

Lemma exec_cat_star n cls r i t s' cs k res :
  all_in cls t = true -> stops cls s' = true ->
  exec r (MState (String.length t + i) s' ((n, t) :: cs)) k = Some res ->
  exec (Cat (Grp n (Star cls)) r) (MState i (t +:+ s') cs) k = Some res.
Proof.
  intros Ht Hs Hk.
  change (exec (Cat (Grp n (Star cls)) r) (MState i (t +:+ s') cs) k)
    with (star cls i (t +:+ s') cs
            (fun st' => exec r (capture n (MState i (t +:+ s') cs) st') k)).
  apply star_all; [done|done|].
  unfold capture. cbn [pos rest caps]. by rewrite consumed_prefix.
Qed.

Lemma operator_ok_cases op : operator_ok op = true -> is_operator op.
Proof.
  unfold operator_ok, is_operator. rewrite !orb_true_iff, !String.eqb_eq. tauto.
Qed.


Lemma accept_operator r i op s' cs k :
  operator_ok op = true ->
  exec (Cat op_re r) (MState i (op +:+ s') cs) k
  = exec r (MState (String.length op + i) s' ((5, op) :: cs)) k.
Proof.
  intros H%operator_ok_cases.
  assert (E : forall t, consumed (MState i (t +:+ s') cs)
                          (MState (String.length t + i) s' cs) = t).
  { intros t. by apply consumed_prefix. }
  destruct H as [-> | [-> | [-> | ->]]].
  - specialize (E "="). cbn [exec rest pos caps].
    change ("=" +:+ s') with (String "=" s') in *. cbv iota.
    change (Chars.star_hat_dollar "=") with false.
    change (Chars.one "=" "=") with true. cbv iota. cbn [or_else].
    unfold capture, advance. cbn [pos rest caps].
    change (String.length "=" + i) with (S i) in *. by rewrite E.
  - specialize (E "*="). cbn [exec rest pos caps].
    change ("*=" +:+ s') with (String "*" (String "=" s')) in *. cbv iota.
    change (Chars.star_hat_dollar "*") with true.
    change (Chars.one "=" "*") with false.
    change (Chars.one "=" "=") with true. cbv iota. cbn [advance rest].
    cbv iota. rewrite or_else_None_r.
    unfold capture, advance. cbn [pos rest caps].
    change (String.length "*=" + i) with (S (S i)) in *. by rewrite E.
  - specialize (E "^="). cbn [exec rest pos caps].
    change ("^=" +:+ s') with (String "^" (String "=" s')) in *. cbv iota.
    change (Chars.star_hat_dollar "^") with true.
    change (Chars.one "=" "^") with false.
    change (Chars.one "=" "=") with true. cbv iota. cbn [advance rest].
    cbv iota. rewrite or_else_None_r.
    unfold capture, advance. cbn [pos rest caps].
    change (String.length "^=" + i) with (S (S i)) in *. by rewrite E.
  - specialize (E "$="). cbn [exec rest pos caps].
    change ("$=" +:+ s') with (String "$" (String "=" s')) in *. cbv iota.
    change (Chars.star_hat_dollar "$") with true.
    change (Chars.one "=" "$") with false.
    change (Chars.one "=" "=") with true. cbv iota. cbn [advance rest].
    cbv iota. rewrite or_else_None_r.
    unfold capture, advance. cbn [pos rest caps].
    change (String.length "$=" + i) with (S (S i)) in *. by rewrite E.
Qed.

Lemma stops_quote_word v s' :
  word_string v = true -> stops Chars.quote s' = true ->
  stops Chars.quote (v +:+ s') = true.
Proof.
  intros Hv Hs. destruct v as [|c v]; [done|].
  rewrite append_cons. unfold word_string in Hv. simpl in Hv.
  apply andb_true_iff in Hv as [Hc _].
  change (negb (Chars.quote c) = true). by rewrite (word_not_quote c Hc).
Qed.

Lemma is_tag_word t : is_tag t = true -> word_string t = true.
Proof. by intros [_ H]%andb_true_iff. Qed.


Lemma accept_no_attr i cs k :
  exec attr_re (MState i "" cs) k = k (MState i "" cs).
Proof. reflexivity. Qed.

Lemma accept_has_attr i attr s' cs k r :
  is_tag attr = true ->
  k (MState (S (String.length attr + S i)) s' ((4, attr) :: cs)) = Some r ->
  exec attr_re (MState i (String "[" (attr +:+ String "]" s')) cs) k = Some r.
Proof.
  intros Ha Hk. cbn [exec]. apply or_else_Some.
  change (exec (Cat (Chr (Chars.one "["))
       (Cat (Opt (Chr Chars.quote))
       (Cat (Grp 4 (Plus Chars.word))
       (Cat (Opt (Chr Chars.quote))
       (Cat (Opt (Cat op_re
                 (Cat (Opt (Chr Chars.quote))
                 (Cat (Grp 6 (Star Chars.word)) (Opt (Chr Chars.quote))))))
            (Chr (Chars.one "]")))))))
       (MState i (String "[" (attr +:+ String "]" s')) cs) k = Some r).
  rewrite exec_cat_chr_ok by done.
  rewrite exec_cat_skip by (apply stops_quote_word; [by apply is_tag_word|done]).
  apply exec_cat_plus; [done|done|].
  rewrite exec_cat_skip by done.
  rewrite exec_cat_opt_none by done.
  by rewrite exec_chr_ok.
Qed.

Lemma accept_attr_op i attr op v s' cs k r :
  is_tag attr = true -> operator_ok op = true -> word_string v = true ->
  k (MState (S (String.length v + (String.length op + (String.length attr + S i)))) s'
       ((6, v) :: (5, op) :: (4, attr) :: cs)) = Some r ->
  exec attr_re (MState i (String "[" (attr +:+ op +:+ v +:+ String "]" s')) cs) k = Some r.
Proof.
  intros Ha Ho Hv Hk. cbn [exec]. apply or_else_Some.
  change (exec (Cat (Chr (Chars.one "["))
       (Cat (Opt (Chr Chars.quote))
       (Cat (Grp 4 (Plus Chars.word))
       (Cat (Opt (Chr Chars.quote))
       (Cat (Opt (Cat op_re
                 (Cat (Opt (Chr Chars.quote))
                 (Cat (Grp 6 (Star Chars.word)) (Opt (Chr Chars.quote))))))
            (Chr (Chars.one "]")))))))
       (MState i (String "[" (attr +:+ op +:+ v +:+ String "]" s')) cs) k = Some r).
  assert (Hop : forall cls : ascii -> bool,
             cls "="%char = false -> cls "*"%char = false -> cls "^"%char = false ->
             cls "$"%char = false -> forall x, stops cls (op +:+ x) = true).
  { intros cls H1 H2 H3 H4 x.
    destruct (operator_ok_cases op Ho) as [-> | [-> | [-> | ->]]];
      rewrite append_cons; unfold stops; by rewrite ?H1, ?H2, ?H3, ?H4. }
  rewrite exec_cat_chr_ok by done.
  rewrite exec_cat_skip by (apply stops_quote_word; [by apply is_tag_word|by apply Hop]).
  apply exec_cat_plus; [done|by apply Hop|].
  rewrite exec_cat_skip by (by apply Hop).
  apply exec_cat_opt_some. rewrite !exec_cat_assoc.
  rewrite accept_operator by done. rewrite !exec_cat_assoc.
  rewrite exec_cat_skip by (by apply stops_quote_word). rewrite !exec_cat_assoc.
  apply exec_cat_star; [done|done|].
  rewrite exec_cat_skip by done.
  by rewrite exec_chr_ok.
Qed.

Lemma token_ok_parts tag n a :
  token_ok tag n a = true ->
  (word_string tag = true \/ tag = "*") /\
  match n with NoName => True | IdName x | ClassName x => is_name x = true end /\
  match a with
  | NoAttr => True
  | HasAttr attribute => is_tag attribute = true
  | AttrOp attribute operator value =>
      is_tag attribute = true /\ operator_ok operator = true /\ word_string value = true
  end.
Proof.
  unfold token_ok. rewrite !andb_true_iff, orb_true_iff, String.eqb_eq.
  intros [[Ht Hn] Ha]. split_and!; [done| by destruct n |].
  destruct a; [done|done|]. rewrite !andb_true_iff in Ha. tauto.
Qed.


Lemma cat_tag r i tag s' cs k res :
  word_string tag = true -> stops Chars.word s' = true ->
  exec r (MState (String.length tag + i) s' ((1, tag) :: cs)) k = Some res ->
  exec (Cat tag_re r) (MState i (tag +:+ s') cs) k = Some res.
Proof. intros. by apply (accept_tag _ _ _ _ (fun st' => exec r st' k)). Qed.

Lemma cat_star r i s' cs k :
  exec r (MState i (String "*" s') ((1, "") :: cs)) k = None ->
  exec (Cat tag_re r) (MState i (String "*" s') cs) k
  = exec r (MState (S i) s' ((1, "*") :: cs)) k.
Proof. intros. by apply (accept_star _ _ _ (fun st' => exec r st' k)). Qed.

Lemma cat_no_name r i s cs k :
  stops (fun c => Chars.one "#" c || Chars.one "." c) s = true ->
  exec (Cat name_re r) (MState i s cs) k = exec r (MState i s cs) k.
Proof. intros. by apply (accept_no_name _ _ _ (fun st' => exec r st' k)). Qed.

Lemma cat_id r i id s' cs k res :
  is_name id = true -> stops Chars.word_dash s' = true ->
  exec r (MState (String.length id + S i) s' ((2, id) :: cs)) k = Some res ->
  exec (Cat name_re r) (MState i (String "#" (id +:+ s')) cs) k = Some res.
Proof. intros. by apply (accept_id _ _ _ _ (fun st' => exec r st' k)). Qed.

Lemma cat_class r i c s' cs k res :
  is_name c = true -> stops Chars.word_dash s' = true ->
  exec r (MState (String.length c + S i) s' ((3, c) :: cs)) k = Some res ->
  exec (Cat name_re r) (MState i (String "." (c +:+ s')) cs) k = Some res.
Proof. intros. by apply (accept_class _ _ _ _ (fun st' => exec r st' k)). Qed.

Lemma cat_has_attr r i attr s' cs k res :
  is_tag attr = true ->
  exec r (MState (S (String.length attr + S i)) s' ((4, attr) :: cs)) k = Some res ->
  exec (Cat attr_re r) (MState i (String "[" (attr +:+ String "]" s')) cs) k = Some res.
Proof. intros. by apply (accept_has_attr _ _ _ _ (fun st' => exec r st' k)). Qed.

Lemma cat_attr_op r i attr op v s' cs k res :
  is_tag attr = true -> operator_ok op = true -> word_string v = true ->
  exec r (MState (S (String.length v + (String.length op + (String.length attr + S i)))) s'
       ((6, v) :: (5, op) :: (4, attr) :: cs)) k = Some res ->
  exec (Cat attr_re r) (MState i (String "[" (attr +:+ op +:+ v +:+ String "]" s')) cs) k
  = Some res.
Proof. intros. by apply (accept_attr_op _ _ _ _ _ _ (fun st' => exec r st' k)). Qed.

Lemma append_nil_l s : "" +:+ s = s.
Proof. reflexivity. Qed.

Lemma accept_attr_part a i cs :
  match a with
  | NoAttr => True
  | HasAttr attribute => is_tag attribute = true
  | AttrOp attribute operator value =>
      is_tag attribute = true /\ operator_ok operator = true /\ word_string value = true
  end ->
  exists j,
    exec (Cat attr_re Eol) (MState i (show_attr a) cs) Some
    = Some (MState j ""
              (match a with
               | NoAttr => []
               | HasAttr x => [(4, x)]
               | AttrOp x op v => [(6, v); (5, op); (4, x)]
               end ++ cs)).
Proof.
  destruct a as [|x|x op v]; cbn [show_attr]; intros Ha.
  - by exists i.
  - eexists. by apply cat_has_attr.
  - destruct Ha as (Hx & Hop & Hv). eexists. by apply cat_attr_op.
Qed.

Lemma accept_name_part n a i cs :
  match n with NoName => True | IdName x | ClassName x => is_name x = true end ->
  match a with
  | NoAttr => True
  | HasAttr attribute => is_tag attribute = true
  | AttrOp attribute operator value =>
      is_tag attribute = true /\ operator_ok operator = true /\ word_string value = true
  end ->
  exists j,
    exec (Cat name_re (Cat attr_re Eol)) (MState i (show_name n +:+ show_attr a) cs) Some
    = Some (MState j ""
              (match a with
               | NoAttr => []
               | HasAttr x => [(4, x)]
               | AttrOp x op v => [(6, v); (5, op); (4, x)]
               end ++
               match n with
               | NoName => []
               | IdName id => [(2, id)]
               | ClassName c => [(3, c)]
               end ++ cs)).
Proof.
  intros Hn Ha.
  assert (Hs2 : stops Chars.word_dash (show_attr a) = true) by (by destruct a).
  assert (Hs3 : stops (fun c => Chars.one "#" c || Chars.one "." c) (show_attr a) = true)
    by (by destruct a).
  destruct n as [|id|c]; cbn [show_name].
  - rewrite append_nil_l, cat_no_name by done. by apply accept_attr_part.
  - destruct (accept_attr_part a (String.length id + S i) ((2, id) :: cs) Ha) as [j E].
    exists j. rewrite append_cons. by apply cat_id.
  - destruct (accept_attr_part a (String.length c + S i) ((3, c) :: cs) Ha) as [j E].
    exists j. rewrite append_cons. by apply cat_class.
Qed.

Lemma accept_token tag n a :
  token_ok tag n a = true ->
  exists st',
    exec Pattern.selector (start_at 0 (token tag n a)) Some = Some st' /\
    rest st' = "" /\
    map (fun m => group m (caps st')) (seq 1 6)
    = [Some tag;
       match n with IdName id => Some id | _ => None end;
       match n with ClassName c => Some c | _ => None end;
       match a with NoAttr => None | HasAttr x | AttrOp x _ _ => Some x end;
       match a with AttrOp _ op _ => Some op | _ => None end;
       match a with AttrOp _ _ v => Some v | _ => None end].
Proof.
  intros (Ht & Hn & Ha)%token_ok_parts.
  assert (Hs1 : stops Chars.word (show_name n +:+ show_attr a) = true)
    by (by destruct n, a).
  unfold Pattern.selector, start_at, token.
  change (exec (Cat Bol ?r) (MState 0 ?s ?c) ?k) with (exec r (MState 0 s c) k).
  destruct Ht as [Ht | ->].
  - destruct (accept_name_part n a (String.length tag + 0) [(1, tag)] Hn Ha) as [j E].
    eexists. split_and!; [by apply cat_tag|done|]. by destruct n, a.
  - destruct (accept_name_part n a 1 [(1, "*")] Hn Ha) as [j E].
    eexists. split_and!; [rewrite append_cons, append_nil_l;
                          rewrite cat_star; [exact E|by destruct n, a]
                         |done|by destruct n, a].
Qed.

Lemma test_token tag n a :
  token_ok tag n a = true ->
  test (token tag n a) Pattern.selector 6
  = Some [Some (token tag n a); Some tag;
          match n with IdName id => Some id | _ => None end;
          match n with ClassName c => Some c | _ => None end;
          match a with NoAttr => None | HasAttr x | AttrOp x _ _ => Some x end;
          match a with AttrOp _ op _ => Some op | _ => None end;
          match a with AttrOp _ _ v => Some v | _ => None end].
Proof.
  intros (st' & E & Hr & Hg)%accept_token. unfold test. rewrite search_unfold, E, Hg.
  apply exec_sound in E as (st'' & Hm & [= ->]).
  by rewrite (consumed_matches _ _ _ (token tag n a) Hm)
    by (by rewrite Hr, append_nil_r).
Qed.

Lemma of_bits_token tag n a :
  Param.of_bits [Some (token tag n a); Some tag;
          match n with IdName id => Some id | _ => None end;
          match n with ClassName c => Some c | _ => None end;
          match a with NoAttr => None | HasAttr x | AttrOp x _ _ => Some x end;
          match a with AttrOp _ op _ => Some op | _ => None end;
          match a with AttrOp _ _ v => Some v | _ => None end]
  = clause tag n a.
Proof.
  unfold Param.of_bits, clause, tag_of.
  change (item (Some (token tag n a) :: Some tag :: ?l) 1) with (Some tag).
  unfold truthy. by destruct (String.eqb tag "").
Qed.

Lemma no_space_app a b : no_space (a +:+ b) = no_space a && no_space b.
Proof.
  unfold no_space. induction a as [|c a IH]; [done|].
  rewrite append_cons. simpl. by rewrite IH, andb_assoc.
Qed.

Lemma no_space_cons c s : no_space (String c s) = negb (Chars.space c) && no_space s.
Proof. reflexivity. Qed.

Lemma word_no_space t : word_string t = true -> no_space t = true.
Proof. intros H. by apply name_no_space, word_word_dash. Qed.

Lemma token_no_space tag n a : token_ok tag n a = true -> no_space (token tag n a) = true.
Proof.
  intros (Ht & Hn & Ha)%token_ok_parts. unfold token.
  rewrite !no_space_app. apply andb_true_iff. split; [|apply andb_true_iff; split].
  - destruct Ht as [Ht | ->]; [by apply word_no_space|done].
  - destruct n as [|x|x]; [done| |]; cbn [show_name]; rewrite no_space_cons;
      apply andb_true_iff in Hn as [_ Hn]; by rewrite (name_no_space _ Hn).
  - destruct a as [|x|x op v]; [done| |]; cbn [show_attr]; rewrite no_space_cons,
      !no_space_app.
    + by rewrite (is_tag_no_space _ Ha).
    + destruct Ha as (Hx & Hop & Hv).
      rewrite (is_tag_no_space _ Hx), (word_no_space _ Hv).
      by destruct (operator_ok_cases _ Hop) as [-> | [-> | [-> | ->]]].
Qed.

End Tokens.

(** ** What one token selects *)

Section TokenMeaning.

Variable doc : dom.
Implicit Types (this : scope) (l : list element).

Lemma filter_all (l : list element) : filter (fun _ : element => true) l = l.
Proof.
  induction l as [|x l IH]; [done|]. rewrite filter_cons.
  rewrite decide_True by done. by rewrite IH.
Qed.

Lemma refine_token tag n a l :
  token_ok tag n a = true ->
  Pure.refine doc (clause tag n a) l = filter (attr_ok doc a) (filter (class_ok doc n) l).
Proof.
  intros (Ht & Hn & Ha)%token_ok_parts. unfold Pure.refine, clause. cbn [Param.class Param.attribute Param.value Param.operator].
  destruct n as [|id|c].
  - cbn [truthy class_ok]. rewrite filter_all. destruct a as [|x|x op v].
    + cbn [truthy attr_ok]. by rewrite filter_all.
    + rewrite (is_tag_truthy _ Ha). reflexivity.
    + destruct Ha as (Hx & _). rewrite (is_tag_truthy _ Hx). reflexivity.
  - cbn [truthy class_ok]. rewrite filter_all. destruct a as [|x|x op v].
    + cbn [truthy attr_ok]. by rewrite filter_all.
    + rewrite (is_tag_truthy _ Ha). reflexivity.
    + destruct Ha as (Hx & _). rewrite (is_tag_truthy _ Hx). reflexivity.
  - rewrite (is_name_truthy _ Hn). destruct a as [|x|x op v].
    + cbn [truthy attr_ok]. by rewrite filter_all.
    + rewrite (is_tag_truthy _ Ha). reflexivity.
    + destruct Ha as (Hx & _). rewrite (is_tag_truthy _ Hx). reflexivity.
Qed.

Lemma token_clause tag n a :
  token_ok tag n a = true ->
  Param.of_bits <$> test (token tag n a) Pattern.selector 6 = Some (clause tag n a).
Proof. intros H. by rewrite test_token, <- of_bits_token. Qed.

Lemma select_clause_first this sel tag n a :
  Param.of_bits <$> test sel Pattern.selector 6 = Some (clause tag n a) ->
  token_ok tag n a = true ->
  Pure.select doc this sel 0 []
  = filter (attr_ok doc a) (filter (class_ok doc n) (first_candidates doc this tag n)).
Proof.
  intros Hsel Hok. unfold Pure.select.
  destruct (test sel Pattern.selector 6) as [bits|]; [|done].
  apply (inj Some) in Hsel. cbv zeta. rewrite Hsel.
  rewrite <- (refine_token tag n a) by done.
  pose proof (token_ok_parts _ _ _ Hok) as (Ht & Hn & Ha).
  unfold Pure.candidates, first_candidates. change (Nat.eqb 0 0) with true. cbv iota.
  change (Param.tag (clause tag n a)) with (Some (tag_of tag)).
  destruct n as [|id|c]; [done| |done].
  change (Param.id (clause tag (IdName id) a)) with (Some id).
  rewrite (is_name_truthy _ Hn). change (to_str (Some id)) with id.
  destruct (getElementById doc this id) as [el|]; [|by rewrite refine_token].
  destruct (String.eqb_spec (tag_of tag) "*") as [E1|E1];
    destruct (String.eqb_spec (getTag doc el) (tag_of tag)) as [E2|E2]; cbn [orb].
  - by rewrite bool_decide_eq_true_2 by congruence.
  - by rewrite bool_decide_eq_true_2 by congruence.
  - rewrite bool_decide_eq_false_2 by congruence.
    by rewrite (bool_decide_eq_true_2 (Some (getTag doc el) = Some (tag_of tag))) by congruence.
  - rewrite !bool_decide_eq_false_2 by congruence. cbn [negb andb].
    by rewrite refine_token.
Qed.

Lemma select_clause_later this sel tag n a i l :
  Param.of_bits <$> test sel Pattern.selector 6 = Some (clause tag n a) ->
  token_ok tag n a = true -> i <> 0 ->
  Pure.select doc this sel i l
  = filter (attr_ok doc a) (filter (class_ok doc n) (later_candidates doc l tag n)).
Proof.
  intros Hsel Hok Hi. unfold Pure.select.
  destruct (test sel Pattern.selector 6) as [bits|]; [|done].
  apply (inj Some) in Hsel. cbv zeta. rewrite Hsel.
  rewrite <- (refine_token tag n a) by done.
  pose proof (token_ok_parts _ _ _ Hok) as (Ht & Hn & Ha).
  destruct i as [|i]; [done|].
  unfold Pure.candidates, later_candidates. change (Nat.eqb (S i) 0) with false. cbv iota zeta.
  change (Param.tag (clause tag n a)) with (Some (tag_of tag)).
  destruct n as [|id|c]; [done| |done].
  change (Param.id (clause tag (IdName id) a)) with (Some id).
  by rewrite (is_name_truthy _ Hn).
Qed.

End TokenMeaning.

(** ** What the selector pattern accepts *)

Section Accepted.

Ltac invert H := inversion H; subst; clear H.

Lemma matches_cat_inv r1 r2 st st' :
  matches (Cat r1 r2) st st' -> exists m, matches r1 st m /\ matches r2 m st'.
Proof. intros H. invert H. eauto. Qed.

Lemma matches_opt_inv r st st' :
  matches (Opt r) st st' -> st' = st \/ matches r st st'.
Proof. intros H. invert H; auto. Qed.

Lemma matches_alt_inv r1 r2 st st' :
  matches (Alt r1 r2) st st' -> matches r1 st st' \/ matches r2 st st'.
Proof. intros H. invert H; auto. Qed.

Lemma matches_grp_inv n r st st' :
  matches (Grp n r) st st' -> exists x, matches r st x /\ st' = capture n st x.
Proof. intros H. invert H. eauto. Qed.

Lemma matches_star_consumed cls st st' :
  matches (Star cls) st st' -> all_in cls (consumed st st') = true.
Proof.
  intros H. pose proof H as Hm. invert H.
  by rewrite (consumed_matches _ _ _ t Hm).
Qed.

Lemma matches_plus_consumed cls st st' :
  matches (Plus cls) st st' ->
  negb (String.eqb (consumed st st') "") && all_in cls (consumed st st') = true.
Proof.
  intros H. pose proof H as Hm. invert H.
  rewrite (consumed_matches _ _ _ t Hm) by done.
  apply andb_true_iff. split; [|done]. by destruct t.
Qed.

Lemma matches_chr_consumed c st st' :
  matches (Chr (Chars.one c)) st st' -> consumed st st' = String c "".
Proof.
  intros H. pose proof H as Hm. invert H.
  match goal with H : Chars.one _ _ = true |- _ => apply Ascii.eqb_eq in H; subst end.
  apply (consumed_matches _ _ _ _ Hm). cbn [advance rest]. by rewrite append_cons.
Qed.

Lemma group_capture_eq n st x : group n (caps (capture n st x)) = Some (consumed st x).
Proof. unfold capture. cbn [caps group]. by rewrite Nat.eqb_refl. Qed.

Lemma selector_head st st' :
  caps st = [] -> matches Pattern.selector st st' ->
  (exists t, group 1 (caps st') = Some t /\ (word_string t = true \/ t = "*")) /\
  (forall x, group 2 (caps st') = Some x -> is_name x = true) /\
  (forall x, group 3 (caps st') = Some x -> is_name x = true) /\
  (group 2 (caps st') = None \/ group 3 (caps st') = None) /\
  (forall x, group 4 (caps st') = Some x -> is_tag x = true) /\
  (group 4 (caps st') = None -> group 5 (caps st') = None) /\
  (group 5 (caps st') = None -> group 6 (caps st') = None).
Proof.
  unfold Pattern.selector. intros Hc H.
  apply matches_cat_inv in H as (s0 & Hbol & H). invert Hbol.
  apply matches_cat_inv in H as (s1 & H1 & H).
  apply matches_cat_inv in H as (s2 & H2 & H).
  apply matches_cat_inv in H as (s3 & H3 & H). invert H.
  pose proof (fun (g : nat) E => matches_keeps_group g _ _ _ H1 E) as K1.
  pose proof (fun (g : nat) E => matches_keeps_group g _ _ _ H2 E) as K2.
  pose proof (fun (g : nat) E => matches_keeps_group g _ _ _ H3 E) as K3.
  rewrite Hc in K1. cbn [group] in K1.
  rewrite (K3 1 eq_refl), (K3 2 eq_refl), (K3 3 eq_refl), (K2 1 eq_refl).
  split_and!.
  - apply matches_grp_inv in H1 as (x & H1 & ->). rewrite group_capture_eq.
    eexists. split; [done|].
    apply matches_alt_inv in H1 as [H1|H1].
    + left. by apply matches_star_consumed.
    + right. by apply matches_chr_consumed.
  - intros x. apply matches_opt_inv in H2 as [-> | H2]; [by rewrite (K1 2 eq_refl)|].
    apply matches_alt_inv in H2 as [H2|H2].
    + apply matches_cat_inv in H2 as (y & _ & H2).
      apply matches_grp_inv in H2 as (z & H2 & ->). rewrite group_capture_eq.
      intros [= <-]. by apply matches_plus_consumed.
    + by rewrite (matches_keeps_group 2 _ _ _ H2 eq_refl), (K1 2 eq_refl).
  - intros x. apply matches_opt_inv in H2 as [-> | H2]; [by rewrite (K1 3 eq_refl)|].
    apply matches_alt_inv in H2 as [H2|H2].
    + by rewrite (matches_keeps_group 3 _ _ _ H2 eq_refl), (K1 3 eq_refl).
    + apply matches_cat_inv in H2 as (y & _ & H2).
      apply matches_grp_inv in H2 as (z & H2 & ->). rewrite group_capture_eq.
      intros [= <-]. by apply matches_plus_consumed.
  - apply matches_opt_inv in H2 as [-> | H2]; [left; by rewrite (K1 2 eq_refl)|].
    apply matches_alt_inv in H2 as [H2|H2].
    + right. by rewrite (matches_keeps_group 3 _ _ _ H2 eq_refl), (K1 3 eq_refl).
    + left. by rewrite (matches_keeps_group 2 _ _ _ H2 eq_refl), (K1 2 eq_refl).
  - intros x. apply matches_opt_inv in H3 as [-> | H3];
      [by rewrite (K2 4 eq_refl), (K1 4 eq_refl)|].
    apply matches_cat_inv in H3 as (a & _ & H3).
    apply matches_cat_inv in H3 as (b & _ & H3).
    apply matches_cat_inv in H3 as (c & G4 & H3).
    rewrite (matches_keeps_group 4 _ _ _ H3 eq_refl).
    apply matches_grp_inv in G4 as (z & G4 & ->). rewrite group_capture_eq.
    intros [= <-]. by apply matches_plus_consumed.
  - apply matches_opt_inv in H3 as [-> | H3];
      [by rewrite (K2 5 eq_refl), (K1 5 eq_refl)|].
    apply matches_cat_inv in H3 as (a & _ & H3).
    apply matches_cat_inv in H3 as (b & _ & H3).
    apply matches_cat_inv in H3 as (c & G4 & H3).
    rewrite (matches_keeps_group 4 _ _ _ H3 eq_refl).
    apply matches_grp_inv in G4 as (z & G4 & ->). by rewrite group_capture_eq.
  - apply matches_opt_inv in H3 as [-> | H3];
      [by rewrite (K2 6 eq_refl), (K1 6 eq_refl)|].
    apply matches_cat_inv in H3 as (a & Ha & H3).
    apply matches_cat_inv in H3 as (b & Hb & H3).
    apply matches_cat_inv in H3 as (c & G4 & H3).
    apply matches_cat_inv in H3 as (d & Hd & H3).
    apply matches_cat_inv in H3 as (e & He & H3).
    rewrite (matches_keeps_group 5 _ _ _ H3 eq_refl),
      (matches_keeps_group 6 _ _ _ H3 eq_refl).
    apply matches_opt_inv in He as [-> | He].
    + intros _. rewrite (matches_keeps_group 6 _ _ _ Hd eq_refl),
        (matches_keeps_group 6 _ _ _ G4 eq_refl),
        (matches_keeps_group 6 _ _ _ Hb eq_refl),
        (matches_keeps_group 6 _ _ _ Ha eq_refl).
      by rewrite (K2 6 eq_refl), (K1 6 eq_refl).
    + apply matches_cat_inv in He as (f & G5 & He).
      rewrite (matches_keeps_group 5 _ _ _ He eq_refl).
      apply matches_grp_inv in G5 as (z & G5 & ->). by rewrite group_capture_eq.
Qed.

End Accepted.

Lemma accepted_groups sel bits :
  test sel Pattern.selector 6 = Some bits ->
  exists whole g1 g2 g3 g4 g5 g6,
    bits = [whole; Some g1; g2; g3; g4; g5; g6] /\
    (word_string g1 = true \/ g1 = "*") /\
    (forall x, g2 = Some x -> is_name x = true) /\
    (forall x, g3 = Some x -> is_name x = true) /\
    (g2 = None \/ g3 = None) /\
    (forall x, g4 = Some x -> is_tag x = true) /\
    (forall op, g5 = Some op ->
       is_operator op /\ g4 <> None /\ exists v, g6 = Some v /\ word_string v = true) /\
    (g5 = None -> g6 = None).
Proof.
  unfold test. destruct (search Pattern.selector 0 sel) as [[st st']|] eqn:Hs; [|done].
  intros [= <-]. apply search_sound in Hs as (j & s' & -> & Hm).
  pose proof (selector_groups (start_at j s') st' eq_refl Hm) as (H5 & H6 & H56).
  pose proof (selector_head (start_at j s') st' eq_refl Hm) as ((t & E1 & Ht) & H2 & H3 & H23 & H4 & H45 & H56').
  cbn [seq map]. rewrite E1.
  eexists _, t, _, _, _, _, _. split; [done|]. split_and!; try done.
  intros op Hop. split_and!.
  - by apply H5.
  - intros E. apply H45 in E. congruence.
  - destruct (group 6 (caps st')) as [v|] eqn:E6.
    + exists v. split; [done|]. by apply H6.
    + destruct H56; congruence.
Qed.

Lemma is_operator_ok op : is_operator op -> operator_ok op = true.
Proof. by intros [-> | [-> | [-> | ->]]]. Qed.

(** ** Tokens and clauses *)

(** X14: a token written without quotes, a tag or the star or nothing,
    then nothing or [#id] or [.class], then nothing or an attribute in
    brackets with or without operator and value, is one token of the
    selector, the pattern of line 119 accepts it, and the clause has the
    parts as written, with [*] for a missing tag. *)
Theorem token_parses tag n a :
  token_ok tag n a = true ->
  split " " (clean (token tag n a)) = [token tag n a] /\
  Param.of_bits <$> test (token tag n a) Pattern.selector 6 = Some (clause tag n a).
Proof.
  intros H. split.
  - by apply tokens_no_space, token_no_space.
  - by apply token_clause.
Qed.

Lemma token_parses_witness :
  token_ok "a" NoName (AttrOp "href" "^=" "http") = true /\
  split " " (clean "a[href^=http]") = ["a[href^=http]"] /\
  Param.of_bits <$> test "a[href^=http]" Pattern.selector 6
  = Some (Param.Make (Some "a") None None (Some "href") (Some "^=") (Some "http")).
Proof.
  split; [reflexivity|].
  apply (token_parses "a" NoName (AttrOp "href" "^=" "http")). reflexivity.
Defined.

(** X15: whatever the pattern of line 119 accepts, quotes included, the
    clause is the clause of a token as above: the tag is a word or the
    star, the id and the class are names and not both there, the attribute
    is a word, the operator is one of the four and comes with an attribute
    and a value of word characters. *)
Theorem accepted_clause sel bits :
  test sel Pattern.selector 6 = Some bits ->
  exists tag n a, token_ok tag n a = true /\ Param.of_bits bits = clause tag n a.
Proof.
  intros (whole & g1 & g2 & g3 & g4 & g5 & g6 & -> & H1 & H2 & H3 & H23 & H4 & H5 & H56)
    %accepted_groups.
  exists g1,
    (match g2, g3 with
     | Some id, _ => IdName id
     | None, Some c => ClassName c
     | None, None => NoName
     end),
    (match g4, g5, g6 with
     | Some x, Some op, Some v => AttrOp x op v
     | Some x, _, _ => HasAttr x
     | None, _, _ => NoAttr
     end).
  assert (E : Param.of_bits [whole; Some g1; g2; g3; g4; g5; g6]
              = Param.Make (Some (tag_of g1)) g2 g3 g4 g5 g6).
  { unfold Param.of_bits, tag_of.
    change (item [whole; Some g1; g2; g3; g4; g5; g6] 1) with (Some g1).
    unfold truthy. by destruct (String.eqb g1 ""). }
  rewrite E. clear E. split.
  - unfold token_ok. apply andb_true_iff. split; [apply andb_true_iff; split|].
    + apply orb_true_iff. rewrite String.eqb_eq. tauto.
    + destruct g2 as [id|]; [by apply H2|]. destruct g3 as [c|]; [by apply H3|done].
    + destruct g4 as [x|]; [|done]. specialize (H4 x eq_refl).
      destruct g5 as [op|]; [|done].
      destruct (H5 op eq_refl) as (Hop & _ & v & -> & Hv).
      by rewrite H4, (is_operator_ok _ Hop), Hv.
  - unfold clause. fold (tag_of g1).
    destruct g2 as [id|].
    + destruct H23 as [?| ->]; [done|].
      destruct g4 as [x|].
      * destruct g5 as [op|].
        -- by destruct (H5 op eq_refl) as (_ & _ & v & -> & _).
        -- by rewrite (H56 eq_refl).
      * destruct g5 as [op|].
        -- by destruct (H5 op eq_refl) as (_ & ? & _).
        -- by rewrite (H56 eq_refl).
    + destruct g3 as [c|].
      * destruct g4 as [x|].
        -- destruct g5 as [op|].
           ++ by destruct (H5 op eq_refl) as (_ & _ & v & -> & _).
           ++ by rewrite (H56 eq_refl).
        -- destruct g5 as [op|].
           ++ by destruct (H5 op eq_refl) as (_ & ? & _).
           ++ by rewrite (H56 eq_refl).
      * destruct g4 as [x|].
        -- destruct g5 as [op|].
           ++ by destruct (H5 op eq_refl) as (_ & _ & v & -> & _).
           ++ by rewrite (H56 eq_refl).
        -- destruct g5 as [op|].
           ++ by destruct (H5 op eq_refl) as (_ & ? & _).
           ++ by rewrite (H56 eq_refl).
Qed.

Lemma accepted_clause_witness :
  test "a[href='x']" Pattern.selector 6
  = Some [Some "a[href='x']"; Some "a"; None; None; Some "href"; Some "="; Some "x"] /\
  exists tag n a,
    token_ok tag n a = true /\
    Param.of_bits [Some "a[href='x']"; Some "a"; None; None; Some "href"; Some "="; Some "x"]
    = clause tag n a.
Proof.
  split; [reflexivity|].
  apply (accepted_clause "a[href='x']"). reflexivity.
Defined.

(** X16: a selector of one token selects by the clause of the token and
    by nothing else of its text: it starts from the element with the id of
    the clause, if the scoped lookup finds it and it has the tag of the
    clause, or else from the elements of the scope with the tag, and keeps
    of these, in order, the elements with the class and then those that
    pass the attribute test of the clause. *)
Theorem first_token_selects doc this selector sel tag n a w :
  split " " (clean selector) = [sel] ->
  Param.of_bits <$> test sel Pattern.selector 6 = Some (clause tag n a) ->
  token_ok tag n a = true ->
  result_of (getElements doc this selector) w
  = filter (attr_ok doc a) (filter (class_ok doc n) (first_candidates doc this tag n)).
Proof.
  intros Hs Hc Hok. rewrite result_of_getElements. unfold Pure.getElements. rewrite Hs.
  change (Pure.each_token doc this [sel] 0 []) with (Pure.select doc this sel 0 []).
  by apply select_clause_first.
Qed.

Lemma first_token_selects_witness :
  split " " (clean " div#a ") = ["div#a"] /\
  Param.of_bits <$> test "div#a" Pattern.selector 6 = Some (clause "div" (IdName "a") NoAttr) /\
  token_ok "div" (IdName "a") NoAttr = true /\
  result_of (getElements page Document " div#a ") empty_world = [[0; 0]].
Proof.
  split; [reflexivity|]. split; [reflexivity|]. split; [reflexivity|].
  apply (first_token_selects page Document " div#a " "div#a" "div" (IdName "a") NoAttr
           empty_world); reflexivity.
Defined.

(** X17: a token added at the end of a selector works on the results of
    the selector before it: each result is replaced by the elements
    strictly below it that have the tag of the clause, and of these the
    ones with the id, then the class, then the attribute of the clause are
    kept, in order.  The id of a later token is compared on these elements
    and is not looked up in the document. *)
Theorem later_token_selects doc this selector1 selector sel tag n a w :
  split " " (clean selector) = split " " (clean selector1) ++ [sel] ->
  Param.of_bits <$> test sel Pattern.selector 6 = Some (clause tag n a) ->
  token_ok tag n a = true ->
  result_of (getElements doc this selector) w
  = filter (attr_ok doc a)
      (filter (class_ok doc n)
         (later_candidates doc (result_of (getElements doc this selector1) w) tag n)).
Proof.
  intros Hs Hc Hok. rewrite !result_of_getElements. unfold Pure.getElements.
  rewrite Hs, each_token_app.
  change (Pure.each_token doc this [sel] ?i ?l) with (Pure.select doc this sel i l).
  apply select_clause_later; [done|done|].
  pose proof (split_nonempty " " (clean selector1)).
  destruct (split " " (clean selector1)); [done|]. simpl. lia.
Qed.

Lemma later_token_selects_witness :
  split " " (clean "div p.x") = split " " (clean "div") ++ ["p.x"] /\
  Param.of_bits <$> test "p.x" Pattern.selector 6 = Some (clause "p" (ClassName "x") NoAttr) /\
  token_ok "p" (ClassName "x") NoAttr = true /\
  result_of (getElements page Document "div p.x") empty_world = [[0; 0; 0]].
Proof.
  split; [reflexivity|]. split; [reflexivity|]. split; [reflexivity|].
  apply (later_token_selects page Document "div" "div p.x" "p.x" "p" (ClassName "x") NoAttr
           empty_world); reflexivity.
Defined.

(** X18: the selector of a tag and an attribute in brackets with an
    operator and a value selects the elements of the scope with that tag
    whose attribute is set, is not empty, and stands to the value as the
    operator says: equal, containing, starting or ending with it. *)
Theorem attribute_selector doc this tag x op v w :
  is_tag tag = true -> is_tag x = true -> operator_ok op = true -> word_string v = true ->
  forall el,
    el ∈ result_of (getElements doc this (tag +:+ "[" +:+ x +:+ op +:+ v +:+ "]")) w <->
    el ∈ getElementsByTagName doc this tag /\
    spec_attribute (getAttribute doc el x) (Some op) v.
Proof.
  intros Ht Hx Hop Hv el.
  assert (Hok : token_ok tag NoName (AttrOp x op v) = true).
  { unfold token_ok. rewrite (is_tag_word _ Ht), Hx, Hop, Hv. reflexivity. }
  change (tag +:+ "[" +:+ x +:+ op +:+ v +:+ "]") with (token tag NoName (AttrOp x op v)).
  rewrite result_of_getElements. unfold Pure.getElements.
  rewrite tokens_no_space by (by apply token_no_space).
  change (Pure.each_token doc this [?sel] 0 []) with (Pure.select doc this sel 0 []).
  rewrite (select_clause_first doc this _ tag NoName (AttrOp x op v));
    [|by apply token_clause|done].
  cbn [class_ok first_candidates attr_ok]. rewrite filter_all.
  assert (E : tag_of tag = tag).
  { unfold tag_of. apply andb_true_iff in Ht as [Hne _]. by destruct (String.eqb tag ""). }
  rewrite E, list_elem_of_filter, Is_true_true.
  rewrite (attribute_passes_table doc el x (Some v) (Some op)); [tauto|].
  intros _. by exists v.
Qed.

Lemma attribute_selector_witness :
  is_tag "a" = true /\ is_tag "href" = true /\ operator_ok "^=" = true /\
  word_string "http" = true /\
  ([0; 1; 0] ∈ result_of (getElements page Document "a[href^=http]") empty_world <->
   [0; 1; 0] ∈ getElementsByTagName page Document "a" /\
   spec_attribute (getAttribute page [0; 1; 0] "href") (Some "^=") "http").
Proof.
  do 4 (split; [reflexivity|]).
  apply (attribute_selector page Document "a" "href" "^=" "http" empty_world);
    reflexivity.
Defined.
